(** * The ISA item model of qt_isa_gui: tokens, branch mapping, line index

    A shallow embedding of [source/qt_isa_gui/widgets/isa_item_model.{h,cpp}].

    Conventions of the embedding.
    - [int] and [uint32_t] values are [Z]; the conversions the C++ code
      performs between them are written out ([to_int], [to_uint32]).
    - [std::string] is [string]; token text is 7-bit text without NUL, as
      an ISA disassembler prints it, so a [QString] built from its
      [c_str()] has the same length and the same characters.  Theorems on
      the regular expressions that range over every word say so in a
      hypothesis ([seven_bit]).
    - [qreal] hit-box geometry is carried in [Q]: a [double] is a rational,
      and a sum or a product of doubles is that of the rationals whenever
      the latter is a double again.  That is the case for a character width
      k/2^j and the text lengths at hand as long as the numerators stay
      below 2^53; theorems on positions and widths carry that hypothesis
      ([dyadic]), the others do not depend on the geometry.
    - A call either returns or ends in one of the [Error]s: an exception of
      the C++ library, an access the language leaves undefined, or a loop
      that does not end.
    - [blocks_] holds one object per entry (no two entries share a block, no
      two rows share a row object), so the vector of shared pointers is a
      list of values and a pointer to a block is its index in the list. *)

From Stdlib Require Import ZArith QArith Qround Lqa Ascii String Lia Bool.
From stdpp Require Import base option list gmap strings pretty.

Set Default Proof Using "Type".

(** ** Machine integers *)

Definition INT_MAX : Z := 2147483647.
Definition INT_MIN : Z := -2147483648.

(** [static_cast<uint32_t>(z)]. *)
Definition to_uint32 (z : Z) : Z := (z mod 4294967296)%Z.

(** [static_cast<int>(z)] (two's complement wrap-around). *)
Definition to_int (z : Z) : Z := ((z + 2147483648) mod 4294967296 - 2147483648)%Z.

(** [static_cast<size_t>(z)]. *)
Definition to_size_t (z : Z) : Z := (z mod 18446744073709551616)%Z.

(** ** Outcomes of a call *)

Inductive Error : Type :=
  | std_invalid_argument   (* std::stoi: no digits *)
  | std_out_of_range       (* std::stoi: value outside int; vector::at *)
  | undefined_behaviour    (* a cast or an access the language leaves undefined *)
  | no_termination.        (* a loop that never ends *)

Inductive Result (A : Type) : Type :=
  | Returns (a : A)
  | Raises (e : Error).
Arguments Returns {A} a.
Arguments Raises {A} e.

Global Instance Result_ret : MRet Result := fun A a => Returns a.
Global Instance Result_bind : MBind Result := fun A B f m =>
  match m with
  | Returns a => f a
  | Raises e => Raises e
  end.
Global Instance Result_fmap : FMap Result := fun A B f m =>
  match m with
  | Returns a => Returns (f a)
  | Raises e => Raises e
  end.

(** Monadic left fold: the body of a [for] loop run over the list of its
    iterations. *)
Fixpoint foldM {A S : Type} (body : S -> A -> Result S) (st : S) (l : list A) : Result S :=
  match l with
  | [] => Returns st
  | a :: l' => st' ← body st a; foldM body st' l'
  end.

(** ** std::string *)

Module StdString.

(** [s.size()]. *)
Definition size (s : string) : Z := Z.of_nat (String.length s).

(** [s.substr(pos)] for [pos <= s.size()]. *)
Fixpoint substr (s : string) (pos : nat) {struct pos} : string :=
  match pos, s with
  | O, _ => s
  | S p, String _ s' => substr s' p
  | S _, EmptyString => EmptyString
  end.

(** [s.substr(0, n)]. *)
Fixpoint substr0 (s : string) (n : nat) {struct n} : string :=
  match n, s with
  | O, _ => EmptyString
  | S p, String c s' => String c (substr0 s' p)
  | S _, EmptyString => EmptyString
  end.

(** [s.find(pat)] from the start; [None] is [npos]. *)
Fixpoint find_from (s pat : string) (pos : nat) : option nat :=
  if String.prefix pat s then Some pos
  else match s with
       | EmptyString => None
       | String _ s' => find_from s' pat (S pos)
       end.

Definition find (s pat : string) : option nat := find_from s pat 0.

(** The characters of [kSpecialChars] in [TrimStr]: space, \t, \n, \r, \f, \v. *)
Definition is_special (c : ascii) : bool := Ascii.is_space c.

(** [s.erase(0, s.find_first_not_of(kSpecialChars))]; [npos] erases all. *)
Fixpoint erase_leading (s : string) : string :=
  match s with
  | EmptyString => EmptyString
  | String c s' => if is_special c then erase_leading s' else s
  end.

(** [s.erase(s.find_last_not_of(kSpecialChars) + 1)]; [npos + 1] is 0. *)
Fixpoint erase_trailing (s : string) : string :=
  match s with
  | EmptyString => EmptyString
  | String c s' =>
      match erase_trailing s' with
      | EmptyString => if is_special c then EmptyString else String c EmptyString
      | t => String c t
      end
  end.

(** [s.pop_back()] on a non-empty string. *)
Fixpoint pop_back (s : string) : string :=
  match s with
  | EmptyString => EmptyString
  | String c EmptyString => EmptyString
  | String c s' => String c (pop_back s')
  end.

(** [std::isdigit] in the C locale. *)
Definition isdigit (c : ascii) : bool :=
  match Ascii.is_nat c with Some _ => true | None => false end.

Definition digit_value (c : ascii) : Z :=
  match Ascii.is_nat c with Some d => Z.of_nat d | None => 0%Z end.

(** The longest prefix of decimal digits and what follows it. *)
Fixpoint span_digits (s : string) : string * string :=
  match s with
  | EmptyString => (EmptyString, EmptyString)
  | String c s' =>
      if isdigit c then
        let '(ds, rest) := span_digits s' in (String c ds, rest)
      else (EmptyString, s)
  end.

(** The value of a run of decimal digits, most significant first. *)
Fixpoint decimal_value (acc : Z) (ds : string) : Z :=
  match ds with
  | EmptyString => acc
  | String c ds' => decimal_value (acc * 10 + digit_value c)%Z ds'
  end.

(** [std::stoi(s)]: leading white space, an optional sign, decimal digits;
    whatever follows the digits is ignored. *)
Definition stoi (s : string) : Result Z :=
  let s1 := erase_leading s in
  let '(negative, s2) :=
    match s1 with
    | String "-"%char r => (true, r)
    | String "+"%char r => (false, r)
    | _ => (false, s1)
    end in
  let '(ds, _) := span_digits s2 in
  match ds with
  | EmptyString => Raises std_invalid_argument
  | _ =>
      let v := decimal_value 0 ds in
      let v := if negative : bool then (- v)%Z else v in
      if ((INT_MIN <=? v) && (v <=? INT_MAX))%Z then Returns v
      else Raises std_out_of_range
  end.

End StdString.

(** [IsaItemModel::TrimStr]. *)
Definition TrimStr (input_string : string) : string :=
  StdString.erase_leading (StdString.erase_trailing input_string).

(** [IsaItemModel::Split]: the [while] loop, one iteration per unit of fuel. *)
Fixpoint Split_loop (fuel : nat) (line delimiter : string) : Result (list string) :=
  match StdString.find line delimiter with
  | Some pos =>
      match fuel with
      | O => Raises no_termination
      | S fuel' =>
          let token := StdString.substr0 line pos in
          rest ← Split_loop fuel' (StdString.substr line (pos + String.length delimiter)) delimiter;
          Returns (TrimStr token :: rest)
      end
  | None => Returns [TrimStr line]
  end.

(** Each iteration removes at least one character unless the delimiter is
    empty, so [length line] iterations are enough whenever the loop ends. *)
Definition Split (line delimiter : string) : Result (list string) :=
  Split_loop (String.length line) line delimiter.

(** ** QRegularExpression

    The patterns of the model use single characters, the class [[0-9]], the
    dot, the quantifiers [?], [+] and [*] on one character, capture groups
    and a back reference.  [Regex] is the abstract syntax of such a pattern
    and [match_here] the backtracking matcher: quantifiers are greedy and
    give back characters one at a time, and alternatives are tried in the
    order of the pattern, so the first match found is the one PCRE reports. *)

Inductive CharClass : Type :=
  | Lit (c : ascii)     (* an escaped or plain character *)
  | Digit09             (* [0-9] *)
  | Dot.                (* . : any character but a line feed *)

Inductive Regex : Type :=
  | One (cc : CharClass)
  | Opt (cc : CharClass)            (* cc? *)
  | Plus (cc : CharClass)           (* cc+ *)
  | Star (cc : CharClass)           (* cc* *)
  | Cat (r1 r2 : Regex)
  | Group (n : nat) (r : Regex)     (* the n-th parenthesis *)
  | Backref (n : nat).              (* \n *)

Definition class_matches (cc : CharClass) (c : ascii) : bool :=
  match cc with
  | Lit c' => Ascii.eqb c' c
  | Digit09 => StdString.isdigit c
  | Dot => negb (Ascii.eqb c "010"%char)
  end.

(** What each group captured so far. *)
Definition Captures : Type := list (nat * string).

Fixpoint captured (n : nat) (caps : Captures) : option string :=
  match caps with
  | [] => None
  | (m, s) :: caps' => if Nat.eqb n m then Some s else captured n caps'
  end.

(** Greedy repetition of one character class: take as many characters as
    match, then give them back one by one until the rest of the pattern
    ([k]) succeeds. *)
Fixpoint match_star (cc : CharClass) (s : string) (pos : nat)
    (k : string -> nat -> option nat) : option nat :=
  match s with
  | String c s' =>
      if class_matches cc c then
        match match_star cc s' (S pos) k with
        | Some e => Some e
        | None => k s pos
        end
      else k s pos
  | EmptyString => k s pos
  end.

(** [match_here r s pos caps k]: match [r] at the head of [s], which starts
    at offset [pos] of the subject, then continue with [k]; the result is the
    offset at which the whole match ends. *)
Fixpoint match_here (r : Regex) (s : string) (pos : nat) (caps : Captures)
    (k : string -> nat -> Captures -> option nat) : option nat :=
  match r with
  | One cc =>
      match s with
      | String c s' => if class_matches cc c then k s' (S pos) caps else None
      | EmptyString => None
      end
  | Opt cc =>
      match s with
      | String c s' =>
          if class_matches cc c then
            match k s' (S pos) caps with
            | Some e => Some e
            | None => k s pos caps
            end
          else k s pos caps
      | EmptyString => k s pos caps
      end
  | Plus cc =>
      match s with
      | String c s' =>
          if class_matches cc c
          then match_star cc s' (S pos) (fun s'' pos'' => k s'' pos'' caps)
          else None
      | EmptyString => None
      end
  | Star cc => match_star cc s pos (fun s'' pos'' => k s'' pos'' caps)
  | Cat r1 r2 =>
      match_here r1 s pos caps (fun s' pos' caps' => match_here r2 s' pos' caps' k)
  | Group n r' =>
      match_here r' s pos caps
        (fun s' pos' caps' => k s' pos' ((n, StdString.substr0 s (pos' - pos)) :: caps'))
  | Backref n =>
      match captured n caps with
      | Some t =>
          if String.prefix t s
          then k (StdString.substr s (String.length t)) (pos + String.length t) caps
          else None
      | None => None
      end
  end.

(** The first offset at which the pattern matches, and where that match ends. *)
Fixpoint search (r : Regex) (s : string) (start : nat) : option (nat * nat) :=
  match match_here r s start [] (fun _ e _ => Some e) with
  | Some e => Some (start, e)
  | None =>
      match s with
      | String _ s' => search r s' (S start)
      | EmptyString => None
      end
  end.

(** [QRegularExpressionMatch], as far as the model reads it. *)
Record QRegularExpressionMatch : Type := {
  hasMatch : bool;
  capturedStart : Z;
  capturedEnd : Z
}.

(** [QRegularExpression::match(subject)]. *)
Definition QRegularExpression_match (r : Regex) (subject : string) : QRegularExpressionMatch :=
  match search r subject 0 with
  | Some (b, e) => {| hasMatch := true; capturedStart := Z.of_nat b; capturedEnd := Z.of_nat e |}
  | None => {| hasMatch := false; capturedStart := (-1)%Z; capturedEnd := (-1)%Z |}
  end.

(** The test the model applies to every pattern: the match exists, starts
    at 0 and ends at the size of the token. *)
Definition exact_match (m : QRegularExpressionMatch) (token_string_size : Z) : bool :=
  hasMatch m && (capturedStart m =? 0)%Z && (capturedEnd m =? token_string_size)%Z.

(** (-?)(\|?)(x[0-9]+)(\2) for the register letter [x]. *)
Definition register_pattern (x : ascii) : Regex :=
  Cat (Group 1 (Opt (Lit "-"%char)))
 (Cat (Group 2 (Opt (Lit "|"%char)))
 (Cat (Group 3 (Cat (One (Lit x)) (Plus Digit09)))
      (Group 4 (Backref 2)))).

(** x\[[0-9]+:[0-9]+\] for the register letter [x]. *)
Definition register_range_pattern (x : ascii) : Regex :=
  Cat (One (Lit x))
 (Cat (One (Lit "["%char))
 (Cat (Plus Digit09)
 (Cat (One (Lit ":"%char))
 (Cat (Plus Digit09)
      (One (Lit "]"%char)))))).

Definition kScalarRegisterExpression : Regex := register_pattern "s"%char.
Definition kVectorRegisterExpression : Regex := register_pattern "v"%char.
Definition kScalarPairStartRegisterExpression : Regex :=
  Cat (One (Lit "["%char)) (register_pattern "s"%char).
Definition kVectorPairStartRegisterExpression : Regex :=
  Cat (One (Lit "["%char)) (register_pattern "v"%char).
Definition kScalarPairEndRegisterExpression : Regex :=
  Cat (register_pattern "s"%char) (One (Lit "]"%char)).
Definition kVectorPairEndRegisterExpression : Regex :=
  Cat (register_pattern "v"%char) (One (Lit "]"%char)).
Definition kScalarRegisterRangeExpression : Regex := register_range_pattern "s"%char.
Definition kVectorRegisterRangeExpression : Regex := register_range_pattern "v"%char.

(** -?[0-9].* *)
Definition kConstantExpression : Regex :=
  Cat (Opt (Lit "-"%char)) (Cat (One Digit09) (Star Dot)).

(** ** Tokens *)

(** [IsaItemModel::TokenType]. *)
Inductive TokenType : Type :=
  | kLabelType
  | kBranchLabelType
  | kScalarRegisterType
  | kVectorRegisterType
  | kConstantType
  | kTypeCount.

Global Instance TokenType_eq_dec : EqDecision TokenType.
Proof. solve_decision. Defined.

(** [IsaItemModel::Token]. *)
Record Token : Type := {
  token_text : string;
  type : TokenType;
  start_register_index : Z;
  end_register_index : Z;
  x_position_start : Q;
  x_position_end : Q;
  is_selectable : bool
}.

(** [Token::Token()], that is [Token::Clear()] on a fresh token. *)
Definition Token_Clear : Token := {|
  token_text := EmptyString;
  type := kTypeCount;
  start_register_index := -1;
  end_register_index := -1;
  x_position_start := (-1)%Q;
  x_position_end := (-1)%Q;
  is_selectable := false
|}.

Definition set_start_register_index (v : Z) (t : Token) : Token := {|
  token_text := token_text t;
  type := type t;
  start_register_index := v;
  end_register_index := end_register_index t;
  x_position_start := x_position_start t;
  x_position_end := x_position_end t;
  is_selectable := is_selectable t
|}.

Definition set_x_positions (x_start x_end : Q) (t : Token) : Token := {|
  token_text := token_text t;
  type := type t;
  start_register_index := start_register_index t;
  end_register_index := end_register_index t;
  x_position_start := x_start;
  x_position_end := x_end;
  is_selectable := is_selectable t
|}.

Definition kOpCodeColumnIndent : string := "     ".
Definition kColumnPadding : string := " ".
Definition kOperandTokenSpace : string := " ".
Definition kOperandDelimiter : string := ", ".
Definition kUnconditionalBranchString : string := "s_branch".
Definition kConditionalBranchString : string := "s_cbranch_".

(** The test both [ParseSelectableTokens] and [MapBlocksToBranchInstructions]
    apply to the op code text:
    [find(kUnconditionalBranchString) != npos || find(kConditionalBranchString) != npos]. *)
Definition is_branch_op_code (op_code : string) : bool :=
  bool_decide (StdString.find op_code kUnconditionalBranchString ≠ None)
  || bool_decide (StdString.find op_code kConditionalBranchString ≠ None).

(** ** ParseSelectableTokens *)

(** The body of the loop over the words of one operand: the token for one
    word, before its hit box is set. *)
Definition ClassifyToken (is_branch_instruction : bool) (token : string) : Result Token :=
  if is_branch_instruction then
    Returns {|
      token_text := token;
      type := kBranchLabelType;
      start_register_index := -1;
      end_register_index := -1;
      x_position_start := (-1)%Q;
      x_position_end := (-1)%Q;
      is_selectable := false |}
  else
    let token_string := token in
    let token_string_size := to_int (StdString.size token) in
    let s_register_expression_match := QRegularExpression_match kScalarRegisterExpression token_string in
    let v_register_expression_match := QRegularExpression_match kVectorRegisterExpression token_string in
    let s_register_pair_start_expression_match :=
      QRegularExpression_match kScalarPairStartRegisterExpression token_string in
    let v_register_pair_start_expression_match :=
      QRegularExpression_match kVectorPairStartRegisterExpression token_string in
    let s_register_pair_end_expression_match :=
      QRegularExpression_match kScalarPairEndRegisterExpression token_string in
    let v_register_pair_end_expression_match :=
      QRegularExpression_match kVectorPairEndRegisterExpression token_string in
    let s_register_range_expression_match :=
      QRegularExpression_match kScalarRegisterRangeExpression token_string in
    let v_register_range_expression_match :=
      QRegularExpression_match kVectorRegisterRangeExpression token_string in
    let constant_expression_match := QRegularExpression_match kConstantExpression token_string in
    let is_scalar_register := exact_match s_register_expression_match token_string_size in
    let is_vector_register := exact_match v_register_expression_match token_string_size in
    let is_scalar_register :=
      if negb is_scalar_register
      then is_scalar_register || exact_match s_register_pair_start_expression_match token_string_size
      else is_scalar_register in
    let is_vector_register :=
      if negb is_vector_register
      then is_vector_register || exact_match v_register_pair_start_expression_match token_string_size
      else is_vector_register in
    let is_scalar_register :=
      if negb is_scalar_register
      then is_scalar_register || exact_match s_register_pair_end_expression_match token_string_size
      else is_scalar_register in
    let is_vector_register :=
      if negb is_vector_register
      then is_vector_register || exact_match v_register_pair_end_expression_match token_string_size
      else is_vector_register in
    let is_scalar_register_range := exact_match s_register_range_expression_match token_string_size in
    let is_vector_register_range := exact_match v_register_range_expression_match token_string_size in
    let is_constant := exact_match constant_expression_match token_string_size in
    let selectable :=
      is_scalar_register || is_vector_register || is_scalar_register_range
      || is_vector_register_range || is_constant in
    if is_scalar_register || is_vector_register then
      let register_string := token in
      let register_character_position :=
        StdString.find register_string (if is_scalar_register then "s" else "v") in
      (* npos + 1 wraps to 0 *)
      let register_string :=
        StdString.substr register_string
          (match register_character_position with Some p => p + 1 | None => 0 end) in
      match register_string with
      | String front _ =>
          if StdString.isdigit front then
            register_number ← StdString.stoi register_string;
            Returns {|
              token_text := token;
              type := if is_scalar_register then kScalarRegisterType else kVectorRegisterType;
              start_register_index := register_number;
              end_register_index := -1;
              x_position_start := (-1)%Q;
              x_position_end := (-1)%Q;
              is_selectable := selectable |}
          else
            Returns {|
              token_text := token;
              type := kTypeCount;
              start_register_index := -1;
              end_register_index := -1;
              x_position_start := (-1)%Q;
              x_position_end := (-1)%Q;
              is_selectable := false |}
      | EmptyString =>
          Returns {|
            token_text := token;
            type := kTypeCount;
            start_register_index := -1;
            end_register_index := -1;
            x_position_start := (-1)%Q;
            x_position_end := (-1)%Q;
            is_selectable := false |}
      end
    else if is_scalar_register_range || is_vector_register_range then
      let register_range_string := StdString.pop_back token in       (* remove ']' *)
      let register_range_string := StdString.substr register_range_string 2 in (* remove 's[' or 'v[' *)
      register_indices ← Split register_range_string ":";
      match register_indices with
      | index0 :: index1 :: _ =>
          register_start ← StdString.stoi index0;
          register_end ← StdString.stoi index1;
          Returns {|
            token_text := token;
            type := if is_scalar_register_range then kScalarRegisterType else kVectorRegisterType;
            start_register_index := register_start;
            end_register_index := register_end;
            x_position_start := (-1)%Q;
            x_position_end := (-1)%Q;
            is_selectable := selectable |}
      | _ => Raises undefined_behaviour   (* register_indices[1] past the end *)
      end
    else if is_constant then
      Returns {|
        token_text := token;
        type := kConstantType;
        start_register_index := -1;
        end_register_index := -1;
        x_position_start := (-1)%Q;
        x_position_end := (-1)%Q;
        is_selectable := selectable |}
    else
      Returns {|
        token_text := token;
        type := kTypeCount;
        start_register_index := -1;
        end_register_index := -1;
        x_position_start := (-1)%Q;
        x_position_end := (-1)%Q;
        is_selectable := selectable |}.

(** A loop that builds a vector by [emplace_back] of a result per element. *)
Fixpoint mapM {A B : Type} (f : A -> Result B) (l : list A) : Result (list B) :=
  match l with
  | [] => Returns []
  | a :: l' => b ← f a; bs ← mapM f l'; Returns (b :: bs)
  end.

(** The three running values of the hit-box pass; they live across operands. *)
Record HitBoxCursor : Type := {
  token_width : Q;
  token_start_x : Q;
  token_end_x : Q
}.

(** The hit-box loop over the tokens of one operand; [i] counts the tokens
    done and [n] is [operand_tokens.size()]. *)
Fixpoint set_hit_boxes (fixed_character_width : Q) (n : Z) (i : Z) (cur : HitBoxCursor)
    (operand_tokens : list Token) : list Token * HitBoxCursor :=
  match operand_tokens with
  | [] => ([], cur)
  | selectable_token :: rest =>
      let width := (fixed_character_width * inject_Z (StdString.size (token_text selectable_token)))%Q in
      let end_x := (token_end_x cur + width)%Q in
      let selectable_token := set_x_positions (token_start_x cur) end_x selectable_token in
      let cur' :=
        if (i <? to_size_t (n - 1))%Z then
          {| token_width := width;
             token_start_x := (token_start_x cur + width + fixed_character_width)%Q;
             token_end_x := (end_x + fixed_character_width)%Q |}
        else
          {| token_width := width; token_start_x := token_start_x cur; token_end_x := end_x |} in
      let '(rest', cur'') := set_hit_boxes fixed_character_width n (i + 1)%Z cur' rest in
      (selectable_token :: rest', cur'')
  end.

(** The body of the loop over the operands. *)
Definition parse_operand (is_branch_instruction : bool) (fixed_character_width : Q)
    (st : list (list Token) * HitBoxCursor) (operand : string)
    : Result (list (list Token) * HitBoxCursor) :=
  let '(selectable_tokens, cur) := st in
  tokens ← Split operand " ";
  operand_tokens ← mapM (ClassifyToken is_branch_instruction) tokens;
  let '(operand_tokens, cur) :=
    set_hit_boxes fixed_character_width (Z.of_nat (length operand_tokens)) 0 cur operand_tokens in
  let delimiter_width := (fixed_character_width * inject_Z (StdString.size ", "))%Q in
  Returns (selectable_tokens ++ [operand_tokens],
           {| token_width := token_width cur;
              token_start_x := (token_start_x cur + token_width cur + delimiter_width)%Q;
              token_end_x := (token_end_x cur + delimiter_width)%Q |}).

(** [IsaItemModel::ParseSelectableTokens]; the two output parameters are
    taken as they are on entry and returned as they are on exit. *)
Definition ParseSelectableTokens (op_code : string) (op_code_token : Token)
    (operands : list string) (selectable_tokens : list (list Token))
    (fixed_character_width : Q) : Result (Token * list (list Token)) :=
  let width := (fixed_character_width * inject_Z (StdString.size op_code))%Q in
  let x_start := (fixed_character_width * inject_Z (StdString.size kOpCodeColumnIndent))%Q in
  let op_code_token := {|
    token_text := op_code;
    type := kTypeCount;
    start_register_index := start_register_index op_code_token;
    end_register_index := end_register_index op_code_token;
    x_position_start := x_start;
    x_position_end := (x_start + width)%Q;
    is_selectable := true |} in
  let is_branch_instruction := is_branch_op_code op_code in
  let cur := {| token_width := width; token_start_x := 0%Q; token_end_x := 0%Q |} in
  '(selectable_tokens, _) ←
    foldM (parse_operand is_branch_instruction fixed_character_width)
          (selectable_tokens, cur) operands;
  Returns (op_code_token, selectable_tokens).

(** ** Rows, blocks and the model *)

(** [IsaItemModel::RowType]. *)
Inductive RowType : Type := kCode | kComment | kRowCount.

Global Instance RowType_eq_dec : EqDecision RowType.
Proof. solve_decision. Defined.

(** [IsaItemModel::Row] with its two final subclasses; the constructor fixes
    [row_type]. *)
Inductive Row : Type :=
  | CommentRow (line_number : Z) (text : string)
  | InstructionRow (line_number : Z) (op_code_token : Token)
      (operand_tokens : list (list Token)) (pc_address binary_representation : string)
      (enabled : bool).

Definition Row_row_type (r : Row) : RowType :=
  match r with
  | CommentRow _ _ => kComment
  | InstructionRow _ _ _ _ _ _ => kCode
  end.

Definition Row_line_number (r : Row) : Z :=
  match r with
  | CommentRow line _ => line
  | InstructionRow line _ _ _ _ _ => line
  end.

(** [IsaItemModel::Block] with its two final subclasses. *)
Inductive Block : Type :=
  | CommentBlock (position : Z) (line_number : Z) (instruction_lines : list Row) (text : string)
  | InstructionBlock (position : Z) (line_number : Z) (instruction_lines : list Row)
      (token : Token) (mapped_branch_instructions : list (Z * Z)).

Definition Block_row_type (b : Block) : RowType :=
  match b with
  | CommentBlock _ _ _ _ => kComment
  | InstructionBlock _ _ _ _ _ => kCode
  end.

Definition Block_position (b : Block) : Z :=
  match b with
  | CommentBlock p _ _ _ => p
  | InstructionBlock p _ _ _ _ => p
  end.

Definition Block_line_number (b : Block) : Z :=
  match b with
  | CommentBlock _ l _ _ => l
  | InstructionBlock _ l _ _ _ => l
  end.

Definition instruction_lines (b : Block) : list Row :=
  match b with
  | CommentBlock _ _ rows _ => rows
  | InstructionBlock _ _ rows _ _ => rows
  end.

(** The back references of a block; a comment block has none. *)
Definition mapped_branch_instructions (b : Block) : list (Z * Z) :=
  match b with
  | CommentBlock _ _ _ _ => []
  | InstructionBlock _ _ _ _ mapped => mapped
  end.

(** [InstructionBlock::InstructionBlock]; the constructor reads the file-level
    copy of the character width. *)
Definition InstructionBlock_new (fixed_font_character_width : Q) (block_position : Z)
    (shader_line_number : Z) (block_label : string) : Block :=
  InstructionBlock block_position shader_line_number []
    {| token_text := block_label;
       type := kLabelType;
       start_register_index := -1;
       end_register_index := -1;
       x_position_start := 0%Q;
       x_position_end := (fixed_font_character_width * inject_Z (StdString.size block_label))%Q;
       is_selectable := false |}
    [].

(** [IsaItemModel::Columns]. *)
Definition kLineNumber : Z := 0.
Definition kPcAddress : Z := 1.
Definition kOpCode : Z := 2.
Definition kOperands : Z := 3.
Definition kBinaryRepresentation : Z := 4.
Definition kColumnCount : Z := 5.

(** The data members of [IsaItemModel] (the font and the decoder apart). *)
Record IsaItemModel : Type := {
  blocks_ : list Block;
  code_block_label_to_index_ : gmap string Z;
  fixed_font_character_width_ : Q;
  line_numbers_visible_ : bool;
  column_widths_ : list Z;
  line_number_corresponding_indices_ : list (Z * Z)
}.

Definition set_blocks (blocks : list Block) (labels : gmap string Z) (m : IsaItemModel)
    : IsaItemModel := {|
  blocks_ := blocks;
  code_block_label_to_index_ := labels;
  fixed_font_character_width_ := fixed_font_character_width_ m;
  line_numbers_visible_ := line_numbers_visible_ m;
  column_widths_ := column_widths_ m;
  line_number_corresponding_indices_ := line_number_corresponding_indices_ m
|}.

(** [v.at(i)] for an index that was converted to [size_t]. *)
Definition vector_at {A : Type} (v : list A) (i : Z) : Result A :=
  if (to_size_t i <? Z.of_nat (length v))%Z then
    match v !! Z.to_nat (to_size_t i) with
    | Some a => Returns a
    | None => Raises std_out_of_range
    end
  else Raises std_out_of_range.

(** ** Branch instructions and the labels they target *)

Definition clear_mapped_branch_instructions (b : Block) : Block :=
  match b with
  | CommentBlock _ _ _ _ => b
  | InstructionBlock p l rows tok _ => InstructionBlock p l rows tok []
  end.

(** [IsaItemModel::ClearBranchInstructionMapping]. *)
Definition ClearBranchInstructionMapping (blocks : list Block) : list Block :=
  clear_mapped_branch_instructions <$> blocks.

(** The body of the first loop of [MapBlocksToBranchInstructions]. *)
Definition map_label (labels : gmap string Z) (block : Block) : gmap string Z :=
  match block with
  | CommentBlock _ _ _ _ => labels
  | InstructionBlock p _ _ tok _ => <[token_text tok := p]> labels
  end.

Definition build_label_map (blocks : list Block) : gmap string Z :=
  foldl map_label ∅ blocks.

(** [mapped_branch_instructions.emplace_back(entry)] on the target block. *)
Definition add_mapped_branch_instruction (entry : Z * Z) (b : Block) : Block :=
  match b with
  | CommentBlock _ _ _ _ => b
  | InstructionBlock p l rows tok mapped => InstructionBlock p l rows tok (mapped ++ [entry])
  end.

(** [operand_tokens.front().front().start_register_index = target] on a row. *)
Definition set_branch_target (target : Z) (r : Row) : Row :=
  match r with
  | InstructionRow line op ((t :: ts) :: groups) pc bin en =>
      InstructionRow line op ((set_start_register_index target t :: ts) :: groups) pc bin en
  | _ => r
  end.

Definition alter_instruction_line (f : Row -> Row) (instruction_index : nat) (b : Block)
    : Block :=
  match b with
  | CommentBlock p l rows text => CommentBlock p l (alter f instruction_index rows) text
  | InstructionBlock p l rows tok mapped =>
      InstructionBlock p l (alter f instruction_index rows) tok mapped
  end.

(** The text a branch row looks up in the label map: the first token of the
    first operand group of an instruction whose op code is a branch. *)
Definition branch_target_text (r : Row) : option string :=
  match r with
  | InstructionRow _ op ((t :: _) :: _) _ _ _ =>
      if is_branch_op_code (token_text op) then Some (token_text t) else None
  | _ => None
  end.

(** The body of the inner loop of the second pass, on the blocks as they are
    when the iteration starts. *)
Definition map_branch_instruction (labels : gmap string Z) (block_index : nat)
    (blocks : list Block) (instruction_index : nat) : Result (list Block) :=
  match blocks !! block_index with
  | Some (InstructionBlock _ _ rows _ _) =>
      match rows !! instruction_index with
      | Some (InstructionRow _ op operands _ _ _) =>
          let op_code_text := token_text op in
          let is_branch := is_branch_op_code op_code_text in
          if is_branch then
            match operands with
            | (t :: _) :: _ =>
                match labels !! token_text t with
                | Some branch_target_block_index =>
                    branch_target_block ← vector_at blocks branch_target_block_index;
                    match branch_target_block with
                    | InstructionBlock _ _ _ _ _ =>
                        let target := Z.to_nat (to_size_t branch_target_block_index) in
                        let entry := (to_uint32 (Z.of_nat block_index),
                                      to_uint32 (Z.of_nat instruction_index)) in
                        let blocks := alter (add_mapped_branch_instruction entry) target blocks in
                        Returns (alter (alter_instruction_line
                                          (set_branch_target branch_target_block_index)
                                          instruction_index)
                                       block_index blocks)
                    | CommentBlock _ _ _ _ =>
                        (* static_pointer_cast to a class the object is not *)
                        Raises undefined_behaviour
                    end
                | None => Returns blocks
                end
            | _ => Returns blocks   (* no operand group, or an empty first group *)
            end
          else Returns blocks
      | _ => Returns blocks
      end
  | _ => Returns blocks
  end.

(** The body of the outer loop of the second pass. *)
Definition map_block (labels : gmap string Z) (blocks : list Block) (block_index : nat)
    : Result (list Block) :=
  match blocks !! block_index with
  | Some (InstructionBlock _ _ rows _ _) =>
      foldM (map_branch_instruction labels block_index) blocks (seq 0 (length rows))
  | _ => Returns blocks
  end.

(** [IsaItemModel::MapBlocksToBranchInstructions]. *)
Definition MapBlocksToBranchInstructions (m : IsaItemModel) : Result IsaItemModel :=
  match blocks_ m with
  | [] => Returns m
  | _ =>
      let blocks := ClearBranchInstructionMapping (blocks_ m) in
      let labels := build_label_map blocks in
      blocks ← foldM (map_block labels) blocks (seq 0 (length blocks));
      Returns (set_blocks blocks ∅ m)
  end.

(** ** Model indices *)

(** [QModelIndex]: row, column, the internal pointer (a block, by its index
    in [blocks_]) and whether the index belongs to a model. *)
Record QModelIndex : Type := {
  row : Z;
  column : Z;
  internalPointer : option nat;
  has_model : bool
}.

(** [QModelIndex()]. *)
Definition QModelIndex_invalid : QModelIndex :=
  {| row := -1; column := -1; internalPointer := None; has_model := false |}.

Definition isValid (i : QModelIndex) : bool :=
  (0 <=? row i)%Z && (0 <=? column i)%Z && has_model i.

Definition createIndex (r c : Z) (p : option nat) : QModelIndex :=
  {| row := r; column := c; internalPointer := p; has_model := true |}.

Global Instance QModelIndex_eq_dec : EqDecision QModelIndex.
Proof. solve_decision. Defined.

(** [IsaItemModel::parent]. *)
Definition parent (m : IsaItemModel) (index : QModelIndex) : Result QModelIndex :=
  if negb (isValid index) then Returns QModelIndex_invalid
  else
    match internalPointer index with
    | Some code_block =>
        match blocks_ m !! code_block with
        | Some b => Returns (createIndex (Block_position b) 0 None)
        | None => Raises undefined_behaviour   (* a pointer to no block *)
        end
    | None => Returns QModelIndex_invalid
    end.

(** [IsaItemModel::rowCount]. *)
Definition rowCount (m : IsaItemModel) (parent_index : QModelIndex) : Result Z :=
  if (0 <? column parent_index)%Z then Returns 0%Z
  else if negb (isValid parent_index) then Returns (to_int (Z.of_nat (length (blocks_ m))))
  else
    grandparent ← parent m parent_index;
    if negb (isValid grandparent) then
      b ← vector_at (blocks_ m) (row parent_index);
      Returns (to_int (Z.of_nat (length (instruction_lines b))))
    else Returns 0%Z.

(** [IsaItemModel::columnCount]. *)
Definition columnCount (m : IsaItemModel) (parent_index : QModelIndex) : Z := kColumnCount.

(** [QAbstractItemModel::hasIndex]. *)
Definition hasIndex (m : IsaItemModel) (r c : Z) (parent_index : QModelIndex) : Result bool :=
  if ((r <? 0) || (c <? 0))%Z then Returns false
  else
    rows ← rowCount m parent_index;
    Returns ((r <? rows)%Z && (c <? columnCount m parent_index)%Z).

(** [IsaItemModel::index]. *)
Definition index (m : IsaItemModel) (r c : Z) (parent_index : QModelIndex) : Result QModelIndex :=
  ok ← hasIndex m r c parent_index;
  if negb ok then Returns QModelIndex_invalid
  else if negb (isValid parent_index) then Returns (createIndex r c None)
  else Returns (createIndex r c (Some (Z.to_nat (row parent_index)))).

(** ** Size hints and the line index *)

(** The operand text measured by [CacheSizeHints]: tokens of a group joined
    by [kOperandTokenSpace], groups by [kOperandDelimiter]. *)
Fixpoint join_group (operand_group : list Token) : string :=
  match operand_group with
  | [] => EmptyString
  | [operand] => token_text operand
  | operand :: rest => token_text operand +:+ kOperandTokenSpace +:+ join_group rest
  end.

Fixpoint join_operands (operand_tokens : list (list Token)) : string :=
  match operand_tokens with
  | [] => EmptyString
  | [operand_group] => join_group operand_group
  | operand_group :: rest => join_group operand_group +:+ kOperandDelimiter +:+ join_operands rest
  end.

(** The running maxima of [CacheSizeHints], in characters. *)
Record MaxLengths : Type := {
  max_pc_address_length : Z;
  max_op_code_length : Z;
  max_operand_length : Z;
  max_binary_representation_length : Z
}.

(** The body of the loop over the rows of one block. *)
Definition cache_instruction (code_block_index : Z)
    (st : list (Z * Z) * MaxLengths * Z) (instruction : Row) : list (Z * Z) * MaxLengths * Z :=
  let '(indices, lens, instruction_index) := st in
  let indices := indices ++ [(to_uint32 code_block_index, to_uint32 instruction_index)] in
  match instruction with
  | CommentRow _ _ => (indices, lens, (instruction_index + 1)%Z)
  | InstructionRow _ op operand_tokens pc bin _ =>
      (indices,
       {| max_op_code_length := Z.max (max_op_code_length lens) (StdString.size (token_text op));
          max_pc_address_length := Z.max (max_pc_address_length lens) (StdString.size pc);
          max_operand_length :=
            Z.max (max_operand_length lens) (StdString.size (join_operands operand_tokens));
          max_binary_representation_length :=
            Z.max (max_binary_representation_length lens) (StdString.size bin) |},
       (instruction_index + 1)%Z)
  end.

(** The body of the loop over the blocks. *)
Definition cache_block (st : list (Z * Z) * MaxLengths * Z) (code_block : Block)
    : list (Z * Z) * MaxLengths * Z :=
  let '(indices, lens, code_block_index) := st in
  let indices := indices ++ [(to_uint32 (-1), to_uint32 code_block_index)] in
  let '(indices, lens, _) :=
    foldl (cache_instruction code_block_index) (indices, lens, 0%Z) (instruction_lines code_block) in
  (indices, lens, (code_block_index + 1)%Z).

(** [static_cast<uint32_t>(std::ceil(length * fixed_font_character_width_))]. *)
Definition text_width (length : Z) (character_width : Q) : Z :=
  to_uint32 (Qceiling (inject_Z length * character_width)).

(** [IsaItemModel::CacheSizeHints]. *)
Definition CacheSizeHints (m : IsaItemModel) : IsaItemModel :=
  let line_number :=
    match last (blocks_ m) with
    | Some b => match last (instruction_lines b) with
                | Some r => Row_line_number r
                | None => 0%Z
                end
    | None => 0%Z
    end in
  let max_line_number := pretty (Z.to_N line_number) in
  let padding_length := StdString.size kColumnPadding in
  let max_line_number_length := (padding_length + StdString.size max_line_number)%Z in
  match blocks_ m with
  | [] =>
      {| blocks_ := blocks_ m;
         code_block_label_to_index_ := code_block_label_to_index_ m;
         fixed_font_character_width_ := fixed_font_character_width_ m;
         line_numbers_visible_ := line_numbers_visible_ m;
         column_widths_ := [0; 0; 0; 0; 0]%Z;
         line_number_corresponding_indices_ := [] |}
  | _ =>
      let '(indices, lens, _) :=
        foldl cache_block
          ([], {| max_pc_address_length := 0; max_op_code_length := 0;
                  max_operand_length := 0; max_binary_representation_length := 0 |}, 0%Z)
          (blocks_ m) in
      let w := fixed_font_character_width_ m in
      {| blocks_ := blocks_ m;
         code_block_label_to_index_ := code_block_label_to_index_ m;
         fixed_font_character_width_ := fixed_font_character_width_ m;
         line_numbers_visible_ := line_numbers_visible_ m;
         column_widths_ :=
           [ text_width max_line_number_length w;
             text_width (max_pc_address_length lens + padding_length) w;
             text_width (max_op_code_length lens + padding_length
                         + StdString.size kOpCodeColumnIndent) w;
             text_width (max_operand_length lens + padding_length) w;
             text_width (max_binary_representation_length lens + padding_length) w ]%Z;
         line_number_corresponding_indices_ := indices |}
  end.

(** [QSize]. *)
Record QSize : Type := { width : Z; height : Z }.

(** The conversion of a [qreal] to [int]: towards zero. *)
Definition Qtruncate (q : Q) : Z := if Qle_bool 0 q then Qfloor q else Qceiling q.

(** [IsaItemModel::ColumnSizeHint]; [font_height] is what
    [QFontMetricsF(fixed_font_, tree).height()] gives. *)
Definition ColumnSizeHint (m : IsaItemModel) (font_height : Q) (column_index : Z) : QSize :=
  if ((column_index <? 0) || (kColumnCount <=? column_index))%Z then
    {| width := 0; height := 0 |}
  else
    {| width := to_int (default 0%Z (column_widths_ m !! Z.to_nat column_index));
       height := Qtruncate (font_height + 2) |}.

(** [IsaItemModel::GetLineCount]. *)
Definition GetLineCount (m : IsaItemModel) : Z :=
  to_int (Z.of_nat (length (line_number_corresponding_indices_ m))).

(** [IsaItemModel::GetLineNumberModelIndex]. *)
Definition GetLineNumberModelIndex (m : IsaItemModel) (line_number : Z) : Result QModelIndex :=
  if ((line_number <? 0)
      || (to_int (Z.of_nat (length (line_number_corresponding_indices_ m))) <=? line_number))%Z
  then Returns QModelIndex_invalid
  else
    row_pair ← vector_at (line_number_corresponding_indices_ m) line_number;
    let parent_row := row_pair.1 in
    let child_row := row_pair.2 in
    parent_index ← index m (to_int parent_row) 0 QModelIndex_invalid;
    index m (to_int child_row) 0 parent_index.

(** ** The branch queries of [IsaItemModel::data] *)

(** [data(index, kBranchIndexRole)]: for a block label, the branch
    instructions that target it; for the operands of a branch instruction,
    the label it targets. *)
Definition data_kBranchIndexRole (m : IsaItemModel) (idx : QModelIndex)
    : Result (list QModelIndex) :=
  if (column idx =? kOpCode)%Z then
    parent_index ← parent m idx;
    if negb (isValid parent_index) then
      block ← vector_at (blocks_ m) (row idx);
      match block with
      | InstructionBlock _ _ _ _ mapped =>
          mapM (fun mapped_branch_instruction : Z * Z =>
                  let label_code_block_index := to_int mapped_branch_instruction.1 in
                  let label_instruction_index := to_int mapped_branch_instruction.2 in
                  block_index ← index m label_code_block_index 0 QModelIndex_invalid;
                  index m label_instruction_index 0 block_index)
               mapped
      | CommentBlock _ _ _ _ => Returns []
      end
    else Returns []
  else if (column idx =? kOperands)%Z then
    parent_index ← parent m idx;
    if isValid parent_index then
      block ← vector_at (blocks_ m) (row parent_index);
      r ← vector_at (instruction_lines block) (row idx);
      match r with
      | InstructionRow _ _ ((token :: _) :: _) _ _ _ =>
          if bool_decide (type token = kBranchLabelType)
             && negb (start_register_index token =? -1)%Z
          then
            label_index ← index m (start_register_index token) 0 QModelIndex_invalid;
            Returns [label_index]
          else Returns []
      | _ => Returns []
      end
    else Returns []
  else Returns [].

(** [data(index, kLabelBranchRole)]. *)
Definition data_kLabelBranchRole (m : IsaItemModel) (idx : QModelIndex) : Result bool :=
  parent_index ← parent m idx;
  if negb (isValid parent_index) then
    block ← vector_at (blocks_ m) (row idx);
    match block with
    | InstructionBlock _ _ _ _ mapped => Returns (negb (bool_decide (mapped = [])))
    | CommentBlock _ _ _ _ => Returns false
    end
  else Returns false.

(** ** What the view shows *)

(** [s.c_str()] read as a C string: the characters before the first NUL. *)
Fixpoint c_str (s : string) : string :=
  match s with
  | EmptyString => EmptyString
  | String c s' => if Ascii.eqb c "000"%char then EmptyString else String c (c_str s')
  end.

(** [QVariant], as far as the display role fills it; a [QString] is given
    by the C string it was made from. *)
Inductive QVariant : Type :=
  | QVariant_invalid                 (* QVariant() *)
  | QVariant_int (value : Z)
  | QVariant_QString (text : string).

(** [blocks_.at(parent.row())->instruction_lines.at(index.row())]. *)
Definition instruction_line_at (m : IsaItemModel) (parent_index idx : QModelIndex)
    : Result Row :=
  block ← vector_at (blocks_ m) (row parent_index);
  vector_at (instruction_lines block) (row idx).

(** [data(index, Qt::DisplayRole)]. *)
Definition data_DisplayRole (m : IsaItemModel) (idx : QModelIndex) : Result QVariant :=
  parent_index ← parent m idx;
  if (column idx =? kLineNumber)%Z then
    if negb (isValid parent_index) then
      block ← vector_at (blocks_ m) (row idx);
      Returns (QVariant_int (to_int (Block_line_number block)))
    else
      instruction ← instruction_line_at m parent_index idx;
      Returns (QVariant_int (to_int (Row_line_number instruction)))
  else if (column idx =? kOpCode)%Z then
    if negb (isValid parent_index) then
      block ← vector_at (blocks_ m) (row idx);
      match block with
      | CommentBlock _ _ _ text => Returns (QVariant_QString (c_str text))
      | InstructionBlock _ _ _ token _ => Returns (QVariant_QString (c_str (token_text token)))
      end
    else
      instruction ← instruction_line_at m parent_index idx;
      match instruction with
      | InstructionRow _ op_code_token _ _ _ _ =>
          Returns (QVariant_QString (c_str (token_text op_code_token)))
      | CommentRow _ text => Returns (QVariant_QString (c_str text))
      end
  else if (column idx =? kOperands)%Z then
    if isValid parent_index then
      instruction ← instruction_line_at m parent_index idx;
      match instruction with
      | InstructionRow _ _ operand_tokens _ _ _ =>
          Returns (QVariant_QString (c_str (join_operands operand_tokens)))
      | CommentRow _ _ => Returns QVariant_invalid
      end
    else Returns QVariant_invalid
  else if (column idx =? kPcAddress)%Z then
    if isValid parent_index then
      instruction ← instruction_line_at m parent_index idx;
      match instruction with
      | InstructionRow _ _ _ pc_address _ _ => Returns (QVariant_QString (c_str pc_address))
      | CommentRow _ _ => Returns QVariant_invalid
      end
    else Returns QVariant_invalid
  else if (column idx =? kBinaryRepresentation)%Z then
    if isValid parent_index then
      instruction ← instruction_line_at m parent_index idx;
      match instruction with
      | InstructionRow _ _ _ _ binary_representation _ =>
          Returns (QVariant_QString (c_str binary_representation))
      | CommentRow _ _ => Returns QVariant_invalid
      end
    else Returns QVariant_invalid
  else Returns QVariant_invalid.

(** * Specification-side definitions *)

(** ** Token texts *)

(** A run of decimal digits (possibly empty). *)
Fixpoint all_digits (s : string) : bool :=
  match s with
  | EmptyString => true
  | String c s' => StdString.isdigit c && all_digits s'
  end.

(** The test applied to each pattern, with the match and the size taken
    from the same token. *)
Definition full_match (r : Regex) (token : string) : bool :=
  exact_match (QRegularExpression_match r token) (to_int (StdString.size token)).

(** The value of [is_scalar_register] once the three patterns (plain, start
    of a pair, end of a pair) were tried; likewise for vector registers. *)
Definition is_scalar_register (token : string) : bool :=
  full_match kScalarRegisterExpression token
  || full_match kScalarPairStartRegisterExpression token
  || full_match kScalarPairEndRegisterExpression token.

Definition is_vector_register (token : string) : bool :=
  full_match kVectorRegisterExpression token
  || full_match kVectorPairStartRegisterExpression token
  || full_match kVectorPairEndRegisterExpression token.

(** The token [ClassifyToken] starts from. *)
Definition plain_token (text : string) : Token := {|
  token_text := text;
  type := kTypeCount;
  start_register_index := -1;
  end_register_index := -1;
  x_position_start := (-1)%Q;
  x_position_end := (-1)%Q;
  is_selectable := false
|}.

(** A token as classification leaves it, before hit boxes. *)
Definition classified_token (text : string) (ty : TokenType) (first last : Z)
    (selectable : bool) : Token := {|
  token_text := text;
  type := ty;
  start_register_index := first;
  end_register_index := last;
  x_position_start := (-1)%Q;
  x_position_end := (-1)%Q;
  is_selectable := selectable
|}.

(** The text [-s<digits>] or [s<digits>]. *)
Definition scalar_register_text (negated : bool) (digits : string) : string :=
  (if negated then "-" else EmptyString) +:+ String "s"%char digits.

(** The text [x[<first>:<last>]] for a register letter [x]. *)
Definition register_range_text (x : ascii) (first last : string) : string :=
  String x (String "["%char (first +:+ String ":"%char (last +:+ "]"))).

(** Two tokens that differ in their hit box only. *)
Definition same_classification (t t' : Token) : Prop :=
  token_text t = token_text t' ∧ type t = type t'
  ∧ start_register_index t = start_register_index t'
  ∧ end_register_index t = end_register_index t'
  ∧ is_selectable t = is_selectable t'.

(** The characters of [s] all belong to the class [cc]. *)
Fixpoint all_match (cc : CharClass) (s : string) : bool :=
  match s with
  | EmptyString => true
  | String c s' => class_matches cc c && all_match cc s'
  end.

(** The head of [s], if any, is outside the class [cc]. *)
Definition stops_at (cc : CharClass) (s : string) : Prop :=
  match s with
  | EmptyString => True
  | String c _ => class_matches cc c = false
  end.

(** The single-register branch of [ClassifyToken]. *)
Definition single_register_token (token : string) (scalar : bool) : Result Token :=
  let register_character_position := StdString.find token (if scalar then "s" else "v") in
  let register_string :=
    StdString.substr token
      (match register_character_position with Some p => p + 1 | None => 0 end) in
  match register_string with
  | String front _ =>
      if StdString.isdigit front then
        register_number ← StdString.stoi register_string;
        Returns (classified_token token
                   (if scalar then kScalarRegisterType else kVectorRegisterType)
                   register_number (-1) true)
      else Returns (plain_token token)
  | EmptyString => Returns (plain_token token)
  end.

(** The register-range branch of [ClassifyToken]. *)
Definition register_range_token (token : string) (scalar : bool) : Result Token :=
  register_indices ← Split (StdString.substr (StdString.pop_back token) 2) ":";
  match register_indices with
  | index0 :: index1 :: _ =>
      register_start ← StdString.stoi index0;
      register_end ← StdString.stoi index1;
      Returns (classified_token token
                 (if scalar then kScalarRegisterType else kVectorRegisterType)
                 register_start register_end true)
  | _ => Raises undefined_behaviour
  end.

(** The tokens of one operand, before hit boxes: the words of the operand,
    classified one by one. *)
Definition classify_operand (is_branch_instruction : bool) (operand : string)
    : Result (list Token) :=
  tokens ← Split operand " ";
  mapM (ClassifyToken is_branch_instruction) tokens.

Definition classify_operands (is_branch_instruction : bool) (operands : list string)
    : Result (list (list Token)) :=
  mapM (classify_operand is_branch_instruction) operands.

(** The op code token [ParseSelectableTokens] leaves. *)
Definition parsed_op_code_token (op_code : string) (op_code_token : Token)
    (fixed_character_width : Q) : Token := {|
  token_text := op_code;
  type := kTypeCount;
  start_register_index := start_register_index op_code_token;
  end_register_index := end_register_index op_code_token;
  x_position_start :=
    (fixed_character_width * inject_Z (StdString.size kOpCodeColumnIndent))%Q;
  x_position_end :=
    (fixed_character_width * inject_Z (StdString.size kOpCodeColumnIndent)
     + fixed_character_width * inject_Z (StdString.size op_code))%Q;
  is_selectable := true
|}.

(** ** The branch mapping, in closed form *)

(** The block index a branch row resolves to, if any. *)
Definition row_target (labels : gmap string Z) (r : Row) : option Z :=
  branch_target_text r ≫= (labels !!.).

(** The position in [blocks_] that [blocks_.at(target)] reads. *)
Definition target_slot (target : Z) : nat := Z.to_nat (to_size_t target).

(** [blocks_.at(target)] is there and is an instruction block. *)
Definition valid_target (blocks : list Block) (target : Z) : bool :=
  match vector_at (Block_row_type <$> blocks) target with
  | Returns kCode => true
  | _ => false
  end.

(** A row once the pass went over it. *)
Definition resolve_row (labels : gmap string Z) (r : Row) : Row :=
  match row_target labels r with
  | Some target => set_branch_target target r
  | None => r
  end.

(** The entry that row [instruction_index] of block [block_index] adds to
    the block at position [k]. *)
Definition row_entry (labels : gmap string Z) (block_index k instruction_index : nat)
    (r : Row) : option (Z * Z) :=
  match row_target labels r with
  | Some target =>
      if decide (target_slot target = k)
      then Some (to_uint32 (Z.of_nat block_index), to_uint32 (Z.of_nat instruction_index))
      else None
  | None => None
  end.

Definition rows_entries (labels : gmap string Z) (block_index k : nat) (rows : list Row)
    : list (Z * Z) :=
  omap id (imap (row_entry labels block_index k) rows).

Definition block_entries (labels : gmap string Z) (k block_index : nat) (b : Block)
    : list (Z * Z) :=
  match b with
  | CommentBlock _ _ _ _ => []
  | InstructionBlock _ _ rows _ _ => rows_entries labels block_index k rows
  end.

(** The back references of the block at position [k], in the order the pass
    adds them: block by block, row by row. *)
Definition blocks_entries (labels : gmap string Z) (k : nat) (blocks : list Block)
    : list (Z * Z) :=
  concat (imap (block_entries labels k) blocks).

Definition add_entries (entries : list (Z * Z)) (b : Block) : Block :=
  match b with
  | CommentBlock _ _ _ _ => b
  | InstructionBlock p l rows tok mapped => InstructionBlock p l rows tok (mapped ++ entries)
  end.

Definition set_rows (rows : list Row) (b : Block) : Block :=
  match b with
  | CommentBlock p l _ text => CommentBlock p l rows text
  | InstructionBlock p l _ tok mapped => InstructionBlock p l rows tok mapped
  end.

(** The rows of a comment block are never visited. *)
Definition resolve_block (labels : gmap string Z) (b : Block) : Block :=
  match b with
  | CommentBlock _ _ _ _ => b
  | InstructionBlock p l rows tok mapped =>
      InstructionBlock p l (resolve_row labels <$> rows) tok mapped
  end.

(** The blocks after the first [n] rows of block [block_index] were visited,
    starting from [blocks]. *)
Definition inner_form (labels : gmap string Z) (block_index : nat) (rows : list Row) (n : nat)
    (blocks : list Block) : list Block :=
  imap (fun k b =>
          add_entries (rows_entries labels block_index k (take n rows))
            (if decide (k = block_index)
             then set_rows ((resolve_row labels <$> take n rows) ++ drop n rows) b
             else b))
       blocks.

(** The blocks after the first [n] blocks were visited. *)
Definition outer_form (labels : gmap string Z) (n : nat) (blocks : list Block) : list Block :=
  imap (fun k b =>
          add_entries (blocks_entries labels k (take n blocks))
            (if decide (k < n) then resolve_block labels b else b))
       blocks.

(** Every branch that finds its label finds an instruction block there. *)
Definition rows_valid (labels : gmap string Z) (blocks : list Block) (rows : list Row) : Prop :=
  Forall (fun r => ∀ target, row_target labels r = Some target ->
                             valid_target blocks target = true) rows.

Definition block_valid (labels : gmap string Z) (blocks : list Block) (b : Block) : Prop :=
  match b with
  | CommentBlock _ _ _ _ => True
  | InstructionBlock _ _ rows _ _ => rows_valid labels blocks rows
  end.

Definition targets_valid (labels : gmap string Z) (blocks : list Block) : Prop :=
  Forall (block_valid labels blocks) blocks.

(** The blocks [MapBlocksToBranchInstructions] leaves. *)
Definition mapped_block (labels : gmap string Z) (blocks : list Block) (k : nat) (b : Block)
    : Block :=
  match b with
  | CommentBlock _ _ _ _ => b
  | InstructionBlock p l rows tok _ =>
      InstructionBlock p l (resolve_row labels <$> rows) tok (blocks_entries labels k blocks)
  end.

Definition mapped_blocks (blocks : list Block) : list Block :=
  imap (mapped_block (build_label_map blocks) blocks) blocks.

(** The invariant of a loaded document: a block's [position] is its index
    in [blocks_], and the row counts fit the [int] that Qt's models use. *)
Record well_formed (m : IsaItemModel) : Prop := {
  wf_position : ∀ k b, blocks_ m !! k = Some b -> Block_position b = Z.of_nat k;
  wf_blocks : (Z.of_nat (length (blocks_ m)) <= INT_MAX)%Z;
  wf_rows : ∀ k b, blocks_ m !! k = Some b ->
                   (Z.of_nat (length (instruction_lines b)) <= INT_MAX)%Z
}.

(** The label of a code block; a comment block has none. *)
Definition block_label (b : Block) : option string :=
  match b with
  | CommentBlock _ _ _ _ => None
  | InstructionBlock _ _ _ tok _ => Some (token_text tok)
  end.

(** Row [r] of block [b], when [b] is an instruction block: the rows the
    pass visits. *)
Definition code_row (blocks : list Block) (b r : nat) : option Row :=
  match blocks !! b with
  | Some (InstructionBlock _ _ rows _ _) => rows !! r
  | _ => None
  end.

(** The resolved target of a row: [start_register_index] of the first token
    of its first operand group. *)
Definition resolved_target_index (r : Row) : option Z :=
  match r with
  | InstructionRow _ _ ((t :: _) :: _) _ _ _ => Some (start_register_index t)
  | _ => None
  end.

(** The back references of the block at position [k]. *)
Definition back_references (m : IsaItemModel) (k : nat) : list (Z * Z) :=
  default [] (mapped_branch_instructions <$> blocks_ m !! k).

(** The entry a branch at row [r] of block [b] leaves in its target. *)
Definition branch_entry (b r : nat) : Z * Z :=
  (to_uint32 (Z.of_nat b), to_uint32 (Z.of_nat r)).

(** The document with row [r] of block [b] replaced by [new]. *)
Definition replace_row (b r : nat) (new : Row) (m : IsaItemModel) : IsaItemModel :=
  set_blocks (alter (alter_instruction_line (fun _ => new) r) b (blocks_ m))
    (code_block_label_to_index_ m) m.

(** The model index of the operands column of row [r] of block [b]. *)
Definition operands_index (b r : nat) : QModelIndex :=
  createIndex (Z.of_nat r) kOperands (Some b).

(** ** The lines of a document *)

(** A line of the document: the header of block [i], or row [r] of block [i]. *)
Definition Line : Type := nat * option nat.

Definition block_lines (i : nat) (b : Block) : list Line :=
  (i, None) :: ((fun r => (i, Some r)) <$> seq 0 (length (instruction_lines b))).

(** The lines of the blocks, the first of which is block [i], in the order
    of the document. *)
Fixpoint lines_from (i : nat) (blocks : list Block) : list Line :=
  match blocks with
  | [] => []
  | b :: blocks' => block_lines i b ++ lines_from (S i) blocks'
  end.

Definition document_lines (m : IsaItemModel) : list Line := lines_from 0 (blocks_ m).

(** The number of lines: one per block and one per row. *)
Definition line_total (m : IsaItemModel) : nat :=
  length (blocks_ m) + sum_list ((fun b => length (instruction_lines b)) <$> blocks_ m).

(** The model index of a line: a top-level index for a header, a child
    index that points to its block for a row. *)
Definition line_index (line : Line) : QModelIndex :=
  match line with
  | (i, None) => createIndex (Z.of_nat i) 0 None
  | (i, Some r) => createIndex (Z.of_nat r) 0 (Some i)
  end.

(** The pair [CacheSizeHints] stores for a line. *)
Definition line_pair (line : Line) : Z * Z :=
  match line with
  | (i, None) => (to_uint32 (-1), to_uint32 (Z.of_nat i))
  | (i, Some r) => (to_uint32 (Z.of_nat i), to_uint32 (Z.of_nat r))
  end.

(** No character of [s] is one of those [TrimStr] removes (so [s] holds no
    space either). *)
Fixpoint no_special (s : string) : bool :=
  match s with
  | EmptyString => true
  | String c s' => negb (StdString.is_special c) && no_special s'
  end.

(** ** Sample documents *)

(** The operand token of a branch, as [ParseSelectableTokens] leaves it
    (hit box apart). *)
Definition branch_operand (target : string) : Token :=
  classified_token target kBranchLabelType (-1) (-1) false.

(** An instruction with one operand of one word. *)
Definition branch_row (line : Z) (op_code target : string) : Row :=
  InstructionRow line (parsed_op_code_token op_code Token_Clear 1)
    [[branch_operand target]] "0x000000" "BF820000" true.

(** A code block with its label token and no back reference yet. *)
Definition code_block (position line : Z) (label : string) (rows : list Row) : Block :=
  match InstructionBlock_new 1 position line label with
  | InstructionBlock p l _ tok mapped => InstructionBlock p l rows tok mapped
  | b => b
  end.

Definition model_of (blocks : list Block) : IsaItemModel := {|
  blocks_ := blocks;
  code_block_label_to_index_ := ∅;
  fixed_font_character_width_ := 1;
  line_numbers_visible_ := true;
  column_widths_ := [0; 0; 0; 0; 0]%Z;
  line_number_corresponding_indices_ := []
|}.

(** [label0:] followed by [label1: s_branch label0]. *)
Definition single_branch_document : IsaItemModel :=
  model_of [code_block 0 0 "label0" [];
            code_block 1 1 "label1" [branch_row 2 "s_branch" "label0"]].

(** Two blocks called [loop]; the first one branches to [loop]. *)
Definition duplicate_label_document : IsaItemModel :=
  model_of [code_block 0 0 "loop" [branch_row 1 "s_cbranch_scc0" "loop"];
            code_block 1 2 "loop" [CommentRow 3 "; second"]].

(** A branch to a label no block carries. *)
Definition unresolved_branch_document : IsaItemModel :=
  model_of [code_block 0 0 "label0" [branch_row 1 "s_branch" "label_missing"];
            CommentBlock 1 2 [] "; end"].

(** An op code that holds [s_branch] in its middle. *)
Definition contained_branch_document : IsaItemModel :=
  model_of [code_block 0 0 "label0" [branch_row 1 "xs_branchy" "label0"]].

(** ** Branch operands *)

(** [pat] occurs somewhere in [s]. *)
Definition occurs_in (pat s : string) : Prop := ∃ pre post, s = pre +:+ pat +:+ post.

(** [t] is the token of the word [word] of a branch instruction: the word as
    its text, typed as a branch label, not selectable, no index. *)
Definition branch_label_token (word : string) (t : Token) : Prop :=
  token_text t = word ∧ type t = kBranchLabelType ∧ is_selectable t = false
  ∧ start_register_index t = (-1)%Z ∧ end_register_index t = (-1)%Z.

(** ** More specification-side definitions *)

(** [s] neither starts nor ends with a character that [TrimStr] removes. *)
Definition trimmed (s : string) : Prop :=
  match s with
  | EmptyString => True
  | String c _ => StdString.is_special c = false
  end
  ∧ StdString.erase_trailing s = s.

(** The words joined by the one-character delimiter [d]. *)
Fixpoint join_words (d : ascii) (words : list string) : string :=
  match words with
  | [] => EmptyString
  | [word] => word
  | word :: rest => word +:+ String d (join_words d rest)
  end.

(** No character of [s] is [d]. *)
Fixpoint free_of (d : ascii) (s : string) : bool :=
  match s with
  | EmptyString => true
  | String c s' => negb (Ascii.eqb d c) && free_of d s'
  end.

(** ** Hit boxes *)

(** The character width [k / 2^j].  A font's advance is such a number (a
    multiple of 1/64 of a pixel, say); sums and products of such numbers
    with text lengths are exact in double precision as long as their
    numerators stay below 2^53, which is where the exact arithmetic of the
    model and the [qreal] arithmetic of the code give the same values. *)
Definition dyadic (k : Z) (j : nat) : Q := (k # Z.to_pos (2 ^ Z.of_nat j)).

(** The characters that the operands of a row take when they are laid out:
    their texts and a delimiter of two characters each. *)
Definition text_extent (operands : list string) : Z :=
  Z.of_nat (sum_list_with (fun operand => String.length operand + 2) operands).

(** The width of a token's text in a font whose characters are [w] wide. *)
Definition box_width (w : Q) (t : Token) : Q :=
  (w * inject_Z (StdString.size (token_text t)))%Q.

(** The tokens of one operand, laid out from [x] on: each box is as wide as
    its text and the next one starts one character further. *)
Fixpoint group_laid_out (w x : Q) (g : list Token) : Prop :=
  match g with
  | [] => True
  | t :: g' =>
      x_position_start t = x
      ∧ x_position_end t = (x + box_width w t)%Q
      ∧ group_laid_out w (x + box_width w t + w)%Q g'
  end.

(** Where the last box of a group laid out from [x] ends. *)
Fixpoint group_end (w x : Q) (g : list Token) : Q :=
  match g with
  | [] => x
  | [t] => (x + box_width w t)%Q
  | t :: g' => group_end w (x + box_width w t + w)%Q g'
  end.

(** The groups of a row: the next group starts two characters (the
    delimiter) after the end of the one before. *)
Fixpoint groups_laid_out (w x : Q) (groups : list (list Token)) : Prop :=
  match groups with
  | [] => True
  | g :: groups' =>
      group_laid_out w x g
      ∧ groups_laid_out w (group_end w x g + w * inject_Z 2)%Q groups'
  end.

(** ** Constants *)

(** Text of 7-bit characters other than NUL: the text that
    [QString(token.c_str())] holds character for character, so that the
    offsets of a match are offsets into the token. *)
Fixpoint seven_bit (s : string) : bool :=
  match s with
  | EmptyString => true
  | String c s' =>
      (0 <? nat_of_ascii c) && (nat_of_ascii c <? 128) && seven_bit s'
  end.

(** The texts of the form -?[0-9].* with no line feed: an optional minus
    sign, a decimal digit, then anything on the same line. *)
Definition constant_text (token : string) : bool :=
  match token with
  | String "-"%char (String d rest) => StdString.isdigit d && free_of "010"%char rest
  | String d rest => StdString.isdigit d && free_of "010"%char rest
  | EmptyString => false
  end.

(** ** Branch rows *)

(** The first token of the first operand group of an instruction. *)
Definition first_operand_token (r : Row) : option Token :=
  match r with
  | InstructionRow _ _ ((t :: _) :: _) _ _ _ => Some t
  | _ => None
  end.

(** The model index of the label of block [k], in the op code column. *)
Definition label_index (k : nat) : QModelIndex := createIndex (Z.of_nat k) kOpCode None.

(** The model index of the row a back reference names. *)
Definition back_reference_index (e : Z * Z) : QModelIndex :=
  createIndex e.2 0 (Some (Z.to_nat e.1)).

(** A block that says it sits at position 7 of a document of one block, and
    branches to itself. *)
Definition misplaced_block_document : IsaItemModel :=
  model_of [code_block 7 0 "loop" [branch_row 1 "s_branch" "loop"]].

(** ** Column widths *)

(** The text [CacheSizeHints] measures in column [c] of a row; comments are
    not measured. *)
Definition cell_text (c : Z) (r : Row) : option string :=
  match r with
  | CommentRow _ _ => None
  | InstructionRow _ op operands pc bin _ =>
      if (c =? kPcAddress)%Z then Some pc
      else if (c =? kOpCode)%Z then Some (token_text op)
      else if (c =? kOperands)%Z then Some (join_operands operands)
      else if (c =? kBinaryRepresentation)%Z then Some bin
      else None
  end.

(** What a column adds to its longest text: the padding, and the indent of
    the op code column. *)
Definition column_extra (c : Z) : Z :=
  if (c =? kOpCode)%Z
  then (StdString.size kColumnPadding + StdString.size kOpCodeColumnIndent)%Z
  else StdString.size kColumnPadding.

(** The running maximum of column [c]. *)
Definition column_length (c : Z) (lens : MaxLengths) : Z :=
  if (c =? kPcAddress)%Z then max_pc_address_length lens
  else if (c =? kOpCode)%Z then max_op_code_length lens
  else if (c =? kOperands)%Z then max_operand_length lens
  else max_binary_representation_length lens.

(** All the rows of a document, block after block. *)
Definition all_rows (blocks : list Block) : list Row := concat (instruction_lines <$> blocks).

(** ** The text of the operands *)

(** The strings joined by the separator [d]. *)
Fixpoint join_with (d : string) (l : list string) : string :=
  match l with
  | [] => EmptyString
  | [x] => x
  | x :: rest => x +:+ d +:+ join_with d rest
  end.

(** An operand written with single spaces: its words, which hold no space
    and no white space at either end, joined by one space each. *)
Definition single_spaced (operand : string) (words : list string) : Prop :=
  operand = join_words " " words
  ∧ words ≠ []
  ∧ Forall (fun w => free_of " " w = true ∧ trimmed w) words.

(** A branch whose label no block carries, with a token that still holds
    block 0 as its target. *)
Definition stale_branch_document : IsaItemModel :=
  model_of [code_block 0 0 "label0" [];
            code_block 1 1 "label1"
              [InstructionRow 2 (parsed_op_code_token "s_branch" Token_Clear 1)
                 [[classified_token "label_gone" kBranchLabelType 0 (-1) false]]
                 "0x000000" "BF820000" true]].

(** ** Decorated registers *)

(** A single register on its own, or as the first or the last word of a
    bracketed pair such as [[s0, s1]]. *)
Inductive RegisterForm : Type := Alone | PairStart | PairEnd.

(** The text of register [x<digits>], negated and within bars or not, in
    the given form: [v3], [-s0], [|v1|], [-|s2|], [[s4], [s5]], ... *)
Definition decorated_register (form : RegisterForm) (negated absolute : bool) (x : ascii)
    (digits : string) : string :=
  (match form with PairStart => "[" | _ => EmptyString end)
  +:+ (if negated then "-" else EmptyString)
  +:+ (if absolute then "|" else EmptyString)
  +:+ String x (digits
                +:+ (if absolute then "|" else EmptyString)
                +:+ (match form with PairEnd => "]" | _ => EmptyString end)).

(** The pattern that recognises a form. *)
Definition form_pattern (form : RegisterForm) (x : ascii) : Regex :=
  match form with
  | Alone => register_pattern x
  | PairStart => Cat (One (Lit "["%char)) (register_pattern x)
  | PairEnd => Cat (register_pattern x) (One (Lit "]"%char))
  end.

(** ** What the pass leaves alone *)

(** [r'] is [r], but for the target held by its first operand token. *)
Definition same_row_but_target (r r' : Row) : Prop :=
  r' = r ∨ ∃ target, r' = set_branch_target target r.

(** [b'] is [b], but for the targets held by its rows and for its back
    references. *)
Definition same_block_but_branches (b b' : Block) : Prop :=
  match b, b' with
  | CommentBlock _ _ _ _, _ => b' = b
  | InstructionBlock p l rows tok _, InstructionBlock p' l' rows' tok' _ =>
      p' = p ∧ l' = l ∧ tok' = tok ∧ Forall2 same_row_but_target rows rows'
  | InstructionBlock _ _ _ _ _, CommentBlock _ _ _ _ => False
  end.

(** * Strings, [stoi] and [Split] *)

#[local] Arguments String.append !s1 s2 : simpl nomatch.

Lemma Result_bind_Returns {A B : Type} (f : A -> Result B) (a : A) :
  (Returns a ≫= f) = f a.
Proof. reflexivity. Qed.

Lemma to_int_small (z : Z) : (INT_MIN <= z <= INT_MAX)%Z -> to_int z = z.
Proof.
  unfold to_int, INT_MIN, INT_MAX. intros Hz.
  rewrite Z.mod_small; lia.
Qed.

Lemma to_uint32_small (z : Z) : (0 <= z < 4294967296)%Z -> to_uint32 z = z.
Proof. unfold to_uint32. intros Hz. apply Z.mod_small; lia. Qed.

Lemma to_size_t_small (z : Z) : (0 <= z < 18446744073709551616)%Z -> to_size_t z = z.
Proof. unfold to_size_t. intros Hz. apply Z.mod_small; lia. Qed.

Lemma string_app_nil_r (s : string) : s +:+ EmptyString = s.
Proof. induction s as [|c s IH]; simpl; congruence. Qed.

Lemma string_app_assoc (s1 s2 s3 : string) : (s1 +:+ s2) +:+ s3 = s1 +:+ s2 +:+ s3.
Proof. induction s1 as [|c s1 IH]; simpl; congruence. Qed.

Lemma string_length_app (s1 s2 : string) :
  String.length (s1 +:+ s2) = String.length s1 + String.length s2.
Proof. induction s1 as [|c s1 IH]; simpl; congruence. Qed.

Lemma prefix_app (p r : string) : String.prefix p (p +:+ r) = true.
Proof.
  induction p as [|c p IH]; simpl.
  - by destruct r.
  - destruct (ascii_dec c c); [done | congruence].
Qed.

Lemma prefix_length (p s : string) :
  String.prefix p s = true -> String.length p <= String.length s.
Proof.
  revert p. induction s as [|c s IH]; intros [|d p]; simpl; try done; try lia.
  destruct (ascii_dec d c); [|done]. intros H. apply IH in H. lia.
Qed.

Lemma substr_length (s : string) (n : nat) :
  String.length (StdString.substr s n) = String.length s - n.
Proof.
  revert s. induction n as [|n IH]; intros [|c s]; simpl; auto.
Qed.

Lemma substr_app (s r : string) : StdString.substr (s +:+ r) (String.length s) = r.
Proof. induction s as [|c s IH]; simpl; [by destruct r | done]. Qed.

Lemma substr0_app (s r : string) : StdString.substr0 (s +:+ r) (String.length s) = s.
Proof.
  induction s as [|c s IH]; simpl.
  - by destruct r.
  - by rewrite IH.
Qed.

Lemma find_from_bound (s pat : string) (n k : nat) :
  StdString.find_from s pat n = Some k ->
  n <= k ∧ (k - n) + String.length pat <= String.length s.
Proof.
  revert n. induction s as [|c s IH]; intros n.
  - destruct pat; simpl; [|done]. intros [= <-]. simpl. lia.
  - cbn [StdString.find_from]. destruct (String.prefix pat (String c s)) eqn:Hp.
    + intros [= <-]. apply prefix_length in Hp. simpl in *. lia.
    + intros H. apply IH in H. simpl. lia.
Qed.

(** A string that contains [pat] is one in which [find] succeeds. *)
Lemma find_from_contains (pre pat post : string) (n : nat) :
  StdString.find_from (pre +:+ pat +:+ post) pat n ≠ None.
Proof.
  revert n. induction pre as [|c pre IH]; intros n.
  - change (EmptyString +:+ pat +:+ post) with (pat +:+ post).
    pose proof (prefix_app pat post) as Hp.
    destruct (pat +:+ post); cbn [StdString.find_from]; by rewrite Hp.
  - change (String c pre +:+ pat +:+ post) with (String c (pre +:+ pat +:+ post)).
    cbn [StdString.find_from]. destruct (String.prefix pat _); [done | apply IH].
Qed.

(** Conversely, where [find] succeeds the pattern occurs. *)
Lemma prefix_split (pat s : string) :
  String.prefix pat s = true -> s = pat +:+ StdString.substr s (String.length pat).
Proof.
  revert s. induction pat as [|d pat IH]; intros s; simpl.
  - by destruct s.
  - destruct s as [|e s]; simpl; [done|].
    destruct (ascii_dec d e) as [->|]; [|done]. intros H. f_equal. by apply IH.
Qed.

Lemma find_from_occurs (s pat : string) (n k : nat) :
  StdString.find_from s pat n = Some k ->
  ∃ pre post, s = pre +:+ pat +:+ post ∧ String.length pre = k - n.
Proof.
  revert n. induction s as [|c s IH]; intros n.
  - destruct pat; simpl; [|done]. intros [= <-].
    exists EmptyString, EmptyString. split; [done | simpl; lia].
  - cbn [StdString.find_from]. destruct (String.prefix pat (String c s)) eqn:Hp.
    + intros [= <-]. exists EmptyString.
      exists (StdString.substr (String c s) (String.length pat)).
      split; [by apply prefix_split | simpl; lia].
    + intros H. pose proof (find_from_bound _ _ _ _ H) as [Hle _].
      apply IH in H as (pre & post & -> & Hlen).
      exists (String c pre), post. split; [done | simpl; lia].
Qed.

Lemma is_branch_op_code_contains (pre post : string) :
  is_branch_op_code (pre +:+ kUnconditionalBranchString +:+ post) = true
  ∧ is_branch_op_code (pre +:+ kConditionalBranchString +:+ post) = true.
Proof.
  unfold is_branch_op_code, StdString.find. split.
  - rewrite bool_decide_eq_true_2; [done | apply find_from_contains].
  - rewrite (bool_decide_eq_true_2 (StdString.find_from _ kConditionalBranchString 0 ≠ None));
      [apply orb_true_r | apply find_from_contains].
Qed.

(** ** Digits *)

Lemma isdigit_inv (c : ascii) :
  StdString.isdigit c = true ->
  c ∈ ["0"; "1"; "2"; "3"; "4"; "5"; "6"; "7"; "8"; "9"]%char.
Proof.
  destruct c as [[] [] [] [] [] [] [] []]; cbv; try discriminate; intros _;
    repeat (first [apply list_elem_of_here | apply list_elem_of_further]).
Qed.

Lemma isdigit_not_special (c : ascii) :
  StdString.isdigit c = true -> StdString.is_special c = false.
Proof. destruct c as [[] [] [] [] [] [] [] []]; cbv; congruence. Qed.

Lemma isdigit_not_colon (c : ascii) :
  StdString.isdigit c = true -> c ≠ ":"%char.
Proof. intros H ->. discriminate H. Qed.

Lemma digit_value_bounds (c : ascii) : (0 <= StdString.digit_value c <= 9)%Z.
Proof. destruct c as [[] [] [] [] [] [] [] []]; cbv; split; congruence. Qed.

Lemma all_digits_all_match (s : string) : all_digits s = all_match Digit09 s.
Proof. induction s as [|c s IH]; simpl; congruence. Qed.

Lemma all_digits_app (a b : string) :
  all_digits (a +:+ b) = all_digits a && all_digits b.
Proof.
  induction a as [|c a IH]; simpl; [done|]. rewrite IH. by rewrite andb_assoc.
Qed.

Lemma decimal_value_ge (ds : string) (acc : Z) :
  (0 <= acc)%Z -> (acc <= StdString.decimal_value acc ds)%Z.
Proof.
  revert acc. induction ds as [|c ds IH]; intros acc Hacc; simpl; [lia|].
  pose proof (digit_value_bounds c).
  etransitivity; [|apply IH]; lia.
Qed.

Lemma span_digits_all (ds rest : string) :
  all_digits ds = true -> stops_at Digit09 rest ->
  StdString.span_digits (ds +:+ rest) = (ds, rest).
Proof.
  intros Hds Hrest. induction ds as [|c ds IH]; simpl in *.
  - destruct rest as [|c rest]; simpl in *; [done|]. by rewrite Hrest.
  - apply andb_true_iff in Hds as [Hc Hds]. rewrite Hc, IH; done.
Qed.

Lemma erase_leading_digit (c : ascii) (s : string) :
  StdString.isdigit c = true -> StdString.erase_leading (String c s) = String c s.
Proof. intros H. simpl. by rewrite (isdigit_not_special _ H). Qed.

(** [stoi] on text that starts with a digit: the value of the leading run of
    digits when it fits an [int], [std::out_of_range] otherwise. *)
Lemma stoi_digits (ds rest : string) :
  ds ≠ EmptyString -> all_digits ds = true -> stops_at Digit09 rest ->
  StdString.stoi (ds +:+ rest) =
    if (StdString.decimal_value 0 ds <=? INT_MAX)%Z
    then Returns (StdString.decimal_value 0 ds)
    else Raises std_out_of_range.
Proof.
  intros Hne Hds Hrest. destruct ds as [|c ds]; [done|].
  pose proof Hds as Hall. simpl in Hds. apply andb_true_iff in Hds as [Hc Hds].
  unfold StdString.stoi.
  change (String c ds +:+ rest) with (String c (ds +:+ rest)).
  rewrite (erase_leading_digit _ _ Hc).
  assert (Hsign : (match String c (ds +:+ rest) with
                   | String "-"%char r => (true, r)
                   | String "+"%char r => (false, r)
                   | _ => (false, String c (ds +:+ rest))
                   end) = (false, String c (ds +:+ rest))).
  { apply isdigit_inv in Hc. set_unfold.
    destruct Hc as [->|[->|[->|[->|[->|[->|[->|[->|[->|[->|[]]]]]]]]]]]; reflexivity. }
  rewrite Hsign.
  change (String c (ds +:+ rest)) with (String c ds +:+ rest).
  rewrite (span_digits_all _ _ Hall Hrest).
  pose proof (decimal_value_ge (String c ds) 0 ltac:(lia)) as Hge.
  assert (Hmin : (INT_MIN <=? StdString.decimal_value 0 (String c ds))%Z = true).
  { apply Z.leb_le. unfold INT_MIN. lia. }
  cbv zeta. rewrite Hmin. reflexivity.
Qed.

(** ** [TrimStr] and [Split] *)

Lemma erase_trailing_digits (ds : string) :
  all_digits ds = true -> StdString.erase_trailing ds = ds.
Proof.
  induction ds as [|c ds IH]; simpl; [done|].
  intros [Hc Hds]%andb_true_iff. rewrite (IH Hds).
  destruct ds; [by rewrite (isdigit_not_special _ Hc) | done].
Qed.

Lemma TrimStr_digits (ds : string) : all_digits ds = true -> TrimStr ds = ds.
Proof.
  intros Hds. unfold TrimStr. rewrite (erase_trailing_digits _ Hds).
  destruct ds as [|c ds]; [done|]. simpl in Hds.
  apply andb_true_iff in Hds as [Hc _]. by apply erase_leading_digit.
Qed.

Lemma find_colon_digits (ds rest : string) (n : nat) :
  all_digits ds = true ->
  StdString.find_from (ds +:+ String ":"%char rest) ":" n = Some (n + String.length ds).
Proof.
  revert n. induction ds as [|c ds IH]; intros n Hds.
  - change (EmptyString +:+ String ":"%char rest) with (String ":"%char rest).
    cbn [StdString.find_from String.prefix].
    destruct (ascii_dec ":" ":"); [|done].
    destruct rest; simpl; f_equal; lia.
  - simpl in Hds. apply andb_true_iff in Hds as [Hc Hds].
    change (String c ds +:+ String ":"%char rest) with (String c (ds +:+ String ":"%char rest)).
    cbn [StdString.find_from String.prefix].
    destruct (ascii_dec ":" c) as [<-|_]; [by apply isdigit_not_colon in Hc|].
    rewrite (IH (S n) Hds). simpl. f_equal. lia.
Qed.

Lemma find_colon_none (ds : string) (n : nat) :
  all_digits ds = true -> StdString.find_from ds ":" n = None.
Proof.
  revert n. induction ds as [|c ds IH]; intros n Hds; [done|].
  simpl in Hds. apply andb_true_iff in Hds as [Hc Hds].
  cbn [StdString.find_from String.prefix].
  destruct (ascii_dec ":" c) as [<-|_]; [by apply isdigit_not_colon in Hc|].
  by apply IH.
Qed.

(** The two bounds of a register range, as [ParseSelectableTokens] splits them. *)
Lemma Split_range (a b : string) :
  all_digits a = true -> all_digits b = true ->
  Split (a +:+ String ":"%char b) ":" = Returns [a; b].
Proof.
  intros Ha Hb. unfold Split.
  rewrite string_length_app. simpl String.length.
  replace (String.length a + S (String.length b)) with (S (String.length a + String.length b)) by lia.
  cbn [Split_loop]. unfold StdString.find at 1.
  rewrite (find_colon_digits a b 0 Ha). simpl Nat.add.
  rewrite substr0_app.
  replace (String.length a + 1) with (String.length (a +:+ ":")) by (rewrite string_length_app; simpl; lia).
  replace (a +:+ String ":"%char b) with ((a +:+ ":") +:+ b) by (by rewrite string_app_assoc).
  rewrite substr_app.
  assert (Hloop : Split_loop (String.length a + String.length b) b ":" = Returns [TrimStr b]).
  { destruct (String.length a + String.length b); cbn [Split_loop];
      unfold StdString.find; by rewrite (find_colon_none b 0 Hb). }
  rewrite Hloop. simpl. by rewrite !TrimStr_digits.
Qed.

(** With a non-empty delimiter the loop of [Split] ends. *)
Lemma Split_loop_returns (delimiter : string) (fuel : nat) (line : string) :
  delimiter ≠ EmptyString -> String.length line <= fuel ->
  ∃ l, Split_loop fuel line delimiter = Returns l.
Proof.
  intros Hd. revert line. induction fuel as [|fuel IH]; intros line Hlen.
  - destruct line; [|simpl in Hlen; lia].
    destruct delimiter; [done|]. cbn. eauto.
  - cbn [Split_loop]. destruct (StdString.find line delimiter) as [pos|] eqn:Hf; [|eauto].
    apply find_from_bound in Hf as [_ Hf].
    destruct (IH (StdString.substr line (pos + String.length delimiter))) as [l Hl].
    { rewrite substr_length. destruct delimiter; [done|]. simpl in *. lia. }
    rewrite Hl. simpl. eauto.
Qed.

Lemma Split_returns (line delimiter : string) :
  delimiter ≠ EmptyString -> ∃ l, Split line delimiter = Returns l.
Proof. intros Hd. by apply Split_loop_returns. Qed.

(** * The matcher on the patterns of the model *)

(** A greedy repetition takes a whole run of matching characters when the
    rest of the pattern accepts what follows the run. *)
Lemma match_star_greedy (cc : CharClass) (ds rest : string) (pos e : nat)
    (k : string -> nat -> option nat) :
  all_match cc ds = true -> stops_at cc rest ->
  k rest (pos + String.length ds) = Some e ->
  match_star cc (ds +:+ rest) pos k = Some e.
Proof.
  revert pos. induction ds as [|c ds IH]; intros pos Hds Hrest Hk.
  - simpl in Hk. rewrite Nat.add_0_r in Hk.
    change (EmptyString +:+ rest) with rest.
    destruct rest as [|c rest]; simpl in *; [done|]. by rewrite Hrest.
  - simpl in Hds. apply andb_true_iff in Hds as [Hc Hds].
    change (String c ds +:+ rest) with (String c (ds +:+ rest)).
    cbn [match_star]. rewrite Hc.
    rewrite (IH (S pos)); [done..|].
    rewrite <- Hk. f_equal. simpl. lia.
Qed.

(** Whatever a repetition matched is a run of matching characters, and the
    rest of the pattern accepted what follows it. *)
Lemma match_star_inv (cc : CharClass) (s : string) (pos e : nat)
    (k : string -> nat -> option nat) :
  match_star cc s pos k = Some e ->
  ∃ ds rest, s = ds +:+ rest ∧ all_match cc ds = true
             ∧ k rest (pos + String.length ds) = Some e.
Proof.
  revert pos. induction s as [|c s IH]; intros pos H.
  - exists EmptyString, EmptyString. simpl in *. by rewrite Nat.add_0_r.
  - cbn [match_star] in H. destruct (class_matches cc c) eqn:Hc.
    + destruct (match_star cc s (S pos) k) as [e'|] eqn:Hs.
      * injection H as ->. apply IH in Hs as (ds & rest & -> & Hds & Hk).
        exists (String c ds), rest. simpl. rewrite Hc, Hds.
        split_and!; [done..|]. rewrite <- Hk. f_equal. lia.
      * exists EmptyString, (String c s). simpl. by rewrite Nat.add_0_r.
    + exists EmptyString, (String c s). simpl. by rewrite Nat.add_0_r.
Qed.

Lemma search_start_ge (r : Regex) (s : string) (n b e : nat) :
  search r s n = Some (b, e) -> n <= b.
Proof.
  revert n. induction s as [|c s IH]; intros n; cbn [search];
    destruct (match_here r _ n [] _).
  - intros [= <- _]. lia.
  - done.
  - intros [= <- _]. lia.
  - intros H. apply IH in H. lia.
Qed.

(** The test of the model on a token of fewer than 2^31 characters: the
    pattern matches at offset 0 and its match ends with the token. *)
Lemma full_match_spec (r : Regex) (token : string) :
  (Z.of_nat (String.length token) <= INT_MAX)%Z ->
  full_match r token = true
  <-> match_here r token 0 [] (fun _ e _ => Some e) = Some (String.length token).
Proof.
  intros Hlen. unfold full_match, exact_match, QRegularExpression_match, StdString.size.
  rewrite to_int_small by (unfold INT_MIN, INT_MAX in *; lia).
  destruct (search r token 0) as [[b e]|] eqn:Hs; cbn [hasMatch capturedStart capturedEnd].
  - assert (Hcases : (match_here r token 0 [] (fun _ e _ => Some e) = Some e ∧ b = 0)
                     ∨ (match_here r token 0 [] (fun _ e _ => Some e) = None ∧ 1 <= b)).
    { destruct token as [|c token]; cbn [search] in Hs;
        destruct (match_here r _ 0 [] _) as [e'|] eqn:Hm; try done.
      - injection Hs as <- <-. by left.
      - injection Hs as <- <-. by left.
      - apply search_start_ge in Hs. by right. }
    destruct Hcases as [[-> ->]|[-> Hb]].
    + simpl andb. rewrite Z.eqb_eq. split; [intros ?; f_equal; lia | by intros [= ->]].
    + split; [|done]. rewrite !andb_true_iff, Z.eqb_eq. lia.
  - split; [done|]. intros Hm.
    destruct token; cbn [search] in Hs; rewrite Hm in Hs; done.
Qed.

(** No match at offset 0 means the test of the model fails. *)
Lemma full_match_no_match_here (r : Regex) (token : string) :
  match_here r token 0 [] (fun _ e _ => Some e) = None -> full_match r token = false.
Proof.
  intros Hm. unfold full_match, exact_match, QRegularExpression_match.
  destruct (search r token 0) as [[b e]|] eqn:Hs; [|done].
  cbn [hasMatch capturedStart capturedEnd].
  destruct token as [|c token]; cbn [search] in Hs; rewrite Hm in Hs; [done|].
  apply search_start_ge in Hs.
  destruct (Z.eqb_spec (Z.of_nat b) 0); [lia | done].
Qed.

(** ** Single scalar registers *)

Lemma match_star_digits_end (ds : string) (pos e : nat) (k : string -> nat -> option nat) :
  all_digits ds = true -> k EmptyString (pos + String.length ds) = Some e ->
  match_star Digit09 ds pos k = Some e.
Proof.
  intros Hds Hk. rewrite <- (string_app_nil_r ds).
  apply match_star_greedy; [by rewrite <- all_digits_all_match | done | done].
Qed.

Lemma match_register_pattern_plain (ds : string) :
  ds ≠ EmptyString -> all_digits ds = true ->
  match_here kScalarRegisterExpression (String "s"%char ds) 0 [] (fun _ e _ => Some e)
  = Some (S (String.length ds)).
Proof.
  intros Hne Hds. destruct ds as [|d ds]; [done|].
  simpl in Hds. apply andb_true_iff in Hds as [Hd Hds].
  cbn -[match_star]. rewrite Hd.
  apply match_star_digits_end; [done|]. simpl. f_equal. lia.
Qed.

Lemma match_register_pattern_negated (ds : string) :
  ds ≠ EmptyString -> all_digits ds = true ->
  match_here kScalarRegisterExpression (String "-"%char (String "s"%char ds)) 0 []
    (fun _ e _ => Some e)
  = Some (S (S (String.length ds))).
Proof.
  intros Hne Hds. destruct ds as [|d ds]; [done|].
  simpl in Hds. apply andb_true_iff in Hds as [Hd Hds].
  cbn -[match_star]. rewrite Hd.
  rewrite (match_star_digits_end ds 3 (S (S (S (String.length ds))))); [done..|].
  simpl. f_equal. lia.
Qed.

(** Texts of the form [s<digits>] and [-s<digits>] pass the test for a
    single scalar register. *)
Lemma scalar_register_text_matches (negated : bool) (ds : string) :
  ds ≠ EmptyString -> all_digits ds = true ->
  (Z.of_nat (String.length (scalar_register_text negated ds)) <= INT_MAX)%Z ->
  is_scalar_register (scalar_register_text negated ds) = true.
Proof.
  intros Hne Hds Hlen. unfold is_scalar_register.
  assert (full_match kScalarRegisterExpression (scalar_register_text negated ds) = true) as ->;
    [|done].
  apply full_match_spec; [done|].
  destruct negated; unfold scalar_register_text.
  - change ("-" +:+ String "s"%char ds) with (String "-"%char (String "s"%char ds)).
    by rewrite match_register_pattern_negated.
  - change (EmptyString +:+ String "s"%char ds) with (String "s"%char ds).
    by rewrite match_register_pattern_plain.
Qed.

(** ** Register ranges *)

Lemma ascii_eqb_refl (c : ascii) : Ascii.eqb c c = true.
Proof. by apply Ascii.eqb_eq. Qed.

Lemma match_register_range_text (x : ascii) (a b : string) :
  a ≠ EmptyString -> b ≠ EmptyString -> all_digits a = true -> all_digits b = true ->
  match_here (register_range_pattern x) (register_range_text x a b) 0 [] (fun _ e _ => Some e)
  = Some (String.length (register_range_text x a b)).
Proof.
  intros Hna Hnb Ha Hb.
  destruct a as [|d a]; [done|]. destruct b as [|d' b]; [done|].
  simpl in Ha, Hb. apply andb_true_iff in Ha as [Hd Ha]. apply andb_true_iff in Hb as [Hd' Hb].
  unfold register_range_text.
  change (String d a +:+ String ":"%char (String d' b +:+ "]"))
    with (String d (a +:+ String ":"%char (String d' (b +:+ "]")))).
  cbn -[match_star String.append]. rewrite ascii_eqb_refl, Hd.
  apply match_star_greedy; [by rewrite <- all_digits_all_match | done |].
  cbn -[match_star String.append]. rewrite Hd'.
  apply match_star_greedy; [by rewrite <- all_digits_all_match | done |].
  cbn. f_equal. rewrite !string_length_app. simpl. rewrite !string_length_app. simpl. lia.
Qed.

Lemma match_register_range_inv (x : ascii) (token : string) :
  match_here (register_range_pattern x) token 0 [] (fun _ e _ => Some e)
  = Some (String.length token) ->
  ∃ a b, a ≠ EmptyString ∧ b ≠ EmptyString ∧ all_digits a = true ∧ all_digits b = true
         ∧ token = register_range_text x a b.
Proof.
  intros H.
  destruct token as [|c0 t]; [done|]. cbn -[match_star Ascii.eqb StdString.isdigit] in H.
  destruct (Ascii.eqb x c0) eqn:Hx; [|done]. apply Ascii.eqb_eq in Hx as <-.
  destruct t as [|c1 t]; [done|].
  destruct (Ascii.eqb "[" c1) eqn:Hc1; [|done]. apply Ascii.eqb_eq in Hc1 as <-.
  destruct t as [|d t]; [done|].
  destruct (StdString.isdigit d) eqn:Hd; [|done].
  apply match_star_inv in H as (a & rest & -> & Ha & H).
  destruct rest as [|c2 rest]; [done|].
  destruct (Ascii.eqb ":" c2) eqn:Hc2; [|done]. apply Ascii.eqb_eq in Hc2 as <-.
  destruct rest as [|d' rest]; [done|].
  destruct (StdString.isdigit d') eqn:Hd'; [|done].
  apply match_star_inv in H as (b & rest' & -> & Hb & H).
  destruct rest' as [|c3 rest']; [done|].
  destruct (Ascii.eqb "]" c3) eqn:Hc3; [|done]. apply Ascii.eqb_eq in Hc3 as <-.
  injection H as H.
  assert (rest' = EmptyString) as ->.
  { simpl in H. rewrite !string_length_app in H. simpl in H.
    rewrite !string_length_app in H. simpl in H.
    destruct rest'; [done | simpl in H; lia]. }
  exists (String d a), (String d' b). rewrite <- !all_digits_all_match in *.
  simpl. rewrite Hd, Hd', Ha, Hb. split_and!; done.
Qed.

(** The test for a register range holds exactly on the texts [x[a:b]]. *)
Lemma register_range_full_match (x : ascii) (token : string) :
  (Z.of_nat (String.length token) <= INT_MAX)%Z ->
  full_match (register_range_pattern x) token = true
  <-> ∃ a b, a ≠ EmptyString ∧ b ≠ EmptyString ∧ all_digits a = true ∧ all_digits b = true
             ∧ token = register_range_text x a b.
Proof.
  intros Hlen. rewrite full_match_spec by done. split.
  - apply match_register_range_inv.
  - intros (a & b & Hna & Hnb & Ha & Hb & ->). by apply match_register_range_text.
Qed.

(** A register range is not taken for a single register: none of the six
    single-register patterns matches at the start of [s[...] or [v[...]. *)
Lemma register_range_text_not_single (x : ascii) (a b : string) :
  x = "s"%char ∨ x = "v"%char ->
  is_scalar_register (register_range_text x a b) = false
  ∧ is_vector_register (register_range_text x a b) = false.
Proof.
  intros [-> | ->]; unfold is_scalar_register, is_vector_register, register_range_text;
    rewrite !full_match_no_match_here; done.
Qed.

(** * Classification of operand tokens *)

Lemma pop_back_app_char (s : string) (c : ascii) :
  StdString.pop_back (s +:+ String c EmptyString) = s.
Proof.
  induction s as [|d s IH]; [done|].
  change (String d s +:+ String c EmptyString) with (String d (s +:+ String c EmptyString)).
  cbn [StdString.pop_back]. rewrite IH.
  destruct s; reflexivity.
Qed.

Lemma stoi_all_digits (ds : string) :
  ds ≠ EmptyString -> all_digits ds = true ->
  StdString.stoi ds =
    if (StdString.decimal_value 0 ds <=? INT_MAX)%Z
    then Returns (StdString.decimal_value 0 ds)
    else Raises std_out_of_range.
Proof.
  intros Hne Hds. rewrite <- (string_app_nil_r ds) at 1. by apply stoi_digits.
Qed.

(** [ClassifyToken] for an instruction that is not a branch, by the tests
    that select its branches. *)
Lemma ClassifyToken_unfold (token : string) :
  ClassifyToken false token =
    if is_scalar_register token || is_vector_register token then
      single_register_token token (is_scalar_register token)
    else if full_match kScalarRegisterRangeExpression token
            || full_match kVectorRegisterRangeExpression token then
      register_range_token token (full_match kScalarRegisterRangeExpression token)
    else if full_match kConstantExpression token then
      Returns (classified_token token kConstantType (-1) (-1) true)
    else Returns (plain_token token).
Proof.
  unfold ClassifyToken, is_scalar_register, is_vector_register, single_register_token,
    register_range_token, full_match.
  cbv zeta.
  repeat match goal with
         | |- context [exact_match ?m ?n] => destruct (exact_match m n)
         end; reflexivity.
Qed.

Lemma ClassifyToken_branch (token : string) :
  ClassifyToken true token = Returns (classified_token token kBranchLabelType (-1) (-1) false).
Proof. reflexivity. Qed.

Lemma single_register_token_scalar (negated : bool) (ds : string) :
  ds ≠ EmptyString -> all_digits ds = true ->
  single_register_token (scalar_register_text negated ds) true =
    if (StdString.decimal_value 0 ds <=? INT_MAX)%Z
    then Returns (classified_token (scalar_register_text negated ds) kScalarRegisterType
                    (StdString.decimal_value 0 ds) (-1) true)
    else Raises std_out_of_range.
Proof.
  intros Hne Hds. unfold single_register_token.
  assert (Hsub : StdString.substr (scalar_register_text negated ds)
            (match StdString.find (scalar_register_text negated ds) "s" with
             | Some p => p + 1
             | None => 0
             end) = ds).
  { destruct negated, ds; reflexivity. }
  rewrite Hsub. destruct ds as [|d ds'] eqn:E; [done|]. rewrite <- E in *.
  assert (Hd : StdString.isdigit d = true).
  { rewrite E in Hds. simpl in Hds. by apply andb_true_iff in Hds as [? _]. }
  rewrite Hd, (stoi_all_digits ds Hne Hds).
  by destruct (StdString.decimal_value 0 ds <=? INT_MAX)%Z.
Qed.

Lemma register_range_token_text (x : ascii) (a b : string) (scalar : bool) :
  all_digits a = true -> all_digits b = true ->
  register_range_token (register_range_text x a b) scalar =
    register_start ← StdString.stoi a;
    register_end ← StdString.stoi b;
    Returns (classified_token (register_range_text x a b)
               (if scalar then kScalarRegisterType else kVectorRegisterType)
               register_start register_end true).
Proof.
  intros Ha Hb. unfold register_range_token, register_range_text.
  assert (Hpop : StdString.pop_back
                   (String x (String "["%char (a +:+ String ":"%char (b +:+ "]"))))
                 = String x (String "["%char (a +:+ String ":"%char b))).
  { replace (String x (String "["%char (a +:+ String ":"%char (b +:+ "]"))))
      with ((String x (String "["%char (a +:+ String ":"%char b))) +:+ "]").
    - apply pop_back_app_char.
    - simpl. by rewrite string_app_assoc. }
  rewrite Hpop. cbn [StdString.substr].
  by rewrite (Split_range a b Ha Hb).
Qed.

(** What [ClassifyToken] does with [s<digits>] and [-s<digits>]. *)
Lemma ClassifyToken_scalar_register (negated : bool) (digits : string) :
  digits ≠ EmptyString -> all_digits digits = true ->
  (Z.of_nat (String.length (scalar_register_text negated digits)) <= INT_MAX)%Z ->
  ClassifyToken false (scalar_register_text negated digits) =
    if (StdString.decimal_value 0 digits <=? INT_MAX)%Z
    then Returns (classified_token (scalar_register_text negated digits) kScalarRegisterType
                    (StdString.decimal_value 0 digits) (-1) true)
    else Raises std_out_of_range.
Proof.
  intros Hne Hds Hlen. rewrite ClassifyToken_unfold.
  rewrite (scalar_register_text_matches negated digits Hne Hds Hlen). cbn [orb].
  by apply single_register_token_scalar.
Qed.

(** What [ClassifyToken] does with [s[a:b]] and [v[a:b]]. *)
Lemma ClassifyToken_register_range (x : ascii) (a b : string) :
  x = "s"%char ∨ x = "v"%char ->
  a ≠ EmptyString -> b ≠ EmptyString -> all_digits a = true -> all_digits b = true ->
  (Z.of_nat (String.length (register_range_text x a b)) <= INT_MAX)%Z ->
  ClassifyToken false (register_range_text x a b) =
    register_start ← StdString.stoi a;
    register_end ← StdString.stoi b;
    Returns (classified_token (register_range_text x a b)
               (if Ascii.eqb x "s" then kScalarRegisterType else kVectorRegisterType)
               register_start register_end true).
Proof.
  intros Hx Hna Hnb Ha Hb Hlen. rewrite ClassifyToken_unfold.
  destruct (register_range_text_not_single x a b Hx) as [-> ->]. cbn [orb].
  assert (Hm : full_match (register_range_pattern x) (register_range_text x a b) = true).
  { apply register_range_full_match; [done|]. by exists a, b. }
  destruct Hx as [-> | ->].
  - change kScalarRegisterRangeExpression with (register_range_pattern "s").
    rewrite Hm. cbn [orb]. by apply register_range_token_text.
  - assert (Hs : full_match kScalarRegisterRangeExpression (register_range_text "v" a b) = false).
    { by apply full_match_no_match_here. }
    rewrite Hs. change kVectorRegisterRangeExpression with (register_range_pattern "v").
    rewrite Hm. cbn [orb]. by apply register_range_token_text.
Qed.

(** ** Hit boxes leave the classification alone *)

Lemma same_classification_refl (t : Token) : same_classification t t.
Proof. by repeat split. Qed.

Lemma set_hit_boxes_same (w : Q) (n i : Z) (cur : HitBoxCursor) (toks : list Token) :
  Forall2 same_classification toks (set_hit_boxes w n i cur toks).1.
Proof.
  revert i cur. induction toks as [|t toks IH]; intros i cur; cbn [set_hit_boxes].
  - constructor.
  - match goal with
    | |- context [set_hit_boxes w n ?i' ?cur' toks] =>
        specialize (IH i' cur'); destruct (set_hit_boxes w n i' cur' toks) as [rest cur'']
    end.
    constructor; [by repeat split | done].
Qed.

Lemma parse_operand_spec (b : bool) (w : Q) (operand : string)
    (sel : list (list Token)) (cur : HitBoxCursor) :
  match classify_operand b operand with
  | Returns group =>
      ∃ group' cur',
        parse_operand b w (sel, cur) operand = Returns (sel ++ [group'], cur')
        ∧ Forall2 same_classification group group'
  | Raises e => parse_operand b w (sel, cur) operand = Raises e
  end.
Proof.
  unfold classify_operand, parse_operand.
  destruct (Split operand " ") as [tokens|e]; [|done]. cbn [mbind Result_bind].
  destruct (mapM (ClassifyToken b) tokens) as [operand_tokens|e]; [|done].
  cbn [mbind Result_bind].
  pose proof (set_hit_boxes_same w (Z.of_nat (length operand_tokens)) 0 cur operand_tokens)
    as Hsame.
  destruct (set_hit_boxes w _ 0 cur operand_tokens) as [boxed cur1]. cbn [fst] in Hsame.
  eauto.
Qed.

(** The operand loop of [ParseSelectableTokens]: it raises what the
    classification of the operands raises, and otherwise appends one group
    per operand, classified as [classify_operands] says. *)
Lemma parse_operands_spec (b : bool) (w : Q) (operands : list string)
    (sel : list (list Token)) (cur : HitBoxCursor) :
  match classify_operands b operands with
  | Returns groups =>
      ∃ groups' cur',
        foldM (parse_operand b w) (sel, cur) operands = Returns (sel ++ groups', cur')
        ∧ Forall2 (Forall2 same_classification) groups groups'
  | Raises e => foldM (parse_operand b w) (sel, cur) operands = Raises e
  end.
Proof.
  revert sel cur. induction operands as [|operand operands IH]; intros sel cur.
  - cbn. exists [], cur. by rewrite app_nil_r.
  - unfold classify_operands in *. cbn [mapM foldM].
    pose proof (parse_operand_spec b w operand sel cur) as Hop.
    destruct (classify_operand b operand) as [group|e]; cbn [mbind Result_bind].
    + destruct Hop as (group' & cur1 & -> & Hsame). cbn [mbind Result_bind].
      specialize (IH (sel ++ [group']) cur1).
      destruct (mapM (classify_operand b) operands) as [groups|e]; cbn [mbind Result_bind].
      * destruct IH as (groups' & cur' & -> & Hall).
        exists (group' :: groups'), cur'. split.
        -- by rewrite <- app_assoc.
        -- by constructor.
      * done.
    + by rewrite Hop.
Qed.

(** [ParseSelectableTokens] in terms of the classification of its operands. *)
Lemma ParseSelectableTokens_spec (op_code : string) (op_code_token : Token)
    (operands : list string) (sel : list (list Token)) (w : Q) :
  match classify_operands (is_branch_op_code op_code) operands with
  | Returns groups =>
      ∃ groups',
        ParseSelectableTokens op_code op_code_token operands sel w
        = Returns (parsed_op_code_token op_code op_code_token w, sel ++ groups')
        ∧ Forall2 (Forall2 same_classification) groups groups'
  | Raises e => ParseSelectableTokens op_code op_code_token operands sel w = Raises e
  end.
Proof.
  unfold ParseSelectableTokens. cbv zeta.
  match goal with
  | |- context [foldM _ (sel, ?cur) operands] =>
      pose proof (parse_operands_spec (is_branch_op_code op_code) w operands sel cur) as H
  end.
  destruct (classify_operands (is_branch_op_code op_code) operands) as [groups|e].
  - destruct H as (groups' & cur' & -> & Hall). exists groups'. split; [done | done].
  - by rewrite H.
Qed.

(** ** Operands of a branch instruction *)

Lemma mapM_ClassifyToken_branch (tokens : list string) :
  mapM (ClassifyToken true) tokens
  = Returns ((fun t => classified_token t kBranchLabelType (-1) (-1) false) <$> tokens).
Proof.
  induction tokens as [|t tokens IH]; [done|].
  cbn [mapM]. rewrite ClassifyToken_branch, IH. done.
Qed.

Lemma classify_operands_branch (operands : list string) :
  ∃ groups, classify_operands true operands = Returns groups
            ∧ length groups = length operands
            ∧ Forall (Forall (fun t => type t = kBranchLabelType)) groups.
Proof.
  induction operands as [|operand operands (groups & Hg & Hlen & Hall)].
  - by exists [].
  - destruct (Split_returns operand " ") as [tokens Ht]; [done|].
    exists (((fun t => classified_token t kBranchLabelType (-1) (-1) false) <$> tokens) :: groups).
    assert (Hop : classify_operand true operand
                  = Returns ((fun t => classified_token t kBranchLabelType (-1) (-1) false)
                               <$> tokens)).
    { unfold classify_operand. rewrite Ht. cbn [mbind Result_bind].
      apply mapM_ClassifyToken_branch. }
    unfold classify_operands in *. cbn [mapM]. rewrite Hop, Hg.
    split_and!; [done | simpl; by rewrite Hlen |].
    constructor; [|done]. apply Forall_fmap. by apply Forall_true.
Qed.

(** ** Tokens with an end register index *)

Lemma single_register_token_end (token : string) (scalar : bool) (tok : Token) :
  single_register_token token scalar = Returns tok -> end_register_index tok = (-1)%Z.
Proof.
  unfold single_register_token.
  destruct (StdString.substr token _) as [|front rest]; [by intros [= <-]|].
  destruct (StdString.isdigit front); [|by intros [= <-]].
  destruct (StdString.stoi _); [|done]. by intros [= <-].
Qed.

(** Only a register range leaves an end index, and then both indices are
    the numbers written in the token. *)
Lemma ClassifyToken_end_present (b : bool) (token : string) (tok : Token) :
  (Z.of_nat (String.length token) <= INT_MAX)%Z ->
  ClassifyToken b token = Returns tok ->
  end_register_index tok ≠ (-1)%Z ->
  ∃ x first last,
    (x = "s"%char ∨ x = "v"%char)
    ∧ first ≠ EmptyString ∧ last ≠ EmptyString
    ∧ all_digits first = true ∧ all_digits last = true
    ∧ token = register_range_text x first last
    ∧ start_register_index tok = StdString.decimal_value 0 first
    ∧ end_register_index tok = StdString.decimal_value 0 last.
Proof.
  intros Hlen Hret Hend. destruct b.
  { rewrite ClassifyToken_branch in Hret. by injection Hret as <-. }
  rewrite ClassifyToken_unfold in Hret.
  destruct (is_scalar_register token || is_vector_register token).
  { by apply single_register_token_end in Hret. }
  assert (Hshape : ∀ x scalar,
             full_match (register_range_pattern x) token = true ->
             register_range_token token scalar = Returns tok ->
             ∃ first last,
               first ≠ EmptyString ∧ last ≠ EmptyString
               ∧ all_digits first = true ∧ all_digits last = true
               ∧ token = register_range_text x first last
               ∧ start_register_index tok = StdString.decimal_value 0 first
               ∧ end_register_index tok = StdString.decimal_value 0 last).
  { intros x scalar Hm Htok.
    apply register_range_full_match in Hm as (a & c & Hna & Hnc & Ha & Hc & ->); [|done].
    exists a, c. rewrite register_range_token_text in Htok by done.
    rewrite (stoi_all_digits a Hna Ha), (stoi_all_digits c Hnc Hc) in Htok.
    destruct (StdString.decimal_value 0 a <=? INT_MAX)%Z; [|done].
    destruct (StdString.decimal_value 0 c <=? INT_MAX)%Z; [|done].
    injection Htok as <-. by split_and!. }
  destruct (full_match kScalarRegisterRangeExpression token) eqn:Hs.
  { cbn [orb] in Hret. destruct (Hshape "s"%char true Hs Hret) as (first & last & H).
    exists "s"%char, first, last. split; [by left | exact H]. }
  destruct (full_match kVectorRegisterRangeExpression token) eqn:Hv.
  { cbn [orb] in Hret. destruct (Hshape "v"%char false Hv Hret) as (first & last & H).
    exists "v"%char, first, last. split; [by right | exact H]. }
  cbn [orb] in Hret.
  destruct (full_match kConstantExpression token); by injection Hret as <-.
Qed.

(** ** Operands of one word *)

Lemma erase_trailing_no_special (s : string) :
  no_special s = true -> StdString.erase_trailing s = s.
Proof.
  induction s as [|c s IH]; simpl; [done|].
  intros [Hc Hs]%andb_true_iff. rewrite (IH Hs).
  destruct s; [|done]. by destruct (StdString.is_special c).
Qed.

Lemma TrimStr_no_special (s : string) : no_special s = true -> TrimStr s = s.
Proof.
  intros Hs. unfold TrimStr. rewrite (erase_trailing_no_special _ Hs).
  destruct s as [|c s]; [done|]. simpl in *.
  by destruct (StdString.is_special c).
Qed.

Lemma find_space_no_special (s : string) (n : nat) :
  no_special s = true -> StdString.find_from s " " n = None.
Proof.
  revert n. induction s as [|c s IH]; intros n Hs; [done|].
  simpl in Hs. apply andb_true_iff in Hs as [Hc Hs].
  cbn [StdString.find_from String.prefix].
  destruct (ascii_dec " " c) as [<-|_]; [done|]. by apply IH.
Qed.

(** An operand of one word is split into that word. *)
Lemma Split_one_word (s : string) : no_special s = true -> Split s " " = Returns [s].
Proof.
  intros Hs. unfold Split.
  destruct (String.length s); cbn [Split_loop]; unfold StdString.find;
    rewrite (find_space_no_special s 0 Hs); by rewrite TrimStr_no_special.
Qed.

Lemma no_special_digits (ds : string) : all_digits ds = true -> no_special ds = true.
Proof.
  induction ds as [|c ds IH]; simpl; [done|]. intros [Hc Hds]%andb_true_iff.
  by rewrite (isdigit_not_special _ Hc), IH.
Qed.

Lemma no_special_app (a b : string) :
  no_special (a +:+ b) = no_special a && no_special b.
Proof. induction a as [|c a IH]; simpl; [done|]. by rewrite IH, andb_assoc. Qed.

Lemma scalar_register_text_no_special (negated : bool) (ds : string) :
  all_digits ds = true -> no_special (scalar_register_text negated ds) = true.
Proof.
  intros Hds. unfold scalar_register_text.
  destruct negated; simpl; by apply no_special_digits.
Qed.

Lemma register_range_text_no_special (x : ascii) (a b : string) :
  x = "s"%char ∨ x = "v"%char -> all_digits a = true -> all_digits b = true ->
  no_special (register_range_text x a b) = true.
Proof.
  intros Hx Ha Hb. unfold register_range_text. cbn [no_special].
  rewrite no_special_app. cbn [no_special]. rewrite no_special_app.
  rewrite !no_special_digits by done.
  by destruct Hx as [-> | ->].
Qed.

(** [ParseSelectableTokens] on a single operand of one word: the word's
    token, with its hit box. *)
Lemma ParseSelectableTokens_one_word (op_code : string) (op_code_token : Token)
    (word : string) (sel : list (list Token)) (w : Q) (tok : Token) :
  no_special word = true ->
  ClassifyToken (is_branch_op_code op_code) word = Returns tok ->
  ∃ tok',
    ParseSelectableTokens op_code op_code_token [word] sel w
    = Returns (parsed_op_code_token op_code op_code_token w, sel ++ [[tok']])
    ∧ same_classification tok tok'.
Proof.
  intros Hword Htok.
  pose proof (ParseSelectableTokens_spec op_code op_code_token [word] sel w) as H.
  unfold classify_operands, classify_operand in H. cbn [mapM] in H.
  rewrite (Split_one_word word Hword) in H. cbn [mbind Result_bind mapM] in H.
  rewrite Htok in H. cbn [mbind Result_bind] in H.
  destruct H as (groups' & Hparse & Hall).
  apply Forall2_cons_inv_l in Hall as (group' & rest & Hgroup & Hrest & ->).
  apply Forall2_nil_inv_l in Hrest as ->.
  apply Forall2_cons_inv_l in Hgroup as (tok' & rest & Hsame & Hrest & ->).
  apply Forall2_nil_inv_l in Hrest as ->.
  by exists tok'.
Qed.

(** ** What classification returns *)

Lemma mapM_Returns {A B : Type} (f : A -> Result B) (l : list A) (l' : list B) :
  mapM f l = Returns l' -> Forall2 (fun a b => f a = Returns b) l l'.
Proof.
  revert l'. induction l as [|a l IH]; intros l'; cbn [mapM].
  - intros [= <-]. constructor.
  - destruct (f a) as [b|e] eqn:Hb; [|done]. cbn.
    destruct (mapM f l) as [bs|e]; [|done]. cbn. intros [= <-].
    constructor; [done | by apply IH].
Qed.

Lemma single_register_token_cases (token : string) (scalar : bool) :
  (∃ number, single_register_token token scalar
             = Returns (classified_token token
                          (if scalar then kScalarRegisterType else kVectorRegisterType)
                          number (-1) true)
             ∧ (0 <= number <= INT_MAX)%Z)
  ∨ single_register_token token scalar = Returns (plain_token token)
  ∨ single_register_token token scalar = Raises std_out_of_range.
Proof.
  unfold single_register_token.
  destruct (StdString.substr token _) as [|front rest] eqn:Hsub; [by right; left|].
  destruct (StdString.isdigit front) eqn:Hfront; [|by right; left].
  destruct (StdString.span_digits rest) as [ds after] eqn:Hspan.
  assert (Hstoi : StdString.stoi (String front rest)
                  = if (StdString.decimal_value 0 (String front ds) <=? INT_MAX)%Z
                    then Returns (StdString.decimal_value 0 (String front ds))
                    else Raises std_out_of_range).
  { unfold StdString.stoi. rewrite (erase_leading_digit _ _ Hfront).
    assert (Hsign : (match String front rest with
                     | String "-"%char r => (true, r)
                     | String "+"%char r => (false, r)
                     | _ => (false, String front rest)
                     end) = (false, String front rest)).
    { apply isdigit_inv in Hfront. set_unfold.
      destruct Hfront as [->|[->|[->|[->|[->|[->|[->|[->|[->|[->|[]]]]]]]]]]]; reflexivity. }
    rewrite Hsign. cbn [StdString.span_digits]. rewrite Hfront, Hspan.
    pose proof (decimal_value_ge (String front ds) 0 ltac:(lia)) as Hge.
    assert (Hmin : (INT_MIN <=? StdString.decimal_value 0 (String front ds))%Z = true).
    { apply Z.leb_le. unfold INT_MIN. lia. }
    cbv zeta. by rewrite Hmin. }
  rewrite Hstoi.
  destruct (Z.leb_spec (StdString.decimal_value 0 (String front ds)) INT_MAX).
  - left. eexists. split; [reflexivity|].
    pose proof (decimal_value_ge (String front ds) 0 ltac:(lia)). lia.
  - by right; right.
Qed.

(** A word of an instruction that is no branch is never typed as a branch
    label. *)
Lemma ClassifyToken_not_label (token : string) (tok : Token) :
  ClassifyToken false token = Returns tok -> type tok ≠ kBranchLabelType.
Proof.
  rewrite ClassifyToken_unfold.
  destruct (is_scalar_register token || is_vector_register token).
  { destruct (single_register_token_cases token (is_scalar_register token))
      as [(number & -> & _)|[-> | ->]]; [| |done]; intros [= <-]; [|done].
    by destruct (is_scalar_register token). }
  destruct (full_match kScalarRegisterRangeExpression token
            || full_match kVectorRegisterRangeExpression token).
  { unfold register_range_token. destruct (Split _ ":") as [[|i0 [|i1 rest]]|]; try done.
    cbn. destruct (StdString.stoi i0); [|done]. cbn.
    destruct (StdString.stoi i1); [|done]. cbn. intros [= <-].
    by destruct (full_match kScalarRegisterRangeExpression token). }
  destruct (full_match kConstantExpression token); by intros [= <-].
Qed.

Lemma classify_operands_not_label (operands : list string) (groups : list (list Token)) :
  classify_operands false operands = Returns groups ->
  Forall (Forall (fun t => type t ≠ kBranchLabelType)) groups.
Proof.
  unfold classify_operands. intros H. apply mapM_Returns in H.
  induction H as [|operand group operands groups Hg _ IH]; constructor; [|done].
  unfold classify_operand in Hg. destruct (Split operand " ") as [words|e]; [|done].
  cbn in Hg. apply mapM_Returns in Hg. clear -Hg.
  induction Hg as [|word tok words toks Htok _ IH]; constructor; [|done].
  by eapply ClassifyToken_not_label.
Qed.

(** The operands of a branch instruction, word by word. *)
Lemma classify_operands_branch_words (operands : list string) :
  ∃ groups, classify_operands true operands = Returns groups
            ∧ Forall2 (fun operand group =>
                         ∃ words, Split operand " " = Returns words ∧ words ≠ []
                                  ∧ Forall2 branch_label_token words group)
                      operands groups.
Proof.
  induction operands as [|operand operands (groups & Hg & Hall)].
  - exists []. split; [done | constructor].
  - destruct (Split_returns operand " ") as [words Hw]; [done|].
    exists (((fun t => classified_token t kBranchLabelType (-1) (-1) false) <$> words) :: groups).
    assert (Hop : classify_operand true operand
                  = Returns ((fun t => classified_token t kBranchLabelType (-1) (-1) false)
                               <$> words)).
    { unfold classify_operand. rewrite Hw. cbn [mbind Result_bind].
      apply mapM_ClassifyToken_branch. }
    unfold classify_operands in *. cbn [mapM]. rewrite Hop, Hg. split; [done|].
    constructor; [|done]. exists words. split_and!; [done | |].
    + unfold Split in Hw. destruct (String.length operand) as [|fuel]; cbn [Split_loop] in Hw;
        destruct (StdString.find operand " "); try done;
        [by injection Hw as <- | | by injection Hw as <-].
      destruct (Split_loop fuel _ " "); [|done]. cbn in Hw. by injection Hw as <-.
    + apply Forall2_fmap_r, Forall_Forall2_diag, Forall_forall. by intros word _.
Qed.

Lemma branch_label_token_same (word : string) (t t' : Token) :
  branch_label_token word t -> same_classification t t' -> branch_label_token word t'.
Proof.
  intros (H1 & H2 & H3 & H4 & H5) (E1 & E2 & E3 & E4 & E5). unfold branch_label_token.
  by rewrite <- E1, <- E2, <- E3, <- E4, <- E5.
Qed.

(** What [find] does not find does not occur. *)
Lemma find_none_not_occurs (pat s : string) :
  StdString.find s pat = None -> ¬ occurs_in pat s.
Proof.
  intros Hfind (pre & post & ->). by apply (find_from_contains pre pat post 0).
Qed.

(** An op code in which neither branch string occurs is no branch. *)
Lemma is_branch_op_code_occurs (op_code : string) :
  ¬ occurs_in kUnconditionalBranchString op_code ->
  ¬ occurs_in kConditionalBranchString op_code ->
  is_branch_op_code op_code = false.
Proof.
  intros Hu Hc. unfold is_branch_op_code, StdString.find.
  rewrite !bool_decide_eq_false_2; [done | |].
  - intros Hf. apply Hc.
    destruct (StdString.find_from op_code kConditionalBranchString 0) as [k|] eqn:Hk; [|done].
    apply find_from_occurs in Hk as (pre' & post' & -> & _). by exists pre', post'.
  - intros Hf. apply Hu.
    destruct (StdString.find_from op_code kUnconditionalBranchString 0) as [k|] eqn:Hk; [|done].
    apply find_from_occurs in Hk as (pre' & post' & -> & _). by exists pre', post'.
Qed.

(** * The branch mapping pass *)

Lemma foldM_app {A S : Type} (body : S -> A -> Result S) (st : S) (l1 l2 : list A) :
  foldM body st (l1 ++ l2) = foldM body st l1 ≫= fun st' => foldM body st' l2.
Proof.
  revert st. induction l1 as [|a l1 IH]; intros st; [done|].
  cbn [foldM app]. destruct (body st a) as [st'|e]; [apply IH | done].
Qed.

Lemma imap_id_ext {A : Type} (f : nat -> A -> A) (l : list A) :
  (∀ i x, l !! i = Some x -> f i x = x) -> imap f l = l.
Proof.
  intros Hf. apply list_eq. intros i. rewrite list_lookup_imap.
  destruct (l !! i) as [x|] eqn:E; [|done]. simpl. by rewrite (Hf i x E).
Qed.

Lemma alter_imap {A B : Type} (f : B -> B) (g : nat -> A -> B) (i : nat) (l : list A) :
  alter f i (imap g l) = imap (fun k a => if decide (k = i) then f (g k a) else g k a) l.
Proof.
  apply list_eq. intros j. destruct (decide (i = j)) as [<-|Hij].
  - rewrite list_lookup_alter_eq, !list_lookup_imap.
    destruct (l !! i); [|done]. cbn. by rewrite decide_True.
  - rewrite list_lookup_alter_ne, !list_lookup_imap by done.
    destruct (l !! j); [|done]. cbn. by rewrite decide_False by done.
Qed.

Lemma vector_at_fmap {A B : Type} (f : A -> B) (v : list A) (i : Z) :
  vector_at (f <$> v) i = f <$> vector_at v i.
Proof.
  unfold vector_at. rewrite length_fmap, list_lookup_fmap.
  destruct (to_size_t i <? Z.of_nat (length v))%Z; [|done].
  by destruct (v !! Z.to_nat (to_size_t i)).
Qed.

Lemma vector_at_lookup {A : Type} (v : list A) (i : Z) (a : A) :
  vector_at v i = Returns a -> v !! target_slot i = Some a.
Proof.
  unfold vector_at, target_slot.
  destruct (to_size_t i <? Z.of_nat (length v))%Z; [|done].
  destruct (v !! Z.to_nat (to_size_t i)); [|done]. by intros [= ->].
Qed.

(** Whether a target is valid depends on the kinds of the blocks only. *)
Lemma valid_target_kinds (blocks blocks' : list Block) (target : Z) :
  Block_row_type <$> blocks = Block_row_type <$> blocks' ->
  valid_target blocks target = valid_target blocks' target.
Proof. unfold valid_target. by intros ->. Qed.

Lemma valid_target_vector_at (blocks : list Block) (target : Z) :
  valid_target blocks target = true
  <-> ∃ p l rows tok mapped,
        vector_at blocks target = Returns (InstructionBlock p l rows tok mapped).
Proof.
  unfold valid_target. rewrite vector_at_fmap.
  destruct (vector_at blocks target) as [[]|]; simpl; split; try done.
  - intros (? & ? & ? & ? & ? & [=]).
  - intros _. by eauto 6.
  - intros (? & ? & ? & ? & ? & [=]).
Qed.

Lemma rows_valid_kinds (labels : gmap string Z) (blocks blocks' : list Block) (rows : list Row) :
  Block_row_type <$> blocks = Block_row_type <$> blocks' ->
  rows_valid labels blocks rows <-> rows_valid labels blocks' rows.
Proof.
  intros Hk. unfold rows_valid. apply Forall_proper; [|done].
  intros r. by setoid_rewrite (valid_target_kinds _ _ _ Hk).
Qed.

Lemma add_entries_row_type (es : list (Z * Z)) (b : Block) :
  Block_row_type (add_entries es b) = Block_row_type b.
Proof. by destruct b. Qed.

Lemma set_rows_row_type (rows : list Row) (b : Block) :
  Block_row_type (set_rows rows b) = Block_row_type b.
Proof. by destruct b. Qed.

Lemma resolve_block_row_type (labels : gmap string Z) (b : Block) :
  Block_row_type (resolve_block labels b) = Block_row_type b.
Proof. by destruct b. Qed.

Lemma inner_form_kinds (labels : gmap string Z) (bi : nat) (rows : list Row) (n : nat)
    (blocks : list Block) :
  Block_row_type <$> inner_form labels bi rows n blocks = Block_row_type <$> blocks.
Proof.
  unfold inner_form. rewrite fmap_imap. apply list_eq. intros k.
  rewrite list_lookup_imap, list_lookup_fmap. destruct (blocks !! k); [|done]. simpl.
  rewrite add_entries_row_type. case_decide; [by rewrite set_rows_row_type | done].
Qed.

Lemma outer_form_kinds (labels : gmap string Z) (n : nat) (blocks : list Block) :
  Block_row_type <$> outer_form labels n blocks = Block_row_type <$> blocks.
Proof.
  unfold outer_form. rewrite fmap_imap. apply list_eq. intros k.
  rewrite list_lookup_imap, list_lookup_fmap. destruct (blocks !! k); [|done]. simpl.
  rewrite add_entries_row_type. case_decide; [by rewrite resolve_block_row_type | done].
Qed.

(** ** Entries *)

Lemma rows_entries_snoc (labels : gmap string Z) (bi k : nat) (rows : list Row) (r : Row) :
  rows_entries labels bi k (rows ++ [r])
  = rows_entries labels bi k rows
    ++ match row_entry labels bi k (length rows) r with Some e => [e] | None => [] end.
Proof.
  unfold rows_entries. rewrite imap_app, omap_app. f_equal.
  cbn. rewrite Nat.add_0_r. by destruct (row_entry labels bi k (length rows) r).
Qed.

Lemma blocks_entries_snoc (labels : gmap string Z) (k : nat) (blocks : list Block) (b : Block) :
  blocks_entries labels k (blocks ++ [b])
  = blocks_entries labels k blocks ++ block_entries labels k (length blocks) b.
Proof.
  unfold blocks_entries. rewrite imap_app, concat_app. f_equal.
  cbn. by rewrite Nat.add_0_r, app_nil_r.
Qed.

(** ** One row *)

Lemma map_branch_instruction_spec (labels : gmap string Z) (bi ii : nat) (blocks : list Block)
    (p l : Z) (rows : list Row) (tok : Token) (mapped : list (Z * Z)) (r : Row) :
  blocks !! bi = Some (InstructionBlock p l rows tok mapped) ->
  rows !! ii = Some r ->
  map_branch_instruction labels bi blocks ii =
    match row_target labels r with
    | None => Returns blocks
    | Some target =>
        match vector_at blocks target with
        | Returns (InstructionBlock _ _ _ _ _) =>
            Returns (alter (alter_instruction_line (set_branch_target target) ii) bi
                       (alter (add_mapped_branch_instruction
                                 (to_uint32 (Z.of_nat bi), to_uint32 (Z.of_nat ii)))
                              (target_slot target) blocks))
        | Returns (CommentBlock _ _ _ _) => Raises undefined_behaviour
        | Raises e => Raises e
        end
    end.
Proof.
  intros Hb Hr. unfold map_branch_instruction, row_target, branch_target_text.
  rewrite Hb, Hr. destruct r as [|line op operands pc bin en]; [done|].
  destruct operands as [|[|t ts] groups];
    destruct (is_branch_op_code (token_text op)); done.
Qed.

(** ** The rows of one block *)

Lemma resolved_rows_step (f g : Row -> Row) (rows : list Row) (n : nat) (r : Row) :
  rows !! n = Some r -> g r = f r ->
  (f <$> take (S n) rows) ++ drop (S n) rows
  = alter g n ((f <$> take n rows) ++ drop n rows).
Proof.
  intros Hr Hg.
  assert (Hlen : length (f <$> take n rows) = n).
  { rewrite length_fmap, length_take. apply lookup_lt_Some in Hr. lia. }
  rewrite alter_app_r_alt by lia. rewrite Hlen, Nat.sub_diag.
  rewrite (drop_S _ _ _ Hr). cbn. rewrite Hg.
  rewrite (take_S_r _ _ _ Hr), fmap_app. cbn. by rewrite <- app_assoc.
Qed.

Lemma add_entries_nil (b : Block) : add_entries [] b = b.
Proof. destruct b; simpl; by rewrite ?app_nil_r. Qed.

Lemma add_entries_add_entries (es es' : list (Z * Z)) (b : Block) :
  add_entries es' (add_entries es b) = add_entries (es ++ es') b.
Proof. destruct b; simpl; by rewrite ?app_assoc. Qed.

Lemma inner_form_0 (labels : gmap string Z) (bi : nat) (blocks : list Block)
    (p l : Z) (rows : list Row) (tok : Token) (mapped : list (Z * Z)) :
  blocks !! bi = Some (InstructionBlock p l rows tok mapped) ->
  inner_form labels bi rows 0 blocks = blocks.
Proof.
  intros Hb. apply imap_id_ext. intros k b Hk.
  rewrite take_0, drop_0. cbn. rewrite add_entries_nil.
  case_decide as Hkb; [|done]. subst k. rewrite Hb in Hk. by injection Hk as <-.
Qed.

(** One more row: a branch that finds its label adds an entry to the target
    block and sets its own token; any other row changes nothing. *)
Lemma inner_form_S (labels : gmap string Z) (bi : nat) (rows : list Row) (n : nat)
    (blocks : list Block) (r : Row) :
  rows !! n = Some r ->
  inner_form labels bi rows (S n) blocks =
    match row_target labels r with
    | Some target =>
        alter (alter_instruction_line (set_branch_target target) n) bi
          (alter (add_mapped_branch_instruction
                    (to_uint32 (Z.of_nat bi), to_uint32 (Z.of_nat n)))
                 (target_slot target) (inner_form labels bi rows n blocks))
    | None => inner_form labels bi rows n blocks
    end.
Proof.
  intros Hr.
  assert (Hlen : length (take n rows) = n).
  { rewrite length_take. apply lookup_lt_Some in Hr. lia. }
  destruct (row_target labels r) as [target|] eqn:Ht.
  - unfold inner_form. rewrite !alter_imap. apply imap_ext. intros k b Hk.
    cbn beta.
    rewrite (take_S_r _ _ _ Hr), rows_entries_snoc, Hlen.
    rewrite <- (take_S_r _ _ _ Hr).
    rewrite (resolved_rows_step (resolve_row labels) (set_branch_target target) rows n r Hr)
      by (unfold resolve_row; by rewrite Ht).
    unfold row_entry. rewrite Ht.
    destruct b; repeat case_decide; subst; try done; cbn;
      rewrite ?app_nil_r, ?app_assoc; done.
  - unfold inner_form. apply imap_ext. intros k b Hk. cbn.
    rewrite (take_S_r _ _ _ Hr), rows_entries_snoc, Hlen.
    rewrite <- (take_S_r _ _ _ Hr).
    rewrite (resolved_rows_step (resolve_row labels) id rows n r Hr)
      by (unfold resolve_row; by rewrite Ht).
    rewrite list_alter_id by done.
    unfold row_entry. rewrite Ht. by rewrite app_nil_r.
Qed.

Lemma inner_form_lookup (labels : gmap string Z) (bi : nat) (n : nat) (blocks : list Block)
    (p l : Z) (rows : list Row) (tok : Token) (mapped : list (Z * Z)) :
  blocks !! bi = Some (InstructionBlock p l rows tok mapped) ->
  inner_form labels bi rows n blocks !! bi
  = Some (InstructionBlock p l ((resolve_row labels <$> take n rows) ++ drop n rows) tok
            (mapped ++ rows_entries labels bi bi (take n rows))).
Proof.
  intros Hb. unfold inner_form. rewrite list_lookup_imap, Hb. cbn.
  by rewrite decide_True.
Qed.

Lemma partly_resolved_lookup (f : Row -> Row) (rows : list Row) (n : nat) :
  ((f <$> take n rows) ++ drop n rows) !! n = rows !! n.
Proof.
  destruct (decide (n <= length rows)) as [Hn|Hn].
  - rewrite lookup_app_r; rewrite length_fmap, length_take, Nat.min_l by lia; [|lia].
    rewrite Nat.sub_diag, lookup_drop. by rewrite Nat.add_0_r.
  - rewrite take_ge, drop_ge, app_nil_r by lia.
    rewrite list_lookup_fmap. rewrite (lookup_ge_None_2 rows n) by lia. done.
Qed.

(** The loop over the rows of block [bi]: it ends without an exception
    exactly when every branch among the rows has a valid target, and then
    leaves [inner_form]. *)
Lemma inner_loop (labels : gmap string Z) (bi : nat) (blocks : list Block)
    (p l : Z) (rows : list Row) (tok : Token) (mapped : list (Z * Z)) (n : nat) :
  blocks !! bi = Some (InstructionBlock p l rows tok mapped) ->
  n <= length rows ->
  match foldM (map_branch_instruction labels bi) blocks (seq 0 n) with
  | Returns blocks' =>
      blocks' = inner_form labels bi rows n blocks ∧ rows_valid labels blocks (take n rows)
  | Raises _ => ¬ rows_valid labels blocks (take n rows)
  end.
Proof.
  intros Hb. induction n as [|n IH]; intros Hn.
  - cbn. split; [by erewrite inner_form_0 | constructor].
  - rewrite seq_S, foldM_app. cbn [Nat.add].
    destruct (lookup_lt_is_Some_2 rows n) as [r Hr]; [lia|].
    assert (Hsnoc : rows_valid labels blocks (take (S n) rows)
                    <-> rows_valid labels blocks (take n rows)
                        ∧ (∀ target, row_target labels r = Some target ->
                                     valid_target blocks target = true)).
    { rewrite (take_S_r _ _ _ Hr). unfold rows_valid.
      by rewrite Forall_app, Forall_singleton. }
    specialize (IH ltac:(lia)).
    destruct (foldM (map_branch_instruction labels bi) blocks (seq 0 n)) as [blocks1|e];
      cbn [mbind Result_bind foldM]; [|rewrite Hsnoc; tauto].
    destruct IH as [-> Hvalid].
    rewrite (map_branch_instruction_spec labels bi n _ _ _ _ _ _ r
               (inner_form_lookup labels bi n blocks p l rows tok mapped Hb)
               ltac:(by rewrite partly_resolved_lookup)).
    rewrite (inner_form_S labels bi rows n blocks r Hr).
    destruct (row_target labels r) as [target|] eqn:Ht; cbn [mbind Result_bind].
    + pose proof (valid_target_kinds _ _ target (inner_form_kinds labels bi rows n blocks))
        as Hkinds.
      pose proof (valid_target_vector_at (inner_form labels bi rows n blocks) target) as Hv.
      rewrite Hkinds in Hv.
      destruct (vector_at (inner_form labels bi rows n blocks) target) as [[]|e] eqn:Hvec;
        cbn [mbind Result_bind].
      * rewrite Hsnoc. intros [_ Hr'].
        specialize (Hr' _ eq_refl). apply Hv in Hr' as (? & ? & ? & ? & ? & [=]).
      * rewrite Hsnoc. split; [done|]. split; [done|].
        intros target' [= <-]. apply Hv. eauto 6.
      * rewrite Hsnoc. intros [_ Hr'].
        specialize (Hr' _ eq_refl). apply Hv in Hr' as (? & ? & ? & ? & ? & [=]).
    + rewrite Hsnoc. split; [done|]. split; [done|]. intros target' [=].
Qed.

(** ** The blocks of the document *)

Lemma imap_imap {A B C : Type} (f : nat -> B -> C) (g : nat -> A -> B) (l : list A) :
  imap f (imap g l) = imap (fun k a => f k (g k a)) l.
Proof.
  apply list_eq. intros k. rewrite !list_lookup_imap. by destruct (l !! k).
Qed.

Lemma outer_form_0 (labels : gmap string Z) (blocks : list Block) :
  outer_form labels 0 blocks = blocks.
Proof.
  apply imap_id_ext. intros k b _. rewrite take_0. cbn.
  rewrite add_entries_nil. by rewrite decide_False by lia.
Qed.

Lemma outer_form_lookup (labels : gmap string Z) (n : nat) (blocks : list Block) (b : Block) :
  blocks !! n = Some b ->
  outer_form labels n blocks !! n
  = Some (add_entries (blocks_entries labels n (take n blocks)) b).
Proof.
  intros Hb. unfold outer_form. rewrite list_lookup_imap, Hb. cbn.
  by rewrite decide_False by lia.
Qed.

(** One more block: an instruction block has its rows visited, a comment
    block is skipped. *)
Lemma outer_form_S (labels : gmap string Z) (n : nat) (blocks : list Block) (b : Block) :
  blocks !! n = Some b ->
  outer_form labels (S n) blocks =
    match b with
    | CommentBlock _ _ _ _ => outer_form labels n blocks
    | InstructionBlock _ _ rows _ _ =>
        inner_form labels n rows (length rows) (outer_form labels n blocks)
    end.
Proof.
  intros Hb.
  assert (Hlen : length (take n blocks) = n).
  { rewrite length_take. apply lookup_lt_Some in Hb. lia. }
  assert (Hent : ∀ k, blocks_entries labels k (take (S n) blocks)
                      = blocks_entries labels k (take n blocks) ++ block_entries labels k n b).
  { intros k. by rewrite (take_S_r _ _ _ Hb), blocks_entries_snoc, Hlen. }
  destruct b as [p l rows text|p l rows tok mapped].
  - unfold outer_form. apply imap_ext. intros k b' Hk. cbn beta.
    rewrite Hent. cbn [block_entries]. rewrite app_nil_r.
    destruct (decide (k = n)) as [->|Hkn].
    + rewrite Hb in Hk. injection Hk as <-.
      rewrite decide_True by lia. by rewrite decide_False by lia.
    + destruct (decide (k < n)); [by rewrite decide_True by lia|].
      by rewrite decide_False by lia.
  - unfold inner_form, outer_form. rewrite imap_imap. apply imap_ext. intros k b' Hk.
    cbn beta. rewrite Hent. cbn [block_entries].
    rewrite firstn_all, drop_all, app_nil_r.
    destruct (decide (k = n)) as [->|Hkn].
    + rewrite Hb in Hk. injection Hk as <-.
      rewrite decide_True by lia. rewrite decide_False by lia.
      cbn. by rewrite app_assoc.
    + rewrite add_entries_add_entries.
      destruct (decide (k < n)); [by rewrite decide_True by lia|].
      by rewrite decide_False by lia.
Qed.

(** The loop over the blocks: it ends without an exception exactly when
    every branch of the blocks gone over has a valid target, and then leaves
    [outer_form]. *)
Lemma outer_loop (labels : gmap string Z) (blocks : list Block) (n : nat) :
  n <= length blocks ->
  match foldM (map_block labels) blocks (seq 0 n) with
  | Returns blocks' =>
      blocks' = outer_form labels n blocks
      ∧ Forall (block_valid labels blocks) (take n blocks)
  | Raises _ => ¬ Forall (block_valid labels blocks) (take n blocks)
  end.
Proof.
  induction n as [|n IH]; intros Hn.
  - cbn. by rewrite outer_form_0.
  - rewrite seq_S, foldM_app. cbn [Nat.add].
    destruct (lookup_lt_is_Some_2 blocks n) as [b Hb]; [lia|].
    assert (Hsnoc : Forall (block_valid labels blocks) (take (S n) blocks)
                    <-> Forall (block_valid labels blocks) (take n blocks)
                        ∧ block_valid labels blocks b).
    { by rewrite (take_S_r _ _ _ Hb), Forall_app, Forall_singleton. }
    specialize (IH ltac:(lia)).
    destruct (foldM (map_block labels) blocks (seq 0 n)) as [blocks1|e];
      cbn [mbind Result_bind foldM]; [|rewrite Hsnoc; tauto].
    destruct IH as [-> Hvalid].
    unfold map_block. rewrite (outer_form_lookup labels n blocks b Hb).
    rewrite (outer_form_S labels n blocks b Hb).
    destruct b as [p l rows text|p l rows tok mapped]; cbn [add_entries mbind Result_bind].
    + rewrite Hsnoc. by split_and!.
    + pose proof (inner_loop labels n (outer_form labels n blocks) p l rows tok
                    (mapped ++ blocks_entries labels n (take n blocks)) (length rows)
                    (outer_form_lookup labels n blocks _ Hb) ltac:(lia)) as Hin.
      rewrite firstn_all in Hin.
      pose proof (rows_valid_kinds labels _ blocks rows (outer_form_kinds labels n blocks))
        as Hkinds.
      destruct (foldM (map_branch_instruction labels n) _ _) as [blocks2|e];
        cbn [mbind Result_bind]; rewrite Hsnoc; cbn [block_valid].
      * destruct Hin as [-> Hrows]. apply Hkinds in Hrows. by split_and!.
      * rewrite <- Hkinds. tauto.
Qed.

Lemma outer_form_full (labels : gmap string Z) (blocks : list Block) :
  outer_form labels (length blocks) blocks
  = imap (fun k b => add_entries (blocks_entries labels k blocks) (resolve_block labels b))
         blocks.
Proof.
  unfold outer_form. apply imap_ext. intros k b Hk. cbn beta.
  rewrite firstn_all. apply lookup_lt_Some in Hk. by rewrite decide_True by lia.
Qed.

(** ** Clearing does not change what the pass reads *)

Lemma map_label_clear (labels : gmap string Z) (b : Block) :
  map_label labels (clear_mapped_branch_instructions b) = map_label labels b.
Proof. by destruct b. Qed.

Lemma build_label_map_clear (blocks : list Block) :
  build_label_map (ClearBranchInstructionMapping blocks) = build_label_map blocks.
Proof.
  unfold build_label_map, ClearBranchInstructionMapping. generalize (∅ : gmap string Z).
  induction blocks as [|b blocks IH]; intros labels; [done|].
  cbn. by rewrite map_label_clear, IH.
Qed.

Lemma blocks_entries_clear (labels : gmap string Z) (k : nat) (blocks : list Block) :
  blocks_entries labels k (ClearBranchInstructionMapping blocks)
  = blocks_entries labels k blocks.
Proof.
  unfold blocks_entries, ClearBranchInstructionMapping. rewrite imap_fmap.
  f_equal. apply imap_ext. intros i b _. by destruct b.
Qed.

Lemma clear_kinds (blocks : list Block) :
  Block_row_type <$> ClearBranchInstructionMapping blocks = Block_row_type <$> blocks.
Proof.
  unfold ClearBranchInstructionMapping. rewrite <- list_fmap_compose.
  apply list_fmap_ext. intros _ b _. by destruct b.
Qed.

Lemma targets_valid_clear (labels : gmap string Z) (blocks : list Block) :
  targets_valid labels (ClearBranchInstructionMapping blocks) <-> targets_valid labels blocks.
Proof.
  unfold targets_valid, ClearBranchInstructionMapping at 2. rewrite Forall_fmap.
  apply Forall_proper; [|done]. intros b. cbn.
  destruct b; cbn; [done|]. apply rows_valid_kinds, clear_kinds.
Qed.

Lemma mapped_blocks_clear (blocks : list Block) :
  outer_form (build_label_map blocks) (length (ClearBranchInstructionMapping blocks))
    (ClearBranchInstructionMapping blocks)
  = mapped_blocks blocks.
Proof.
  rewrite outer_form_full. unfold mapped_blocks.
  unfold ClearBranchInstructionMapping at 2. rewrite imap_fmap.
  apply imap_ext. intros k b _. cbn. rewrite blocks_entries_clear. by destruct b.
Qed.

(** [MapBlocksToBranchInstructions], in closed form: it ends without an
    exception exactly when every branch that finds its label finds an
    instruction block at the label's position, and then leaves
    [mapped_blocks]. *)
Theorem MapBlocksToBranchInstructions_spec (m : IsaItemModel) :
  match MapBlocksToBranchInstructions m with
  | Returns m' =>
      targets_valid (build_label_map (blocks_ m)) (blocks_ m)
      ∧ m' = match blocks_ m with
             | [] => m
             | _ => set_blocks (mapped_blocks (blocks_ m)) ∅ m
             end
  | Raises _ => ¬ targets_valid (build_label_map (blocks_ m)) (blocks_ m)
  end.
Proof.
  unfold MapBlocksToBranchInstructions.
  destruct (blocks_ m) as [|b blocks] eqn:E; [by split; [constructor|]|].
  rewrite <- E. clear E b blocks.
  pose proof (outer_loop (build_label_map (ClearBranchInstructionMapping (blocks_ m)))
                (ClearBranchInstructionMapping (blocks_ m))
                (length (ClearBranchInstructionMapping (blocks_ m))) ltac:(lia)) as H.
  rewrite firstn_all, build_label_map_clear in H.
  pose proof (targets_valid_clear (build_label_map (blocks_ m)) (blocks_ m)) as Hclear.
  unfold targets_valid in Hclear at 1.
  rewrite build_label_map_clear.
  destruct (foldM _ _ _) as [blocks'|e]; cbn [mbind Result_bind]; [|by rewrite <- Hclear].
  destruct H as [-> Hvalid]. split; [by apply Hclear|]. rewrite mapped_blocks_clear.
  by destruct (blocks_ m).
Qed.

(** * The label map and well-formed documents *)

Lemma build_label_map_snoc (blocks : list Block) (b : Block) :
  build_label_map (blocks ++ [b]) = map_label (build_label_map blocks) b.
Proof. unfold build_label_map. by rewrite foldl_snoc. Qed.

(** Among the blocks that carry a label, the last one wins. *)
Lemma build_label_map_last (blocks : list Block) (k : nat) (b : Block) (label : string) :
  blocks !! k = Some b ->
  block_label b = Some label ->
  (∀ k' b', k < k' -> blocks !! k' = Some b' -> block_label b' ≠ Some label) ->
  build_label_map blocks !! label = Some (Block_position b).
Proof.
  revert k b. induction blocks as [|x blocks IH] using rev_ind; intros k b Hk Hl Hlast; [done|].
  rewrite build_label_map_snoc.
  destruct (decide (k = length blocks)) as [->|Hne].
  - rewrite lookup_app_r, Nat.sub_diag in Hk by lia. injection Hk as ->.
    destruct b; [done|]. cbn in *. injection Hl as <-. apply lookup_insert_eq.
  - assert (k < length blocks).
    { apply lookup_lt_Some in Hk. rewrite length_app in Hk. cbn in Hk. lia. }
    rewrite lookup_app_l in Hk by done.
    assert (Hx : block_label x ≠ Some label).
    { apply (Hlast (length blocks)); [done|]. by rewrite lookup_app_r, Nat.sub_diag by lia. }
    assert (Hrest : build_label_map blocks !! label = Some (Block_position b)).
    { apply (IH k b Hk Hl). intros k' b' Hlt Hk'. apply (Hlast k' b' Hlt).
      rewrite lookup_app_l; [done | by apply lookup_lt_Some in Hk']. }
    destruct x; cbn in *; [done|]. rewrite lookup_insert_ne; [done | congruence].
Qed.

(** A label in the map is the label of a block, and of no later block. *)
Lemma build_label_map_Some (blocks : list Block) (label : string) (p : Z) :
  build_label_map blocks !! label = Some p ->
  ∃ k b, blocks !! k = Some b ∧ block_label b = Some label ∧ Block_position b = p
         ∧ ∀ k' b', k < k' -> blocks !! k' = Some b' -> block_label b' ≠ Some label.
Proof.
  induction blocks as [|x blocks IH] using rev_ind; [done|].
  rewrite build_label_map_snoc. intros Hm.
  destruct (decide (block_label x = Some label)) as [Hx|Hx].
  - exists (length blocks), x. rewrite lookup_app_r, Nat.sub_diag by lia.
    destruct x; [done|]. cbn in *. injection Hx as Hx. rewrite Hx, lookup_insert_eq in Hm.
    injection Hm as <-. split_and!; [done | by rewrite Hx | done |].
    intros k' b' Hlt Hk'. apply lookup_lt_Some in Hk'. rewrite length_app in Hk'.
    cbn in Hk'. lia.
  - assert (Hrest : build_label_map blocks !! label = Some p).
    { destruct x; cbn in *; [done|]. rewrite lookup_insert_ne in Hm; [done | congruence]. }
    destruct (IH Hrest) as (k & b & Hk & Hl & Hp & Hlast).
    exists k, b. split_and!; [|done..|].
    + rewrite lookup_app_l; [done | by apply lookup_lt_Some in Hk].
    + intros k' b' Hlt Hk'. destruct (decide (k' < length blocks)) as [Hin|Hout].
      * rewrite lookup_app_l in Hk' by done. by apply (Hlast k' b').
      * pose proof (lookup_lt_Some _ _ _ Hk') as Hb. rewrite length_app in Hb. cbn in Hb.
        assert (k' = length blocks) as -> by lia.
        rewrite lookup_app_r, Nat.sub_diag in Hk' by lia. by injection Hk' as <-.
Qed.

(** A text that labels no block is not in the map. *)
Lemma build_label_map_None (blocks : list Block) (label : string) :
  (∀ k b, blocks !! k = Some b -> block_label b ≠ Some label) ->
  build_label_map blocks !! label = None.
Proof.
  intros Hno. destruct (build_label_map blocks !! label) as [p|] eqn:E; [|done].
  apply build_label_map_Some in E as (k & b & Hk & Hl & _). by destruct (Hno k b Hk).
Qed.

Lemma target_slot_of_nat (k : nat) :
  (Z.of_nat k <= INT_MAX)%Z -> target_slot (Z.of_nat k) = k.
Proof.
  intros Hk. unfold target_slot. rewrite to_size_t_small; [lia|].
  unfold INT_MAX in Hk. lia.
Qed.

Lemma valid_target_of_nat (blocks : list Block) (k : nat) (b : Block) :
  (Z.of_nat (length blocks) <= INT_MAX)%Z ->
  blocks !! k = Some b -> Block_row_type b = kCode ->
  valid_target blocks (Z.of_nat k) = true.
Proof.
  intros Hlen Hk Hb. unfold valid_target, vector_at.
  pose proof (lookup_lt_Some _ _ _ Hk) as Hlt.
  rewrite to_size_t_small by (unfold INT_MAX in Hlen; lia).
  rewrite length_fmap. destruct (Z.ltb_spec (Z.of_nat k) (Z.of_nat (length blocks))); [|lia].
  rewrite Nat2Z.id, list_lookup_fmap, Hk. cbn. by rewrite Hb.
Qed.

(** In a well-formed document a label resolves to the index of the last
    block that carries it. *)
Lemma well_formed_label (m : IsaItemModel) (label : string) (p : Z) :
  well_formed m ->
  build_label_map (blocks_ m) !! label = Some p ->
  ∃ k b, p = Z.of_nat k ∧ blocks_ m !! k = Some b ∧ block_label b = Some label
         ∧ ∀ k' b', k < k' -> blocks_ m !! k' = Some b' -> block_label b' ≠ Some label.
Proof.
  intros Hwf Hm. apply build_label_map_Some in Hm as (k & b & Hk & Hl & Hp & Hlast).
  exists k, b. split_and!; [|done..]. rewrite <- Hp. by apply (wf_position m Hwf).
Qed.

(** In a well-formed document the pass meets no invalid target. *)
Lemma well_formed_targets_valid (m : IsaItemModel) :
  well_formed m -> targets_valid (build_label_map (blocks_ m)) (blocks_ m).
Proof.
  intros Hwf. apply Forall_forall. intros b _. destruct b as [|p l rows tok mapped]; [done|].
  cbn. apply Forall_forall. intros r _ target Ht.
  unfold row_target in Ht. destruct (branch_target_text r) as [text|]; [|done].
  cbn in Ht. apply (well_formed_label m text target Hwf) in Ht as (k & b & -> & Hk & Hl & _).
  apply (valid_target_of_nat _ k b); [apply (wf_blocks m Hwf) | done |].
  by destruct b.
Qed.

(** A well-formed document is mapped without an exception, to [mapped_blocks]. *)
Lemma well_formed_MapBlocks (m : IsaItemModel) :
  well_formed m ->
  MapBlocksToBranchInstructions m
  = Returns (match blocks_ m with
             | [] => m
             | _ => set_blocks (mapped_blocks (blocks_ m)) ∅ m
             end).
Proof.
  intros Hwf. pose proof (MapBlocksToBranchInstructions_spec m) as H.
  destruct (MapBlocksToBranchInstructions m) as [m'|e].
  - by destruct H as [_ ->].
  - destruct H. by apply well_formed_targets_valid.
Qed.

Lemma well_formed_MapBlocks_nonempty (m : IsaItemModel) :
  well_formed m -> blocks_ m ≠ [] ->
  MapBlocksToBranchInstructions m = Returns (set_blocks (mapped_blocks (blocks_ m)) ∅ m).
Proof.
  intros Hwf Hne. rewrite (well_formed_MapBlocks m Hwf). by destruct (blocks_ m).
Qed.

Lemma well_formed_returns (m : IsaItemModel) :
  well_formed m -> ∃ m', MapBlocksToBranchInstructions m = Returns m'.
Proof. intros Hwf. rewrite (well_formed_MapBlocks m Hwf). eauto. Qed.

(** * What the pass leaves *)

Lemma elem_of_concat {A : Type} (x : A) (ls : list (list A)) :
  x ∈ concat ls <-> ∃ l, l ∈ ls ∧ x ∈ l.
Proof.
  induction ls as [|l ls IH]; cbn.
  - split; [by intros ?%not_elem_of_nil | by intros (? & ?%not_elem_of_nil & _)].
  - rewrite elem_of_app, IH. split.
    + intros [H|(l' & Hl' & H)]; [exists l; split; [left|done] | exists l'; split; [by right|done]].
    + intros (l' & [->|Hl']%elem_of_cons & H); [by left | right; by exists l'].
Qed.

Lemma elem_of_rows_entries (labels : gmap string Z) (bi k : nat) (rows : list Row) (e : Z * Z) :
  e ∈ rows_entries labels bi k rows
  <-> ∃ ii r, rows !! ii = Some r ∧ row_entry labels bi k ii r = Some e.
Proof.
  unfold rows_entries. rewrite list_elem_of_omap. split.
  - intros (o & (ii & r & -> & Hr)%elem_of_lookup_imap & Ho). by exists ii, r.
  - intros (ii & r & Hr & He). exists (row_entry labels bi k ii r). split; [|done].
    by apply elem_of_lookup_imap_2.
Qed.

(** The entries of the block at position [k] are the branches whose label
    resolves to [k]. *)
Lemma elem_of_blocks_entries (labels : gmap string Z) (k : nat) (blocks : list Block)
    (e : Z * Z) :
  e ∈ blocks_entries labels k blocks
  <-> ∃ bi ii r, code_row blocks bi ii = Some r ∧ row_entry labels bi k ii r = Some e.
Proof.
  unfold blocks_entries. rewrite elem_of_concat. split.
  - intros (l & (bi & b & -> & Hb)%elem_of_lookup_imap & He).
    destruct b as [|p ln rows tok mapped]; [by apply not_elem_of_nil in He|].
    cbn in He. apply elem_of_rows_entries in He as (ii & r & Hr & He).
    exists bi, ii, r. unfold code_row. by rewrite Hb.
  - intros (bi & ii & r & Hr & He). unfold code_row in Hr.
    destruct (blocks !! bi) as [[|p ln rows tok mapped]|] eqn:Hb; try done.
    exists (block_entries labels k bi (InstructionBlock p ln rows tok mapped)). split.
    + by apply elem_of_lookup_imap_2.
    + cbn. apply elem_of_rows_entries. by exists ii, r.
Qed.

Lemma rows_entries_none (labels : gmap string Z) (bi k : nat) (rows : list Row) :
  Forall (fun r => row_target labels r = None) rows -> rows_entries labels bi k rows = [].
Proof.
  intros Hall. destruct (rows_entries labels bi k rows) as [|e es] eqn:E; [done|].
  assert (He : e ∈ rows_entries labels bi k rows) by (rewrite E; left).
  apply elem_of_rows_entries in He as (ii & r & Hr & He).
  rewrite Forall_lookup in Hall. unfold row_entry in He. by rewrite (Hall ii r Hr) in He.
Qed.

Lemma mapped_blocks_lookup (blocks : list Block) (k : nat) :
  mapped_blocks blocks !! k
  = mapped_block (build_label_map blocks) blocks k <$> blocks !! k.
Proof. unfold mapped_blocks. apply list_lookup_imap. Qed.

Lemma mapped_blocks_length (blocks : list Block) :
  length (mapped_blocks blocks) = length blocks.
Proof. unfold mapped_blocks. apply length_imap. Qed.

Lemma mapped_blocks_code_row (blocks : list Block) (b r : nat) :
  code_row (mapped_blocks blocks) b r
  = resolve_row (build_label_map blocks) <$> code_row blocks b r.
Proof.
  unfold code_row. rewrite mapped_blocks_lookup.
  destruct (blocks !! b) as [[|p ln rows tok mapped]|]; try done.
  cbn. by rewrite list_lookup_fmap.
Qed.

Lemma mapped_blocks_back_references (m : IsaItemModel) (blocks : list Block) (k : nat)
    (labels : gmap string Z) :
  back_references (set_blocks (mapped_blocks blocks) labels m) k
  = match blocks !! k with
    | Some (InstructionBlock _ _ _ _ _) => blocks_entries (build_label_map blocks) k blocks
    | _ => []
    end.
Proof.
  unfold back_references. cbn. rewrite mapped_blocks_lookup.
  by destruct (blocks !! k) as [[]|].
Qed.

(** ** Rows *)

Lemma set_branch_target_text (target : Z) (r : Row) :
  branch_target_text (set_branch_target target r) = branch_target_text r.
Proof. by destruct r as [|? ? [|[|t ts] gs] ? ? ?]. Qed.

Lemma resolve_row_target (labels labels' : gmap string Z) (r : Row) :
  row_target labels' (resolve_row labels r) = row_target labels' r.
Proof.
  unfold resolve_row, row_target. destruct (branch_target_text r ≫= _); [|done].
  by rewrite set_branch_target_text.
Qed.

Lemma resolve_row_idemp (labels : gmap string Z) (r : Row) :
  resolve_row labels (resolve_row labels r) = resolve_row labels r.
Proof.
  unfold resolve_row at 1. rewrite resolve_row_target. unfold resolve_row.
  destruct (row_target labels r) as [target|]; [|done].
  by destruct r as [|? ? [|[|t ts] gs] ? ? ?].
Qed.

Lemma resolved_target_index_resolve (labels : gmap string Z) (r : Row) (target : Z) :
  row_target labels r = Some target ->
  resolved_target_index (resolve_row labels r) = Some target.
Proof.
  unfold resolve_row. intros Ht. rewrite Ht. unfold row_target in Ht.
  destruct r as [|? op [|[|t ts] gs] ? ? ?]; try done.
Qed.

Lemma resolve_row_unresolved (labels : gmap string Z) (r : Row) :
  row_target labels r = None -> resolve_row labels r = r.
Proof. unfold resolve_row. by intros ->. Qed.

(** ** Running the pass on its own result *)

Lemma foldl_map_label_imap (f : nat -> Block -> Block) (labels : gmap string Z)
    (blocks : list Block) :
  (∀ k b labels', map_label labels' (f k b) = map_label labels' b) ->
  foldl map_label labels (imap f blocks) = foldl map_label labels blocks.
Proof.
  revert f labels. induction blocks as [|b blocks IH]; intros f labels Hf; [done|].
  rewrite imap_cons. cbn. rewrite Hf. apply IH. intros k b' labels'. apply Hf.
Qed.

Lemma mapped_blocks_label_map (blocks : list Block) :
  build_label_map (mapped_blocks blocks) = build_label_map blocks.
Proof.
  unfold mapped_blocks, build_label_map at 1. rewrite foldl_map_label_imap; [done|].
  intros k b labels'. by destruct b.
Qed.

Lemma rows_entries_resolve (labels labels' : gmap string Z) (bi k : nat) (rows : list Row) :
  rows_entries labels' bi k (resolve_row labels <$> rows) = rows_entries labels' bi k rows.
Proof.
  unfold rows_entries. rewrite imap_fmap. f_equal. apply imap_ext. intros ii r _.
  cbn. unfold row_entry. by rewrite resolve_row_target.
Qed.

Lemma mapped_blocks_entries (labels : gmap string Z) (k : nat) (blocks : list Block) :
  blocks_entries labels k (mapped_blocks blocks) = blocks_entries labels k blocks.
Proof.
  unfold blocks_entries, mapped_blocks. rewrite imap_imap. f_equal.
  apply imap_ext. intros bi b _. destruct b; cbn; [done|]. apply rows_entries_resolve.
Qed.

Lemma mapped_blocks_kinds (blocks : list Block) :
  Block_row_type <$> mapped_blocks blocks = Block_row_type <$> blocks.
Proof.
  unfold mapped_blocks. rewrite fmap_imap. apply list_eq. intros k.
  rewrite list_lookup_imap, list_lookup_fmap. by destruct (blocks !! k) as [[]|].
Qed.

Lemma mapped_blocks_idemp (blocks : list Block) :
  mapped_blocks (mapped_blocks blocks) = mapped_blocks blocks.
Proof.
  unfold mapped_blocks at 1. rewrite mapped_blocks_label_map.
  unfold mapped_blocks at 2 3. rewrite imap_imap. apply imap_ext. intros k b _.
  fold (mapped_blocks blocks).
  destruct b as [|p ln rows tok mapped]; cbn; [done|].
  rewrite mapped_blocks_entries. f_equal.
  rewrite <- list_fmap_compose. apply list_fmap_ext. intros _ r _. cbn.
  apply resolve_row_idemp.
Qed.

Lemma mapped_blocks_targets_valid (blocks : list Block) :
  targets_valid (build_label_map blocks) blocks ->
  targets_valid (build_label_map (mapped_blocks blocks)) (mapped_blocks blocks).
Proof.
  rewrite mapped_blocks_label_map. unfold targets_valid. rewrite !Forall_lookup.
  intros Hvalid k b'. rewrite mapped_blocks_lookup.
  destruct (blocks !! k) as [b|] eqn:Hb; [|done]. intros [= <-].
  specialize (Hvalid k b Hb). destruct b as [|p ln rows tok mapped]; [done|].
  cbn in *. unfold rows_valid in *. rewrite Forall_fmap.
  eapply Forall_impl; [exact Hvalid|]. intros r Hr target. cbn.
  rewrite resolve_row_target. intros Ht.
  rewrite (valid_target_kinds _ blocks target (mapped_blocks_kinds blocks)). by apply Hr.
Qed.

(** A second run of the pass changes nothing. *)
Lemma MapBlocks_idempotent (m m' : IsaItemModel) :
  MapBlocksToBranchInstructions m = Returns m' ->
  MapBlocksToBranchInstructions m' = Returns m'.
Proof.
  intros Hrun. pose proof (MapBlocksToBranchInstructions_spec m) as H.
  rewrite Hrun in H. destruct H as [Hvalid ->]. clear Hrun.
  destruct (blocks_ m) as [|b blocks] eqn:E.
  { unfold MapBlocksToBranchInstructions. by rewrite E. }
  rewrite <- E in *.
  assert (Hne : mapped_blocks (blocks_ m) ≠ []).
  { intros Hnil. pose proof (mapped_blocks_length (blocks_ m)) as Hlen.
    rewrite Hnil, E in Hlen. done. }
  pose proof (MapBlocksToBranchInstructions_spec
                (set_blocks (mapped_blocks (blocks_ m)) ∅ m)) as H.
  cbn [blocks_ set_blocks] in H.
  destruct (MapBlocksToBranchInstructions (set_blocks (mapped_blocks (blocks_ m)) ∅ m))
    as [m''|e].
  - destruct H as [_ ->]. rewrite mapped_blocks_idemp.
    by destruct (mapped_blocks (blocks_ m)).
  - destruct H. by apply mapped_blocks_targets_valid.
Qed.

(** * Branches in a well-formed document *)

Lemma code_row_bounds (m : IsaItemModel) (b r : nat) (row : Row) :
  well_formed m -> code_row (blocks_ m) b r = Some row ->
  (Z.of_nat b <= INT_MAX)%Z ∧ (Z.of_nat r <= INT_MAX)%Z.
Proof.
  intros Hwf Hrow. unfold code_row in Hrow.
  destruct (blocks_ m !! b) as [blk|] eqn:Hb; [|done].
  pose proof (wf_blocks m Hwf) as Hblocks. pose proof (wf_rows m Hwf b blk Hb) as Hrows.
  pose proof (lookup_lt_Some _ _ _ Hb).
  destruct blk as [|p ln rows tok mapped]; [done|]. cbn in Hrows.
  pose proof (lookup_lt_Some _ _ _ Hrow). lia.
Qed.

Lemma branch_entry_small (b r : nat) :
  (Z.of_nat b <= INT_MAX)%Z -> (Z.of_nat r <= INT_MAX)%Z ->
  branch_entry b r = (Z.of_nat b, Z.of_nat r).
Proof.
  intros Hb Hr. unfold branch_entry, INT_MAX in *.
  by rewrite !to_uint32_small by lia.
Qed.

Lemma code_row_nonempty (blocks : list Block) (b r : nat) (row : Row) :
  code_row blocks b r = Some row -> blocks ≠ [].
Proof. intros H ->. unfold code_row in H. by rewrite lookup_nil in H. Qed.

(** No two rows of a well-formed document leave the same entry. *)
Lemma branch_entry_inj (m : IsaItemModel) (b r b' r' : nat) (row row' : Row) :
  well_formed m ->
  code_row (blocks_ m) b r = Some row -> code_row (blocks_ m) b' r' = Some row' ->
  branch_entry b r = branch_entry b' r' -> b = b' ∧ r = r'.
Proof.
  intros Hwf Hrow Hrow' He.
  destruct (code_row_bounds m b r row Hwf Hrow).
  destruct (code_row_bounds m b' r' row' Hwf Hrow').
  rewrite !branch_entry_small in He by done. injection He as Hb Hr. lia.
Qed.

(** A branch whose label resolves to position [j] leaves its entry in block
    [j], and in no other block, and its token points to [j]. *)
Lemma resolved_branch (m : IsaItemModel) (b r : nat) (row : Row) (j : nat) :
  well_formed m ->
  code_row (blocks_ m) b r = Some row ->
  row_target (build_label_map (blocks_ m)) row = Some (Z.of_nat j) ->
  ∃ m', MapBlocksToBranchInstructions m = Returns m'
        ∧ branch_entry b r ∈ back_references m' j
        ∧ code_row (blocks_ m') b r ≫= resolved_target_index = Some (Z.of_nat j)
        ∧ ∀ k, k ≠ j -> branch_entry b r ∉ back_references m' k.
Proof.
  intros Hwf Hrow Ht. rewrite (well_formed_MapBlocks m Hwf).
  pose proof (code_row_nonempty _ _ _ _ Hrow) as Hne.
  exists (set_blocks (mapped_blocks (blocks_ m)) ∅ m).
  split; [by destruct (blocks_ m)|].
  assert (Hslot : (Z.of_nat j <= INT_MAX)%Z ∧ ∃ bj, blocks_ m !! j = Some bj
                                                    ∧ Block_row_type bj = kCode).
  { unfold row_target in Ht. destruct (branch_target_text row) as [text|]; [|done].
    cbn in Ht. apply (well_formed_label m text _ Hwf) in Ht as (k & bk & Hk & Hbk & Hl & _).
    apply Nat2Z.inj in Hk as ->. pose proof (lookup_lt_Some _ _ _ Hbk).
    pose proof (wf_blocks m Hwf). split; [lia|].
    exists bk. split; [done|]. by destruct bk. }
  destruct Hslot as (Hj & bj & Hbj & Hkind).
  split_and!.
  - rewrite mapped_blocks_back_references, Hbj. destruct bj; [done|].
    apply elem_of_blocks_entries. exists b, r, row. split; [done|].
    unfold row_entry. rewrite Ht, target_slot_of_nat by done. by rewrite decide_True.
  - cbn [blocks_ set_blocks]. rewrite mapped_blocks_code_row, Hrow. cbn.
    by apply resolved_target_index_resolve.
  - intros k Hk. rewrite mapped_blocks_back_references.
    destruct (blocks_ m !! k) as [[]|]; try apply not_elem_of_nil.
    intros (b' & r' & row' & Hrow' & He)%elem_of_blocks_entries.
    unfold row_entry in He. destruct (row_target _ row') as [target|] eqn:Ht'; [|done].
    case_decide as Hs; [|done]. injection He as He.
    assert (branch_entry b' r' = branch_entry b r) as Heq by (unfold branch_entry; congruence).
    destruct (branch_entry_inj m b' r' b r row' row Hwf Hrow' Hrow Heq) as [-> ->].
    rewrite Hrow in Hrow'. injection Hrow' as <-. rewrite Ht in Ht'. injection Ht' as <-.
    rewrite target_slot_of_nat in Hs by done. done.
Qed.

(** A branch whose label is not in the map leaves no entry anywhere and
    keeps its row as it was. *)
Lemma unresolved_branch (m : IsaItemModel) (b r : nat) (row : Row) :
  well_formed m ->
  code_row (blocks_ m) b r = Some row ->
  row_target (build_label_map (blocks_ m)) row = None ->
  ∃ m', MapBlocksToBranchInstructions m = Returns m'
        ∧ m' = set_blocks (mapped_blocks (blocks_ m)) ∅ m
        ∧ code_row (blocks_ m') b r = Some row
        ∧ ∀ k, branch_entry b r ∉ back_references m' k.
Proof.
  intros Hwf Hrow Ht. rewrite (well_formed_MapBlocks m Hwf).
  pose proof (code_row_nonempty _ _ _ _ Hrow) as Hne.
  exists (set_blocks (mapped_blocks (blocks_ m)) ∅ m).
  split; [by destruct (blocks_ m)|]. split; [done|]. split.
  - cbn [blocks_ set_blocks]. rewrite mapped_blocks_code_row, Hrow. cbn.
    by rewrite resolve_row_unresolved.
  - intros k. rewrite mapped_blocks_back_references.
    destruct (blocks_ m !! k) as [[]|]; try apply not_elem_of_nil.
    intros (b' & r' & row' & Hrow' & He)%elem_of_blocks_entries.
    unfold row_entry in He. destruct (row_target _ row') as [target|] eqn:Ht'; [|done].
    case_decide as Hs; [|done]. injection He as He.
    assert (branch_entry b' r' = branch_entry b r) as Heq by (unfold branch_entry; congruence).
    destruct (branch_entry_inj m b' r' b r row' row Hwf Hrow' Hrow Heq) as [-> ->].
    rewrite Hrow in Hrow'. injection Hrow' as <-. by rewrite Ht in Ht'.
Qed.

(** ** The pass keeps a document well formed *)

Lemma mapped_well_formed (m : IsaItemModel) (labels : gmap string Z) :
  well_formed m -> well_formed (set_blocks (mapped_blocks (blocks_ m)) labels m).
Proof.
  intros [Hpos Hblocks Hrows]. split; cbn [blocks_ set_blocks].
  - intros k b'. rewrite mapped_blocks_lookup.
    destruct (blocks_ m !! k) as [b|] eqn:Hb; [|done]. intros [= <-].
    rewrite <- (Hpos k b Hb). by destruct b.
  - by rewrite mapped_blocks_length.
  - intros k b'. rewrite mapped_blocks_lookup.
    destruct (blocks_ m !! k) as [b|] eqn:Hb; [|done]. intros [= <-].
    pose proof (Hrows k b Hb) as H. destruct b; cbn in *; [done|]. by rewrite length_fmap.
Qed.

(** ** The branch query on an instruction *)

Lemma vector_at_of_nat {A : Type} (v : list A) (k : nat) (a : A) :
  (Z.of_nat k <= INT_MAX)%Z -> v !! k = Some a -> vector_at v (Z.of_nat k) = Returns a.
Proof.
  intros Hk Hv. unfold vector_at. pose proof (lookup_lt_Some _ _ _ Hv).
  rewrite to_size_t_small by (unfold INT_MAX in Hk; lia).
  destruct (Z.ltb_spec (Z.of_nat k) (Z.of_nat (length v))); [|lia].
  by rewrite Nat2Z.id, Hv.
Qed.

(** The query on the operands of a branch whose token holds the absent
    target -1 gives no index. *)
Lemma data_kBranchIndexRole_unresolved (m : IsaItemModel) (b r : nat) (row : Row) :
  well_formed m ->
  code_row (blocks_ m) b r = Some row ->
  resolved_target_index row = Some (-1)%Z ->
  data_kBranchIndexRole m (operands_index b r) = Returns [].
Proof.
  intros Hwf Hrow Hidx. destruct (code_row_bounds m b r row Hwf Hrow) as [Hb Hr].
  unfold code_row in Hrow. destruct (blocks_ m !! b) as [blk|] eqn:Hblk; [|done].
  pose proof (wf_position m Hwf b blk Hblk) as Hpos.
  unfold data_kBranchIndexRole, operands_index, parent, isValid. cbn.
  destruct (Z.leb_spec 0 (Z.of_nat r)); [|lia]. cbn. rewrite Hblk. cbn.
  rewrite Hpos. destruct (Z.leb_spec 0 (Z.of_nat b)); [|lia]. cbn.
  rewrite (vector_at_of_nat _ b blk Hb Hblk). cbn.
  destruct blk as [|p ln rows tok mapped]; [done|]. cbn.
  rewrite (vector_at_of_nat _ r row Hr Hrow). cbn.
  destruct row as [|line op [|[|t ts] groups] pc bin en]; try done.
  cbn in Hidx. injection Hidx as ->. cbn. by rewrite andb_false_r.
Qed.

(** ** A document without one of its rows *)

Lemma build_label_map_alter (f : Block -> Block) (i : nat) (blocks : list Block) :
  (∀ b labels, map_label labels (f b) = map_label labels b) ->
  build_label_map (alter f i blocks) = build_label_map blocks.
Proof.
  intros Hf. unfold build_label_map. generalize (∅ : gmap string Z). revert i.
  induction blocks as [|b blocks IH]; intros i labels; [done|].
  destruct i as [|i]; cbn; [by rewrite Hf | apply IH].
Qed.

Lemma replace_row_well_formed (b r : nat) (new : Row) (m : IsaItemModel) :
  well_formed m -> well_formed (replace_row b r new m).
Proof.
  intros [Hpos Hblocks Hrows]. split; cbn [blocks_ replace_row set_blocks].
  - intros k blk'. rewrite list_lookup_alter.
    case_decide as Hk; [subst k|by apply Hpos].
    destruct (blocks_ m !! b) as [blk|] eqn:Hb; [|done]. intros [= <-].
    rewrite <- (Hpos b blk Hb). by destruct blk.
  - by rewrite length_alter.
  - intros k blk'. rewrite list_lookup_alter.
    case_decide as Hk; [subst k|by apply Hrows].
    destruct (blocks_ m !! b) as [blk|] eqn:Hb; [|done]. intros [= <-].
    pose proof (Hrows b blk Hb) as H. destruct blk; cbn in *; by rewrite length_alter.
Qed.

Lemma replace_row_entries (labels : gmap string Z) (k b r : nat) (old new : Row)
    (blocks : list Block) :
  code_row blocks b r = Some old ->
  row_target labels old = None -> row_target labels new = None ->
  blocks_entries labels k (alter (alter_instruction_line (fun _ => new) r) b blocks)
  = blocks_entries labels k blocks.
Proof.
  intros Hold Ht Ht'. unfold blocks_entries. f_equal.
  apply list_eq. intros i. rewrite !list_lookup_imap, list_lookup_alter.
  case_decide as Hi; [subst i|done].
  unfold code_row in Hold. destruct (blocks !! b) as [[|p ln rows tok mapped]|]; try done.
  cbn. f_equal. unfold rows_entries. f_equal.
  apply list_eq. intros ii. rewrite !list_lookup_imap, list_lookup_alter.
  case_decide as Hii; [subst ii|done]. rewrite Hold. cbn.
  unfold row_entry. by rewrite Ht, Ht'.
Qed.

(** Replacing a branch that resolves to nothing by a row that is no branch
    leaves every back-reference list as it is. *)
Lemma replace_unresolved_row (m : IsaItemModel) (b r : nat) (old new : Row) :
  well_formed m ->
  code_row (blocks_ m) b r = Some old ->
  row_target (build_label_map (blocks_ m)) old = None ->
  branch_target_text new = None ->
  ∃ m1 m2,
    MapBlocksToBranchInstructions m = Returns m1
    ∧ MapBlocksToBranchInstructions (replace_row b r new m) = Returns m2
    ∧ ∀ k, back_references m2 k = back_references m1 k.
Proof.
  intros Hwf Hold Ht Hnew.
  pose proof (replace_row_well_formed b r new m Hwf) as Hwf'.
  pose proof (code_row_nonempty _ _ _ _ Hold) as Hne.
  assert (Hne' : blocks_ (replace_row b r new m) ≠ []).
  { cbn. intros Hnil. apply (f_equal length) in Hnil. rewrite length_alter in Hnil.
    by destruct (blocks_ m). }
  rewrite (well_formed_MapBlocks_nonempty m Hwf Hne),
    (well_formed_MapBlocks_nonempty _ Hwf' Hne').
  eexists _, _. split_and!; [done..|].
  intros k. rewrite !mapped_blocks_back_references. cbn [blocks_ replace_row set_blocks].
  rewrite build_label_map_alter by (intros blk labels; by destruct blk).
  rewrite (replace_row_entries _ k b r old new (blocks_ m) Hold Ht)
    by (unfold row_target; by rewrite Hnew).
  rewrite list_lookup_alter. case_decide as Hk; [subst k|done].
  by destruct (blocks_ m !! b) as [[]|].
Qed.

(** * The line index *)

Lemma cache_instructions_spec (i : nat) (rows : list Row) (acc : list (Z * Z))
    (lens : MaxLengths) (n : nat) :
  ∃ lens',
    foldl (cache_instruction (Z.of_nat i)) (acc, lens, Z.of_nat n) rows
    = (acc ++ (line_pair <$> ((fun r => (i, Some r)) <$> seq n (length rows))), lens',
       Z.of_nat (n + length rows)).
Proof.
  revert acc lens n. induction rows as [|row rows IH]; intros acc lens n.
  - exists lens. cbn. by rewrite app_nil_r, Nat.add_0_r.
  - cbn [foldl length seq fmap list_fmap].
    assert (Hstep : ∃ lens1, cache_instruction (Z.of_nat i) (acc, lens, Z.of_nat n) row
                             = (acc ++ [line_pair (i, Some n)], lens1, Z.of_nat (S n))).
    { destruct row; cbn -[Z.of_nat]; eexists; repeat f_equal; lia. }
    destruct Hstep as [lens1 ->]. destruct (IH (acc ++ [line_pair (i, Some n)]) lens1 (S n))
      as [lens' ->].
    exists lens'. rewrite <- app_assoc.
    by replace (n + S (length rows)) with (S n + length rows) by lia.
Qed.

Lemma cache_blocks_spec (blocks : list Block) (acc : list (Z * Z)) (lens : MaxLengths)
    (i : nat) :
  ∃ lens',
    foldl cache_block (acc, lens, Z.of_nat i) blocks
    = (acc ++ (line_pair <$> lines_from i blocks), lens', Z.of_nat (i + length blocks)).
Proof.
  revert acc lens i. induction blocks as [|b blocks IH]; intros acc lens i.
  - exists lens. cbn. by rewrite app_nil_r, Nat.add_0_r.
  - cbn [foldl lines_from length]. unfold cache_block at 2.
    destruct (cache_instructions_spec i (instruction_lines b)
                (acc ++ [(to_uint32 (-1), to_uint32 (Z.of_nat i))]) lens 0) as [lens1 Hrows].
    change (Z.of_nat 0) with 0%Z in Hrows. rewrite Hrows.
    replace (Z.of_nat i + 1)%Z with (Z.of_nat (S i)) by lia.
    destruct (IH (((acc ++ [(to_uint32 (-1), to_uint32 (Z.of_nat i))])
                   ++ (line_pair <$> ((fun r => (i, Some r))
                                        <$> seq 0 (length (instruction_lines b))))))
                lens1 (S i)) as [lens' ->].
    exists lens'. unfold block_lines. rewrite fmap_app. cbn [fmap list_fmap line_pair].
    rewrite <- !app_assoc.
    by replace (i + S (length blocks)) with (S i + length blocks) by lia.
Qed.

(** The line index [CacheSizeHints] builds: one pair per line, in order. *)
Lemma CacheSizeHints_indices (m : IsaItemModel) :
  line_number_corresponding_indices_ (CacheSizeHints m) = line_pair <$> document_lines m.
Proof.
  unfold CacheSizeHints, document_lines. cbv zeta.
  destruct (blocks_ m) as [|b blocks] eqn:E; [done|]. rewrite <- E.
  match goal with
  | |- context [foldl cache_block (?acc, ?lens, 0%Z) (blocks_ m)] =>
      destruct (cache_blocks_spec (blocks_ m) acc lens 0) as [lens' H]
  end.
  change (Z.of_nat 0) with 0%Z in H. by rewrite H.
Qed.

Lemma CacheSizeHints_blocks (m : IsaItemModel) : blocks_ (CacheSizeHints m) = blocks_ m.
Proof.
  unfold CacheSizeHints. cbv zeta. destruct (blocks_ m) as [|b blocks] eqn:E; [done|].
  rewrite <- E. by destruct (foldl cache_block _ (blocks_ m)) as [[? ?] ?].
Qed.

Lemma lines_from_length (i : nat) (blocks : list Block) :
  length (lines_from i blocks)
  = length blocks + sum_list ((fun b => length (instruction_lines b)) <$> blocks).
Proof.
  revert i. induction blocks as [|b blocks IH]; intros i; [done|].
  cbn [lines_from]. rewrite length_app, IH. unfold block_lines.
  cbn. rewrite length_fmap, length_seq. lia.
Qed.

Lemma document_lines_length (m : IsaItemModel) : length (document_lines m) = line_total m.
Proof. apply lines_from_length. Qed.

(** The lines are the headers and the rows of the blocks. *)
Lemma elem_of_lines_from (i : nat) (blocks : list Block) (line : Line) :
  line ∈ lines_from i blocks
  <-> ∃ k b, blocks !! k = Some b
             ∧ (line = (i + k, None)
                ∨ ∃ r, r < length (instruction_lines b) ∧ line = (i + k, Some r)).
Proof.
  revert i. induction blocks as [|b blocks IH]; intros i.
  - cbn. split; [by intros ?%not_elem_of_nil | by intros (k & ? & ? & _)].
  - cbn [lines_from]. rewrite elem_of_app, IH. unfold block_lines.
    rewrite elem_of_cons, list_elem_of_fmap. split.
    + intros [[->|(r & -> & Hr)]|(k & b' & Hk & H)].
      * exists 0, b. rewrite Nat.add_0_r. split; [done | by left].
      * exists 0, b. rewrite Nat.add_0_r. split; [done|]. right. exists r.
        apply elem_of_seq in Hr. split; [lia | done].
      * exists (S k), b'. replace (i + S k) with (S i + k) by lia. done.
    + intros (k & b' & Hk & H). destruct k as [|k].
      * cbn in Hk. injection Hk as <-. rewrite Nat.add_0_r in H. left.
        destruct H as [->|(r & Hr & ->)]; [by left|]. right. exists r.
        split; [done|]. apply elem_of_seq. lia.
      * right. exists k, b'. replace (S i + k) with (i + S k) by lia. done.
Qed.

Lemma elem_of_document_lines (m : IsaItemModel) (line : Line) :
  line ∈ document_lines m
  <-> ∃ b, blocks_ m !! line.1 = Some b
           ∧ match line.2 with
             | None => True
             | Some r => r < length (instruction_lines b)
             end.
Proof.
  unfold document_lines. rewrite elem_of_lines_from. split.
  - intros (k & b & Hk & [->|(r & Hr & ->)]); exists b; by cbn.
  - intros (b & Hb & H). exists line.1, b. split; [done|].
    destruct line as [i [r|]]; cbn in *; [right; by exists r | by left].
Qed.

Lemma lines_from_NoDup (i : nat) (blocks : list Block) : NoDup (lines_from i blocks).
Proof.
  revert i. induction blocks as [|b blocks IH]; intros i; [constructor|].
  cbn [lines_from]. apply NoDup_app. split_and!; [| |apply IH].
  - unfold block_lines. apply NoDup_cons. split.
    + by intros (r & [=] & _)%list_elem_of_fmap.
    + apply NoDup_fmap_2; [|apply NoDup_seq]. by intros r r' [=].
  - intros line Hline (k & b' & _ & H)%elem_of_lines_from.
    unfold block_lines in Hline. apply elem_of_cons in Hline.
    rewrite list_elem_of_fmap in Hline.
    destruct Hline as [->|(r & -> & _)]; destruct H as [[=]|(r' & _ & [=])]; lia.
Qed.

Lemma line_index_inj : Inj (=) (=) line_index.
Proof.
  intros [i [r|]] [i' [r'|]]; cbn; unfold createIndex; intros [=]; repeat f_equal; lia.
Qed.

(** ** The indices of the lines *)

Lemma index_negative (m : IsaItemModel) (parent_index : QModelIndex) :
  index m (to_int (to_uint32 (-1))) 0 parent_index = Returns QModelIndex_invalid.
Proof. reflexivity. Qed.

Lemma int_of_index (k : nat) : (Z.of_nat k <= INT_MAX)%Z -> to_int (to_uint32 (Z.of_nat k)) = Z.of_nat k.
Proof.
  intros Hk. unfold INT_MAX in Hk. rewrite to_uint32_small by lia.
  apply to_int_small. unfold INT_MIN, INT_MAX. lia.
Qed.

(** The index of block [i]. *)
Lemma index_top (m : IsaItemModel) (i : nat) :
  (Z.of_nat (length (blocks_ m)) <= INT_MAX)%Z -> i < length (blocks_ m) ->
  index m (Z.of_nat i) 0 QModelIndex_invalid = Returns (createIndex (Z.of_nat i) 0 None).
Proof.
  intros Hlen Hi. unfold index, hasIndex, rowCount. cbn.
  destruct (Z.ltb_spec (Z.of_nat i) 0); [lia|]. cbn.
  rewrite to_int_small by (unfold INT_MIN, INT_MAX in *; lia).
  destruct (Z.ltb_spec (Z.of_nat i) (Z.of_nat (length (blocks_ m)))); [|lia]. done.
Qed.

(** The index of row [r] of block [i]. *)
Lemma index_child (m : IsaItemModel) (i r : nat) (b : Block) :
  (Z.of_nat i <= INT_MAX)%Z ->
  (Z.of_nat (length (instruction_lines b)) <= INT_MAX)%Z ->
  blocks_ m !! i = Some b -> r < length (instruction_lines b) ->
  index m (Z.of_nat r) 0 (createIndex (Z.of_nat i) 0 None)
  = Returns (createIndex (Z.of_nat r) 0 (Some i)).
Proof.
  intros Hi Hrows Hb Hr. unfold index, hasIndex, rowCount, parent, isValid. cbn.
  destruct (Z.ltb_spec (Z.of_nat r) 0); [lia|]. cbn.
  destruct (Z.leb_spec 0 (Z.of_nat i)); [|lia]. cbn.
  rewrite (vector_at_of_nat _ i b Hi Hb). cbn.
  rewrite to_int_small by (unfold INT_MIN, INT_MAX in *; lia).
  destruct (Z.ltb_spec (Z.of_nat r) (Z.of_nat (length (instruction_lines b)))); [|lia].
  cbn. by rewrite Nat2Z.id.
Qed.

Lemma sum_list_lookup_le (l : list nat) (i x : nat) : l !! i = Some x -> x <= sum_list l.
Proof.
  revert i. induction l as [|y l IH]; intros [|i]; cbn; try done.
  - intros [= ->]. lia.
  - intros H. apply IH in H. lia.
Qed.

Lemma line_bounds (m : IsaItemModel) (line : Line) :
  line ∈ document_lines m ->
  ∃ b, blocks_ m !! line.1 = Some b
       ∧ line.1 < length (blocks_ m)
       ∧ length (instruction_lines b) <= line_total m
       ∧ length (blocks_ m) <= line_total m
       ∧ match line.2 with
         | None => True
         | Some r => r < length (instruction_lines b)
         end.
Proof.
  intros (b & Hb & Hr)%elem_of_document_lines. exists b.
  split_and!; [done | by apply lookup_lt_Some in Hb | | unfold line_total; lia | done].
  unfold line_total.
  assert (length (instruction_lines b)
          <= sum_list ((fun b => length (instruction_lines b)) <$> blocks_ m)); [|lia].
  apply (sum_list_lookup_le _ line.1). by rewrite list_lookup_fmap, Hb.
Qed.

(** What [GetLineNumberModelIndex] returns for line [ln] of the document. *)
Lemma GetLineNumberModelIndex_line (m : IsaItemModel) (ln : nat) (line : Line) :
  (Z.of_nat (line_total m) <= INT_MAX)%Z ->
  document_lines m !! ln = Some line ->
  GetLineNumberModelIndex (CacheSizeHints m) (Z.of_nat ln) = Returns (line_index line)
  ∧ isValid (line_index line) = true.
Proof.
  intros Htotal Hline.
  pose proof (lookup_lt_Some _ _ _ Hline) as Hln. rewrite document_lines_length in Hln.
  destruct (line_bounds m line) as (b & Hb & Hi & Hrows & Hblocks & Hr).
  { apply list_elem_of_lookup. by exists ln. }
  unfold GetLineNumberModelIndex.
  rewrite CacheSizeHints_indices, length_fmap, document_lines_length.
  rewrite to_int_small by (unfold INT_MIN, INT_MAX in *; lia).
  destruct (Z.ltb_spec (Z.of_nat ln) 0); [lia|].
  destruct (Z.leb_spec (Z.of_nat (line_total m)) (Z.of_nat ln)); [lia|]. cbn [orb].
  rewrite (vector_at_of_nat _ ln (line_pair line)) by (rewrite ?list_lookup_fmap, ?Hline; done || lia).
  cbn [mbind Result_bind].
  assert (Hm : blocks_ (CacheSizeHints m) = blocks_ m) by apply CacheSizeHints_blocks.
  destruct line as [i [r|]]; cbn [fst snd line_pair line_index] in *.
  - rewrite !int_of_index by lia.
    rewrite index_top by (rewrite Hm; lia). cbn [mbind Result_bind].
    rewrite (index_child _ i r b) by (rewrite ?Hm; done || lia).
    split; [done|]. unfold isValid. cbn.
    destruct (Z.leb_spec 0 (Z.of_nat r)); [done | lia].
  - rewrite index_negative. cbn [mbind Result_bind].
    rewrite int_of_index by lia. rewrite index_top by (rewrite Hm; lia).
    split; [done|]. unfold isValid. cbn.
    destruct (Z.leb_spec 0 (Z.of_nat i)); [done | lia].
Qed.

(** * The properties of the specification *)

(** Well-formedness of a document given by its blocks. *)
Ltac solve_well_formed :=
  split; cbn;
  [ intros k b; do 3 (destruct k as [|k]; [intros [= <-]; reflexivity|]); intros [=]
  | unfold INT_MAX; lia
  | intros k b; do 3 (destruct k as [|k]; [intros [= <-]; cbn; unfold INT_MAX; lia|]);
    intros [=] ].

Lemma single_branch_document_well_formed : well_formed single_branch_document.
Proof. solve_well_formed. Qed.

Lemma duplicate_label_document_well_formed : well_formed duplicate_label_document.
Proof. solve_well_formed. Qed.

Lemma unresolved_branch_document_well_formed : well_formed unresolved_branch_document.
Proof. solve_well_formed. Qed.

Lemma contained_branch_document_well_formed : well_formed contained_branch_document.
Proof. solve_well_formed. Qed.

Lemma row_target_text (labels : gmap string Z) (r : Row) (text : string) :
  branch_target_text r = Some text -> row_target labels r = labels !! text.
Proof. unfold row_target. by intros ->. Qed.

(** ** C1 *)

(** C1. Single target, single branch: in a document whose block 0 is the
    code block [label0] (holding no branch) and whose block 1 is the code
    block [label1] with the one row [s_branch label0], the resolution pass
    leaves [(1, 0)] as the back-reference list of block 0 and 0 as the
    [start_register_index] of the branch's first operand token. *)
Theorem single_target_single_branch (m : IsaItemModel) (line0 line1 line : Z)
    (rows0 : list Row) (label0 label1 op t : Token) (ts : list Token)
    (groups : list (list Token)) (pc bin : string) (en : bool)
    (mapped0 mapped1 : list (Z * Z)) :
  blocks_ m = [InstructionBlock 0 line0 rows0 label0 mapped0;
               InstructionBlock 1 line1
                 [InstructionRow line op ((t :: ts) :: groups) pc bin en] label1 mapped1] ->
  token_text label0 = "label0" -> token_text label1 = "label1" ->
  token_text op = "s_branch" -> token_text t = "label0" ->
  Forall (fun r => branch_target_text r = None) rows0 ->
  ∃ m', MapBlocksToBranchInstructions m = Returns m'
        ∧ back_references m' 0 = [(1, 0)%Z]
        ∧ code_row (blocks_ m') 1 0 ≫= resolved_target_index = Some 0%Z.
Proof.
  intros Hblocks Hl0 Hl1 Hop Ht Hrows0.
  set (row := InstructionRow line op ((t :: ts) :: groups) pc bin en) in *.
  assert (Hlabels : build_label_map (blocks_ m) !! "label0" = Some 0%Z).
  { rewrite Hblocks. unfold build_label_map. cbn. rewrite Hl0, Hl1.
    by rewrite lookup_insert_ne, lookup_insert_eq. }
  assert (Hrow : row_target (build_label_map (blocks_ m)) row = Some 0%Z).
  { rewrite (row_target_text _ row "label0"); [done|]. cbn. by rewrite Hop, Ht. }
  assert (Hnone : Forall (fun r => row_target (build_label_map (blocks_ m)) r = None) rows0).
  { eapply Forall_impl; [exact Hrows0|]. intros r Hr. unfold row_target. by rewrite Hr. }
  pose proof (MapBlocksToBranchInstructions_spec m) as Hspec.
  remember (build_label_map (blocks_ m)) as labels eqn:Hlab.
  destruct (MapBlocksToBranchInstructions m) as [m'|e].
  - destruct Hspec as [_ Hm'].
    assert (Hres : m' = set_blocks (mapped_blocks (blocks_ m)) ∅ m).
    { rewrite Hm', Hblocks. reflexivity. }
    clear Hm'. subst m'. eexists. split; [done|]. split.
    + rewrite mapped_blocks_back_references, <- Hlab, Hblocks.
      cbn [lookup list_lookup]. unfold blocks_entries.
      cbn [imap concat block_entries compose app].
      rewrite (rows_entries_none _ _ _ _ Hnone).
      unfold rows_entries. cbn [imap omap row_entry]. unfold row_entry. fold row.
      rewrite Hrow. reflexivity.
    + cbn [blocks_ set_blocks]. rewrite mapped_blocks_code_row, <- Hlab.
      unfold code_row. rewrite Hblocks. cbn [lookup list_lookup fmap option_fmap option_map].
      fold row. cbn [mbind option_bind]. by apply resolved_target_index_resolve.
  - destruct Hspec. rewrite Hblocks. repeat constructor.
    + cbn. eapply Forall_impl; [exact Hnone|]. intros r Hr target. by rewrite Hr.
    + fold row. intros target. rewrite Hrow. intros [= <-]. reflexivity.
Qed.

Lemma single_target_single_branch_witness :
  ∃ m', MapBlocksToBranchInstructions single_branch_document = Returns m'
        ∧ back_references m' 0 = [(1, 0)%Z]
        ∧ code_row (blocks_ m') 1 0 ≫= resolved_target_index = Some 0%Z.
Proof.
  eapply (single_target_single_branch single_branch_document);
    [reflexivity | reflexivity | reflexivity | reflexivity | reflexivity | constructor].
Defined.

(** ** C2 *)

(** C2. Round trip of the line index: for a document of N blocks with M_i
    rows in block i, whose N + sum(M_i) lines fit an [int], the line count
    after [CacheSizeHints] is N + sum(M_i); [GetLineNumberModelIndex] gives
    a valid index for every line number below it, different line numbers
    give different indices, and every block header and every row is the
    index of some line number. *)
Theorem line_index_round_trip (m : IsaItemModel) :
  (Z.of_nat (line_total m) <= INT_MAX)%Z ->
  GetLineCount (CacheSizeHints m) = Z.of_nat (line_total m)
  ∧ (∀ ln, ln < line_total m ->
       ∃ idx, GetLineNumberModelIndex (CacheSizeHints m) (Z.of_nat ln) = Returns idx
              ∧ isValid idx = true)
  ∧ (∀ ln ln', ln < line_total m -> ln' < line_total m ->
       GetLineNumberModelIndex (CacheSizeHints m) (Z.of_nat ln)
       = GetLineNumberModelIndex (CacheSizeHints m) (Z.of_nat ln') ->
       ln = ln')
  ∧ (∀ i, i < length (blocks_ m) ->
       ∃ ln, ln < line_total m
             ∧ GetLineNumberModelIndex (CacheSizeHints m) (Z.of_nat ln)
               = Returns (createIndex (Z.of_nat i) 0 None))
  ∧ (∀ i b r, blocks_ m !! i = Some b -> r < length (instruction_lines b) ->
       ∃ ln, ln < line_total m
             ∧ GetLineNumberModelIndex (CacheSizeHints m) (Z.of_nat ln)
               = Returns (createIndex (Z.of_nat r) 0 (Some i))).
Proof.
  intros Htotal.
  assert (Hline : ∀ ln, ln < line_total m -> ∃ line, document_lines m !! ln = Some line).
  { intros ln Hln. apply lookup_lt_is_Some_2. by rewrite document_lines_length. }
  assert (Hfind : ∀ line, line ∈ document_lines m ->
            ∃ ln, ln < line_total m
                  ∧ GetLineNumberModelIndex (CacheSizeHints m) (Z.of_nat ln)
                    = Returns (line_index line)).
  { intros line (ln & Hln)%list_elem_of_lookup. exists ln. split.
    - rewrite <- document_lines_length. by apply lookup_lt_Some in Hln.
    - by apply GetLineNumberModelIndex_line. }
  split_and!.
  - unfold GetLineCount. rewrite CacheSizeHints_indices, length_fmap, document_lines_length.
    apply to_int_small. unfold INT_MIN, INT_MAX in *. lia.
  - intros ln Hln. destruct (Hline ln Hln) as [line Hl].
    exists (line_index line). by apply GetLineNumberModelIndex_line.
  - intros ln ln' Hln Hln' Heq.
    destruct (Hline ln Hln) as [line Hl]. destruct (Hline ln' Hln') as [line' Hl'].
    destruct (GetLineNumberModelIndex_line m ln line Htotal Hl) as [Hr _].
    destruct (GetLineNumberModelIndex_line m ln' line' Htotal Hl') as [Hr' _].
    rewrite Hr, Hr' in Heq. injection Heq as Heq. apply line_index_inj in Heq as ->.
    eapply NoDup_lookup; [apply lines_from_NoDup | exact Hl | exact Hl'].
  - intros i Hi. destruct (lookup_lt_is_Some_2 (blocks_ m) i Hi) as [b Hb].
    apply (Hfind (i, None)). apply elem_of_document_lines. by exists b.
  - intros i b r Hb Hr. apply (Hfind (i, Some r)). apply elem_of_document_lines.
    by exists b.
Qed.

Lemma line_index_round_trip_witness :
  GetLineCount (CacheSizeHints single_branch_document) = 3%Z
  ∧ (∀ ln, ln < 3 ->
       ∃ idx, GetLineNumberModelIndex (CacheSizeHints single_branch_document) (Z.of_nat ln)
              = Returns idx ∧ isValid idx = true).
Proof.
  destruct (line_index_round_trip single_branch_document) as (Hcount & Hvalid & _).
  - vm_compute. discriminate.
  - split; [exact Hcount | exact Hvalid].
Defined.

(** ** C3 *)

(** C3. Idempotence: a document whose blocks sit at their positions is
    mapped without an exception, and whenever the resolution pass has run,
    running it again on its result gives that result back: the same
    back-reference list in every block, the same resolved target in every
    branch token, nothing added twice. *)
Theorem resolution_is_idempotent (m : IsaItemModel) :
  (well_formed m -> ∃ m1, MapBlocksToBranchInstructions m = Returns m1)
  ∧ (∀ m1, MapBlocksToBranchInstructions m = Returns m1 ->
           MapBlocksToBranchInstructions m1 = Returns m1).
Proof.
  split.
  - apply well_formed_returns.
  - apply MapBlocks_idempotent.
Qed.

Lemma resolution_is_idempotent_witness :
  ∃ m1, MapBlocksToBranchInstructions single_branch_document = Returns m1
        ∧ MapBlocksToBranchInstructions m1 = Returns m1
        ∧ back_references m1 0 = [(1, 0)%Z].
Proof.
  destruct (resolution_is_idempotent single_branch_document) as [Hruns Hagain].
  destruct (Hruns single_branch_document_well_formed) as [m1 Hm1].
  exists m1. split; [exact Hm1|]. split; [exact (Hagain m1 Hm1)|].
  revert Hm1. vm_compute. intros [= <-]. reflexivity.
Defined.

(** ** C7 *)

(** C7. Duplicate labels: when two code blocks i < j carry the same label
    and no block after j carries it, the resolution pass ends without an
    error and every branch whose first operand token is that label is
    resolved to block j: its (block, row) pair is in the back-reference list
    of block j, its token holds j, and block i receives no entry from it. *)
Theorem duplicate_label_later_block_wins (m : IsaItemModel) (i j : nat) (bi bj : Block)
    (label : string) :
  well_formed m -> i < j ->
  blocks_ m !! i = Some bi -> blocks_ m !! j = Some bj ->
  block_label bi = Some label -> block_label bj = Some label ->
  (∀ k b, j < k -> blocks_ m !! k = Some b -> block_label b ≠ Some label) ->
  ∃ m', MapBlocksToBranchInstructions m = Returns m'
        ∧ ∀ b r row,
            code_row (blocks_ m) b r = Some row ->
            branch_target_text row = Some label ->
            (Z.of_nat b, Z.of_nat r) ∈ back_references m' j
            ∧ code_row (blocks_ m') b r ≫= resolved_target_index = Some (Z.of_nat j)
            ∧ (Z.of_nat b, Z.of_nat r) ∉ back_references m' i.
Proof.
  intros Hwf Hij Hi Hj Hli Hlj Hlast.
  assert (Hlabel : build_label_map (blocks_ m) !! label = Some (Z.of_nat j)).
  { rewrite <- (wf_position m Hwf j bj Hj). by apply (build_label_map_last _ j). }
  destruct (well_formed_returns m Hwf) as [m' Hm']. exists m'.
  split; [done|]. intros b r row Hrow Htext.
  destruct (resolved_branch m b r row j Hwf Hrow) as (m'' & Hm'' & Hin & Hidx & Hnot).
  { by rewrite (row_target_text _ row label). }
  rewrite Hm' in Hm''. injection Hm'' as <-.
  destruct (code_row_bounds m b r row Hwf Hrow) as [Hb Hr].
  rewrite (branch_entry_small b r Hb Hr) in *.
  split_and!; [done..|]. apply Hnot. lia.
Qed.

Lemma duplicate_label_later_block_wins_witness :
  ∃ m', MapBlocksToBranchInstructions duplicate_label_document = Returns m'
        ∧ (0%Z, 0%Z) ∈ back_references m' 1
        ∧ code_row (blocks_ m') 0 0 ≫= resolved_target_index = Some 1%Z
        ∧ (0%Z, 0%Z) ∉ back_references m' 0.
Proof.
  destruct (duplicate_label_later_block_wins duplicate_label_document 0 1
              (code_block 0 0 "loop" [branch_row 1 "s_cbranch_scc0" "loop"])
              (code_block 1 2 "loop" [CommentRow 3 "; second"]) "loop")
    as (m' & Hm' & Hall).
  - exact duplicate_label_document_well_formed.
  - lia.
  - reflexivity.
  - reflexivity.
  - reflexivity.
  - reflexivity.
  - intros k b Hk. destruct k as [|[|k]]; [lia | lia | discriminate].
  - exists m'. split; [exact Hm'|].
    apply (Hall 0 0 (branch_row 1 "s_cbranch_scc0" "loop")); reflexivity.
Defined.

(** ** C8 *)

(** C8. Unresolved branch: when the first operand token of a branch row
    names no code-block label, the resolution pass leaves every
    back-reference list as it is in the same document with that row replaced
    by a comment, the row's (block, row) pair is in no list, the token keeps
    the absent target -1 it had, and the branch query on the row's operands
    returns no index. *)
Theorem unresolved_branch_leaves_no_trace (m : IsaItemModel) (b r : nat) (row : Row)
    (text : string) (comment_line : Z) (comment_text : string) :
  well_formed m ->
  code_row (blocks_ m) b r = Some row ->
  branch_target_text row = Some text ->
  (∀ k blk, blocks_ m !! k = Some blk -> block_label blk ≠ Some text) ->
  resolved_target_index row = Some (-1)%Z ->
  ∃ m' m2,
    MapBlocksToBranchInstructions m = Returns m'
    ∧ MapBlocksToBranchInstructions (replace_row b r (CommentRow comment_line comment_text) m)
      = Returns m2
    ∧ (∀ k, back_references m' k = back_references m2 k)
    ∧ (∀ k, (Z.of_nat b, Z.of_nat r) ∉ back_references m' k)
    ∧ code_row (blocks_ m') b r ≫= resolved_target_index = Some (-1)%Z
    ∧ data_kBranchIndexRole m' (operands_index b r) = Returns [].
Proof.
  intros Hwf Hrow Htext Hmissing Hidx.
  assert (Htarget : row_target (build_label_map (blocks_ m)) row = None).
  { rewrite (row_target_text _ row text Htext). by apply build_label_map_None. }
  destruct (unresolved_branch m b r row Hwf Hrow Htarget) as (m' & Hm' & Heq & Hrow' & Hnot).
  destruct (replace_unresolved_row m b r row (CommentRow comment_line comment_text)
              Hwf Hrow Htarget eq_refl) as (m1 & m2 & Hm1 & Hm2 & Hsame).
  rewrite Hm' in Hm1. injection Hm1 as <-.
  exists m', m2. destruct (code_row_bounds m b r row Hwf Hrow) as [Hb Hr].
  split_and!; [done | done | by intros k; rewrite Hsame | | |].
  - intros k. rewrite <- (branch_entry_small b r Hb Hr). apply Hnot.
  - by rewrite Hrow'.
  - apply (data_kBranchIndexRole_unresolved m' b r row); [|done..].
    rewrite Heq. by apply mapped_well_formed.
Qed.

Lemma unresolved_branch_leaves_no_trace_witness :
  ∃ m', MapBlocksToBranchInstructions unresolved_branch_document = Returns m'
        ∧ (∀ k, (0%Z, 0%Z) ∉ back_references m' k)
        ∧ code_row (blocks_ m') 0 0 ≫= resolved_target_index = Some (-1)%Z
        ∧ data_kBranchIndexRole m' (operands_index 0 0) = Returns [].
Proof.
  destruct (unresolved_branch_leaves_no_trace unresolved_branch_document 0 0
              (branch_row 1 "s_branch" "label_missing") "label_missing" 1 "; gone")
    as (m' & m2 & Hm' & _ & _ & Hnot & Hidx & Hquery).
  - exact unresolved_branch_document_well_formed.
  - reflexivity.
  - reflexivity.
  - intros k blk Hk. destruct k as [|[|k]]; cbn in Hk; [| |discriminate];
      injection Hk as <-; discriminate.
  - reflexivity.
  - exists m'. split; [exact Hm'|]. split; [exact Hnot|]. split; [exact Hidx | exact Hquery].
Defined.

(** ** C9 *)

(** C9. Out-of-range queries: in every state of the model, the empty
    document included, [GetLineNumberModelIndex] returns the invalid index
    for a line number below 0 or not below the line count, and
    [ColumnSizeHint] returns the zero size for a column below 0 or not below
    the column count. *)
Theorem out_of_range_queries_are_empty (m : IsaItemModel) (font_height : Q)
    (line_number column_index : Z) :
  (line_number < 0 ∨ GetLineCount m <= line_number)%Z ->
  (column_index < 0 ∨ kColumnCount <= column_index)%Z ->
  GetLineNumberModelIndex m line_number = Returns QModelIndex_invalid
  ∧ isValid QModelIndex_invalid = false
  ∧ ColumnSizeHint m font_height column_index = {| width := 0; height := 0 |}.
Proof.
  intros Hline Hcolumn. split_and!.
  - unfold GetLineNumberModelIndex. unfold GetLineCount in Hline.
    destruct (Z.ltb_spec line_number 0); [done|].
    destruct (Z.leb_spec (to_int (Z.of_nat (length (line_number_corresponding_indices_ m))))
                line_number); [done | lia].
  - reflexivity.
  - unfold ColumnSizeHint.
    destruct (Z.ltb_spec column_index 0); [done|].
    destruct (Z.leb_spec kColumnCount column_index); [done | lia].
Qed.

Lemma out_of_range_queries_are_empty_witness :
  GetLineNumberModelIndex (model_of []) 0 = Returns QModelIndex_invalid
  ∧ isValid QModelIndex_invalid = false
  ∧ ColumnSizeHint (model_of []) 12 5 = {| width := 0; height := 0 |}.
Proof.
  apply (out_of_range_queries_are_empty (model_of []) 12 0 5).
  - right. vm_compute. discriminate.
  - right. vm_compute. discriminate.
Defined.

(** ** C10 *)

(** C10. Branch detection is by containment: for an op code that holds
    [s_branch] or [s_cbranch_] anywhere, [ParseSelectableTokens] returns one
    group per operand, one token per word of the operand (as [Split] finds
    them, never none), each with the word as its text and typed as a
    branch-target label, not selectable and without index, whatever the word
    looks like; and the resolution pass takes a row with that op code for a
    branch: when its first operand token is the label of block j (the last
    block so labelled), the row's (block, row) pair is added to block j and
    its token is set to j.  An op code in which neither string occurs is no
    branch: none of its operand tokens is typed as a branch label, and the
    pass leaves its row as it is and out of every back-reference list. *)
Theorem branch_detection_is_by_containment (pre post needle : string) :
  needle = kUnconditionalBranchString ∨ needle = kConditionalBranchString ->
  (∀ op_code_token operands selectable_tokens w,
     ∃ op_code_token' groups,
       ParseSelectableTokens (pre +:+ needle +:+ post) op_code_token operands
         selectable_tokens w
       = Returns (op_code_token', selectable_tokens ++ groups)
       ∧ Forall2 (fun operand group =>
                    ∃ words, Split operand " " = Returns words ∧ words ≠ []
                             ∧ Forall2 branch_label_token words group)
                 operands groups)
  ∧ (∀ m b r line op t ts groups pc bin en j bj,
       well_formed m ->
       code_row (blocks_ m) b r = Some (InstructionRow line op ((t :: ts) :: groups) pc bin en) ->
       token_text op = pre +:+ needle +:+ post ->
       blocks_ m !! j = Some bj -> block_label bj = Some (token_text t) ->
       (∀ k blk, j < k -> blocks_ m !! k = Some blk -> block_label blk ≠ Some (token_text t)) ->
       ∃ m', MapBlocksToBranchInstructions m = Returns m'
             ∧ (Z.of_nat b, Z.of_nat r) ∈ back_references m' j
             ∧ code_row (blocks_ m') b r ≫= resolved_target_index = Some (Z.of_nat j))
  ∧ (∀ op_code op_code_token operands selectable_tokens w op_code_token' groups,
       ¬ occurs_in kUnconditionalBranchString op_code ->
       ¬ occurs_in kConditionalBranchString op_code ->
       ParseSelectableTokens op_code op_code_token operands selectable_tokens w
       = Returns (op_code_token', selectable_tokens ++ groups) ->
       Forall (Forall (fun t => type t ≠ kBranchLabelType)) groups)
  ∧ (∀ m b r line op operands pc bin en,
       well_formed m ->
       code_row (blocks_ m) b r = Some (InstructionRow line op operands pc bin en) ->
       ¬ occurs_in kUnconditionalBranchString (token_text op) ->
       ¬ occurs_in kConditionalBranchString (token_text op) ->
       ∃ m', MapBlocksToBranchInstructions m = Returns m'
             ∧ code_row (blocks_ m') b r = Some (InstructionRow line op operands pc bin en)
             ∧ ∀ k, (Z.of_nat b, Z.of_nat r) ∉ back_references m' k).
Proof.
  intros Hneedle.
  assert (Hbranch : is_branch_op_code (pre +:+ needle +:+ post) = true).
  { destruct Hneedle as [-> | ->]; apply is_branch_op_code_contains. }
  split_and!.
  - intros op_code_token operands sel w.
    pose proof (ParseSelectableTokens_spec (pre +:+ needle +:+ post) op_code_token
                  operands sel w) as Hspec.
    rewrite Hbranch in Hspec.
    destruct (classify_operands_branch_words operands) as (groups0 & Hg & Hall).
    rewrite Hg in Hspec. destruct Hspec as (groups & -> & Hsame).
    exists (parsed_op_code_token (pre +:+ needle +:+ post) op_code_token w), groups.
    split; [done|]. clear Hg. revert groups Hsame.
    induction Hall as [|operand g0 operands gs0 (words & Hw & Hne & Hg0) _ IH];
      intros groups Hsame.
    + apply Forall2_nil_inv_l in Hsame as ->. constructor.
    + apply Forall2_cons_inv_l in Hsame as (g & gs & Hg & Hgs & ->).
      constructor; [|by apply IH]. exists words. split_and!; [done..|].
      clear -Hg0 Hg. revert g Hg.
      induction Hg0 as [|word t0 words ts0 Ht0 _ IH]; intros g Hg.
      * apply Forall2_nil_inv_l in Hg as ->. constructor.
      * apply Forall2_cons_inv_l in Hg as (t & ts & Ht & Hts & ->).
        constructor; [by eapply branch_label_token_same | by apply IH].
  - intros m b r line op t ts groups pc bin en j bj Hwf Hrow Hop Hj Hlabel Hlast.
    destruct (resolved_branch m b r _ j Hwf Hrow) as (m' & Hm' & Hin & Hidx & _).
    { erewrite row_target_text; [|cbn; by rewrite Hop, Hbranch].
      rewrite <- (wf_position m Hwf j bj Hj). by apply (build_label_map_last _ j). }
    destruct (code_row_bounds m b r _ Hwf Hrow) as [Hb Hr].
    rewrite (branch_entry_small b r Hb Hr) in Hin. by exists m'.
  - intros op_code op_code_token operands sel w op_code_token' groups Hu Hc Hparse.
    pose proof (ParseSelectableTokens_spec op_code op_code_token operands sel w) as Hspec.
    rewrite (is_branch_op_code_occurs op_code Hu Hc) in Hspec.
    destruct (classify_operands false operands) as [groups0|e] eqn:Hg;
      [|by rewrite Hspec in Hparse].
    destruct Hspec as (groups' & Hparse' & Hsame). rewrite Hparse' in Hparse.
    injection Hparse as _ Heq. apply app_inv_head in Heq as ->.
    apply classify_operands_not_label in Hg. clear Hparse'.
    induction Hsame as [|g0 g gs0 gs Hg0 _ IH]; [constructor|].
    apply Forall_cons in Hg as [Hg Hgs]. constructor; [|by apply IH].
    clear IH Hgs. induction Hg0 as [|t0 t ts0 ts Ht _ IH]; [constructor|].
    apply Forall_cons in Hg as [Ht0 Hts0]. constructor; [|by apply IH].
    destruct Ht as (_ & Hty & _). by rewrite <- Hty.
  - intros m b r line op operands pc bin en Hwf Hrow Hu Hc.
    destruct (unresolved_branch m b r _ Hwf Hrow) as (m' & Hm' & _ & Hrow' & Hout).
    { unfold row_target. cbn. destruct operands as [|[|t ts] groups]; try done.
      by rewrite (is_branch_op_code_occurs _ Hu Hc). }
    destruct (code_row_bounds m b r _ Hwf Hrow) as [Hb Hr].
    exists m'. split_and!; [done..|]. intros k.
    rewrite <- (branch_entry_small b r Hb Hr). apply Hout.
Qed.

Lemma branch_detection_is_by_containment_witness :
  (∃ op_code_token' groups t,
     ParseSelectableTokens "xs_branchy" Token_Clear ["s0"; "label0"] [] 1
     = Returns (op_code_token', groups)
     ∧ groups !! 0 = Some [t] ∧ branch_label_token "s0" t)
  ∧ (∃ m', MapBlocksToBranchInstructions contained_branch_document = Returns m'
           ∧ (0%Z, 0%Z) ∈ back_references m' 0
           ∧ code_row (blocks_ m') 0 0 ≫= resolved_target_index = Some 0%Z)
  ∧ ∃ op_code_token' t,
      ParseSelectableTokens "s_mov_b32" Token_Clear ["s0"] [] 1
      = Returns (op_code_token', [[t]])
      ∧ type t = kScalarRegisterType ∧ type t ≠ kBranchLabelType.
Proof.
  destruct (branch_detection_is_by_containment "x" "y" "s_branch")
    as (Hparse & Hmap & Hother & _).
  - left. reflexivity.
  - split_and!.
    3: { assert (Hret : ∃ op' t,
                   ParseSelectableTokens "s_mov_b32" Token_Clear ["s0"] [] 1
                   = Returns (op', [] ++ [[t]]) ∧ type t = kScalarRegisterType).
         { eexists _, _. split; [vm_compute; reflexivity | reflexivity]. }
         destruct Hret as (op' & t & Hret & Hty).
         exists op', t. split_and!; [exact Hret | exact Hty |].
         assert (Hall : Forall (Forall (fun t => type t ≠ kBranchLabelType)) [[t]]).
         { apply (Hother "s_mov_b32" Token_Clear ["s0"] [] 1%Q op' [[t]]);
             [apply find_none_not_occurs; reflexivity
             |apply find_none_not_occurs; reflexivity
             |exact Hret]. }
         apply Forall_cons in Hall as [Hall _]. apply Forall_cons in Hall as [Ht _].
         exact Ht. }
    + destruct (Hparse Token_Clear ["s0"; "label0"] [] 1%Q) as (op' & groups & Hret & Hall).
      apply Forall2_cons_inv_l in Hall as (g & gs & (words & Hw & _ & Hg) & _ & ->).
      vm_compute in Hw. injection Hw as <-.
      apply Forall2_cons_inv_l in Hg as (t & ts & Ht & Hts & ->).
      apply Forall2_nil_inv_l in Hts as ->.
      exists op', ([t] :: gs), t. split_and!; [exact Hret | reflexivity | exact Ht].
    + apply (Hmap contained_branch_document 0 0 1%Z
               (parsed_op_code_token "xs_branchy" Token_Clear 1) (branch_operand "label0")
               [] [] "0x000000" "BF820000" true 0
               (code_block 0 0 "label0" [branch_row 1 "xs_branchy" "label0"])).
      * exact contained_branch_document_well_formed.
      * reflexivity.
      * reflexivity.
      * reflexivity.
      * reflexivity.
      * intros k blk Hk. destruct k as [|k]; [lia | discriminate].
Defined.

(** ** C4 *)

(** C4, as the specification states it, fails on a register number that
    does not fit an [int]: the text [s2147483648] matches the pattern of a
    scalar register, and [std::stoi] throws [std::out_of_range] on its
    digits, so no token is produced. *)
Lemma scalar_register_beyond_int_raises :
  all_digits "2147483648" = true
  ∧ ClassifyToken false (scalar_register_text false "2147483648") = Raises std_out_of_range
  ∧ ParseSelectableTokens "s_mov_b32" Token_Clear ["s0"; "s2147483648"] [] 1
    = Raises std_out_of_range
  ∧ ¬ ∃ tok, ClassifyToken false "s2147483648" = Returns tok.
Proof.
  split_and!; [reflexivity | by vm_compute | by vm_compute |].
  intros [tok Htok]. vm_compute in Htok. discriminate Htok.
Qed.

(** C4 (amended). For an instruction that is not a branch, an operand word
    [s<digits>] or [-s<digits>] of fewer than 2^31 characters whose digits
    are at most [INT_MAX] is classified as a selectable scalar-register
    token (not as a constant), with the value of the digits as
    [start_register_index] and no [end_register_index]. *)
Theorem scalar_register_classification (negated : bool) (digits : string) :
  digits ≠ EmptyString -> all_digits digits = true ->
  (Z.of_nat (String.length (scalar_register_text negated digits)) <= INT_MAX)%Z ->
  (StdString.decimal_value 0 digits <= INT_MAX)%Z ->
  ClassifyToken false (scalar_register_text negated digits)
  = Returns (classified_token (scalar_register_text negated digits) kScalarRegisterType
               (StdString.decimal_value 0 digits) (-1) true)
  ∧ ∀ op_code op_code_token selectable_tokens w,
      is_branch_op_code op_code = false ->
      ∃ op_code_token' tok,
        ParseSelectableTokens op_code op_code_token [scalar_register_text negated digits]
          selectable_tokens w
        = Returns (op_code_token', selectable_tokens ++ [[tok]])
        ∧ token_text tok = scalar_register_text negated digits
        ∧ type tok = kScalarRegisterType
        ∧ type tok ≠ kConstantType
        ∧ is_selectable tok = true
        ∧ start_register_index tok = StdString.decimal_value 0 digits
        ∧ end_register_index tok = (-1)%Z.
Proof.
  intros Hne Hds Hlen Hmax.
  assert (Hclass : ClassifyToken false (scalar_register_text negated digits)
                   = Returns (classified_token (scalar_register_text negated digits)
                                kScalarRegisterType (StdString.decimal_value 0 digits)
                                (-1) true)).
  { rewrite (ClassifyToken_scalar_register negated digits Hne Hds Hlen).
    destruct (Z.leb_spec (StdString.decimal_value 0 digits) INT_MAX); [done | lia]. }
  split; [done|]. intros op_code op_code_token sel w Hop.
  destruct (ParseSelectableTokens_one_word op_code op_code_token
              (scalar_register_text negated digits) sel w _
              (scalar_register_text_no_special negated digits Hds)
              ltac:(rewrite Hop; exact Hclass))
    as (tok & Hparse & Htext & Hty & Hstart & Hend & Hsel).
  exists (parsed_op_code_token op_code op_code_token w), tok.
  cbn in *. rewrite <- Htext, <- Hty, <- Hstart, <- Hend, <- Hsel.
  by split_and!.
Qed.

Lemma scalar_register_classification_witness :
  ClassifyToken false "-s5" = Returns (classified_token "-s5" kScalarRegisterType 5 (-1) true).
Proof.
  apply (scalar_register_classification true "5").
  - discriminate.
  - reflexivity.
  - vm_compute. discriminate.
  - vm_compute. discriminate.
Defined.

(** ** C5 *)

(** C5, as the specification states it, fails on a bound that does not fit
    an [int]: the text [s[99999999999:0]] matches the pattern of a scalar
    register range, and [std::stoi] throws [std::out_of_range] on its first
    bound, so no token is produced. *)
Lemma scalar_register_range_beyond_int_raises :
  all_digits "99999999999" = true
  ∧ ClassifyToken false (register_range_text "s" "99999999999" "0") = Raises std_out_of_range
  ∧ ParseSelectableTokens "s_load_dwordx2" Token_Clear ["s[99999999999:0]"] [] 1
    = Raises std_out_of_range
  ∧ ¬ ∃ tok, ClassifyToken false "s[99999999999:0]" = Returns tok.
Proof.
  split_and!; [reflexivity | by vm_compute | by vm_compute |].
  intros [tok Htok]. vm_compute in Htok. discriminate Htok.
Qed.

(** C5 (amended). For an instruction that is not a branch, an operand word
    [s[N:M]] of fewer than 2^31 characters whose two bounds are at most
    [INT_MAX] is classified as a selectable scalar-register token whose
    [start_register_index] is N and whose [end_register_index] is M, as
    written: also when N exceeds M. *)
Theorem scalar_register_range_classification (first last : string) :
  first ≠ EmptyString -> last ≠ EmptyString ->
  all_digits first = true -> all_digits last = true ->
  (Z.of_nat (String.length (register_range_text "s" first last)) <= INT_MAX)%Z ->
  (StdString.decimal_value 0 first <= INT_MAX)%Z ->
  (StdString.decimal_value 0 last <= INT_MAX)%Z ->
  ClassifyToken false (register_range_text "s" first last)
  = Returns (classified_token (register_range_text "s" first last) kScalarRegisterType
               (StdString.decimal_value 0 first) (StdString.decimal_value 0 last) true)
  ∧ ∀ op_code op_code_token selectable_tokens w,
      is_branch_op_code op_code = false ->
      ∃ op_code_token' tok,
        ParseSelectableTokens op_code op_code_token [register_range_text "s" first last]
          selectable_tokens w
        = Returns (op_code_token', selectable_tokens ++ [[tok]])
        ∧ token_text tok = register_range_text "s" first last
        ∧ type tok = kScalarRegisterType
        ∧ is_selectable tok = true
        ∧ start_register_index tok = StdString.decimal_value 0 first
        ∧ end_register_index tok = StdString.decimal_value 0 last.
Proof.
  intros Hnf Hnl Hf Hl Hlen Hmaxf Hmaxl.
  assert (Hclass : ClassifyToken false (register_range_text "s" first last)
                   = Returns (classified_token (register_range_text "s" first last)
                                kScalarRegisterType (StdString.decimal_value 0 first)
                                (StdString.decimal_value 0 last) true)).
  { rewrite (ClassifyToken_register_range "s" first last) by (done || by left).
    rewrite (stoi_all_digits first Hnf Hf), (stoi_all_digits last Hnl Hl).
    destruct (Z.leb_spec (StdString.decimal_value 0 first) INT_MAX); [|lia].
    destruct (Z.leb_spec (StdString.decimal_value 0 last) INT_MAX); [|lia]. done. }
  split; [done|]. intros op_code op_code_token sel w Hop.
  destruct (ParseSelectableTokens_one_word op_code op_code_token
              (register_range_text "s" first last) sel w _
              (register_range_text_no_special "s" first last (or_introl eq_refl) Hf Hl)
              ltac:(rewrite Hop; exact Hclass))
    as (tok & Hparse & Htext & Hty & Hstart & Hend & Hsel).
  exists (parsed_op_code_token op_code op_code_token w), tok.
  cbn in *. rewrite <- Htext, <- Hty, <- Hstart, <- Hend, <- Hsel.
  by split_and!.
Qed.

Lemma scalar_register_range_classification_witness :
  ClassifyToken false "s[7:4]" = Returns (classified_token "s[7:4]" kScalarRegisterType 7 4 true).
Proof.
  apply (scalar_register_range_classification "7" "4").
  - discriminate.
  - discriminate.
  - reflexivity.
  - reflexivity.
  - vm_compute. discriminate.
  - vm_compute. discriminate.
  - vm_compute. discriminate.
Defined.

(** ** C6 *)

(** C6, as the specification states it, fails on a range written with its
    bounds in descending order: [s[5:2]] is classified with
    [start_register_index] 5 and [end_register_index] 2. *)
Lemma descending_range_breaks_the_order :
  ClassifyToken false "s[5:2]" = Returns (classified_token "s[5:2]" kScalarRegisterType 5 2 true)
  ∧ end_register_index (classified_token "s[5:2]" kScalarRegisterType 5 2 true) ≠ (-1)%Z
  ∧ ¬ (start_register_index (classified_token "s[5:2]" kScalarRegisterType 5 2 true)
       <= end_register_index (classified_token "s[5:2]" kScalarRegisterType 5 2 true))%Z.
Proof. split_and!; [by vm_compute | discriminate | cbn; lia]. Qed.

(** C6 (amended). A token that classification produces from a word of fewer
    than 2^31 characters has an [end_register_index] only when the word is a
    register range [s[N:M]] or [v[N:M]], and then its
    [start_register_index] is N and its [end_register_index] is M as
    written, so that the end is at least the start exactly when M is at
    least N. *)
Theorem end_register_index_is_as_written (is_branch_instruction : bool) (token : string)
    (tok : Token) :
  (Z.of_nat (String.length token) <= INT_MAX)%Z ->
  ClassifyToken is_branch_instruction token = Returns tok ->
  end_register_index tok ≠ (-1)%Z ->
  ∃ x first last,
    (x = "s"%char ∨ x = "v"%char)
    ∧ first ≠ EmptyString ∧ last ≠ EmptyString
    ∧ all_digits first = true ∧ all_digits last = true
    ∧ token = register_range_text x first last
    ∧ start_register_index tok = StdString.decimal_value 0 first
    ∧ end_register_index tok = StdString.decimal_value 0 last
    ∧ ((start_register_index tok <= end_register_index tok)%Z
       <-> (StdString.decimal_value 0 first <= StdString.decimal_value 0 last)%Z).
Proof.
  intros Hlen Hret Hend.
  destruct (ClassifyToken_end_present is_branch_instruction token tok Hlen Hret Hend)
    as (x & first & last & Hx & Hnf & Hnl & Hf & Hl & Htoken & Hstart & Hlast).
  exists x, first, last. split_and!; try done. by rewrite Hstart, Hlast.
Qed.

Lemma end_register_index_is_as_written_witness :
  ∃ x first last,
    "v[0:3]" = register_range_text x first last
    ∧ StdString.decimal_value 0 first = 0%Z ∧ StdString.decimal_value 0 last = 3%Z.
Proof.
  destruct (end_register_index_is_as_written false "v[0:3]"
              (classified_token "v[0:3]" kVectorRegisterType 0 3 true))
    as (x & first & last & _ & _ & _ & _ & _ & Htoken & Hstart & Hlast & _).
  - vm_compute. discriminate.
  - vm_compute. reflexivity.
  - discriminate.
  - exists x, first, last. split; [exact Htoken|].
    split; [symmetry; exact Hstart | symmetry; exact Hlast].
Defined.

(** * Further properties: strings *)

Lemma erase_leading_idemp (s : string) :
  StdString.erase_leading (StdString.erase_leading s) = StdString.erase_leading s.
Proof.
  induction s as [|c s IH]; [done|]. cbn [StdString.erase_leading].
  destruct (StdString.is_special c) eqn:Hc; [done|].
  cbn [StdString.erase_leading]. by rewrite Hc.
Qed.

Lemma erase_trailing_idemp (s : string) :
  StdString.erase_trailing (StdString.erase_trailing s) = StdString.erase_trailing s.
Proof.
  induction s as [|c s IH]; [done|]. cbn [StdString.erase_trailing].
  destruct (StdString.erase_trailing s) as [|d t] eqn:E.
  - destruct (StdString.is_special c) eqn:Hc; [done|].
    cbn [StdString.erase_trailing]. by rewrite Hc.
  - cbn [StdString.erase_trailing]. cbn [StdString.erase_trailing] in IH.
    destruct (StdString.erase_trailing t) as [|d' t'] eqn:E'.
    + destruct (StdString.is_special d); [done|]. by injection IH as ->.
    + by rewrite IH.
Qed.

(** Removing leading characters keeps a string free of trailing ones. *)
Lemma erase_trailing_erase_leading (s : string) :
  StdString.erase_trailing s = s ->
  StdString.erase_trailing (StdString.erase_leading s) = StdString.erase_leading s.
Proof.
  induction s as [|c s IH]; [done|]. intros H.
  cbn [StdString.erase_leading]. destruct (StdString.is_special c) eqn:Hc; [|done].
  apply IH. cbn [StdString.erase_trailing] in H.
  destruct (StdString.erase_trailing s) as [|d t] eqn:E.
  - rewrite Hc in H. discriminate H.
  - by injection H as ->.
Qed.

Lemma erase_leading_head (s : string) :
  match StdString.erase_leading s with
  | EmptyString => True
  | String c _ => StdString.is_special c = false
  end.
Proof.
  induction s as [|c s IH]; [done|]. cbn [StdString.erase_leading].
  by destruct (StdString.is_special c) eqn:Hc.
Qed.

Lemma TrimStr_trimmed (s : string) : trimmed (TrimStr s).
Proof.
  unfold trimmed, TrimStr. split; [apply erase_leading_head|].
  apply erase_trailing_erase_leading, erase_trailing_idemp.
Qed.

Lemma trimmed_TrimStr (s : string) : trimmed s -> TrimStr s = s.
Proof.
  intros [Hhead Htail]. unfold TrimStr. rewrite Htail.
  destruct s as [|c s]; [done|]. cbn [StdString.erase_leading]. by rewrite Hhead.
Qed.

(** X1. [TrimStr] gives a string that neither starts nor ends with white
    space, leaves such a string as it is, and so is idempotent. *)
Theorem TrimStr_is_a_projection (s : string) :
  trimmed (TrimStr s)
  ∧ TrimStr (TrimStr s) = TrimStr s
  ∧ (trimmed s <-> TrimStr s = s).
Proof.
  split_and!.
  - apply TrimStr_trimmed.
  - apply trimmed_TrimStr, TrimStr_trimmed.
  - split; [apply trimmed_TrimStr|]. intros <-. apply TrimStr_trimmed.
Qed.

(** ** [Split] *)

Lemma Split_loop_pieces (delimiter : string) (fuel : nat) (line : string) (l : list string) :
  Split_loop fuel line delimiter = Returns l -> l ≠ [] ∧ Forall trimmed l.
Proof.
  revert line l. induction fuel as [|fuel IH]; intros line l; cbn [Split_loop];
    destruct (StdString.find line delimiter) as [pos|]; try done.
  - intros [= <-]. split; [done|]. constructor; [apply TrimStr_trimmed | constructor].
  - destruct (Split_loop fuel _ delimiter) as [rest|e] eqn:Hrest; [|done].
    cbn. intros [= <-]. split; [done|]. constructor; [apply TrimStr_trimmed|].
    by apply IH in Hrest as [_ ?].
  - intros [= <-]. split; [done|]. constructor; [apply TrimStr_trimmed | constructor].
Qed.

Lemma prefix_substr0 (p s : string) (n : nat) :
  String.prefix p (StdString.substr0 s n) = true -> String.prefix p s = true.
Proof.
  revert p s. induction n as [|n IH]; intros [|d p] [|c s]; simpl; try done.
  destruct (ascii_dec d c); [apply IH | done].
Qed.

(** Before its first occurrence the pattern does not occur. *)
Lemma find_from_first (s pat : string) (n k n' : nat) :
  pat ≠ EmptyString ->
  StdString.find_from s pat n = Some k ->
  StdString.find_from (StdString.substr0 s (k - n)) pat n' = None.
Proof.
  intros Hpat. revert n n'. induction s as [|c s IH]; intros n n'.
  - destruct pat; [done|]. by destruct (k - n).
  - cbn [StdString.find_from]. destruct (String.prefix pat (String c s)) eqn:Hp.
    + intros [= <-]. rewrite Nat.sub_diag. destruct pat; [done | reflexivity].
    + intros Hk. pose proof (find_from_bound _ _ _ _ Hk) as [Hle _].
      replace (k - n) with (S (k - S n)) by lia. cbn [StdString.substr0 StdString.find_from].
      destruct (String.prefix pat (String c (StdString.substr0 s (k - S n)))) eqn:Hp'.
      * apply (prefix_substr0 pat (String c s) (S (k - S n))) in Hp'. congruence.
      * by apply IH.
Qed.

(** The pieces that [Split] trims: the line cut at every first occurrence of
    the delimiter. *)
Lemma Split_loop_cuts (delimiter : string) (fuel : nat) (line : string) :
  delimiter ≠ EmptyString -> String.length line <= fuel ->
  ∃ raws, raws ≠ []
          ∧ line = join_with delimiter raws
          ∧ Forall (fun raw => StdString.find raw delimiter = None) raws
          ∧ Split_loop fuel line delimiter = Returns (TrimStr <$> raws).
Proof.
  intros Hd. revert line. induction fuel as [|fuel IH]; intros line Hlen.
  - destruct line; [|simpl in Hlen; lia]. exists [EmptyString].
    destruct delimiter; [done|]. split_and!; [done | done | by constructor | done].
  - cbn [Split_loop]. destruct (StdString.find line delimiter) as [pos|] eqn:Hf.
    + pose proof (find_from_first line delimiter 0 pos 0 Hd Hf) as Hfirst.
      pose proof (find_from_bound _ _ _ _ Hf) as [_ Hbound].
      apply find_from_occurs in Hf as (raw & post & -> & Hpos).
      rewrite Nat.sub_0_r in *. subst pos. rewrite substr0_app in *.
      rewrite <- string_app_assoc, <- string_length_app, substr_app.
      rewrite !string_length_app in Hlen.
      destruct (IH post) as (raws & Hne & -> & Hall & ->).
      { destruct delimiter; [done|]. simpl in Hlen. lia. }
      exists (raw :: raws). split_and!; [done | | by constructor | done].
      rewrite string_app_assoc. by destruct raws.
    + exists [line]. split_and!; [done | done | by constructor | done].
Qed.

(** X2. With a delimiter that is not empty [Split] returns, and what it
    returns is the line cut at the delimiter, each piece trimmed: the pieces
    before trimming, joined by the delimiter, are the line, and the delimiter
    occurs in none of them; there is at least one piece, every piece is
    trimmed, and an empty line gives one empty piece. *)
Theorem Split_returns_trimmed_pieces (line delimiter : string) :
  delimiter ≠ EmptyString ->
  ∃ raws,
    Split line delimiter = Returns (TrimStr <$> raws)
    ∧ raws ≠ []
    ∧ line = join_with delimiter raws
    ∧ Forall (fun raw => StdString.find raw delimiter = None) raws
    ∧ Forall trimmed (TrimStr <$> raws)
    ∧ (line = EmptyString -> raws = [EmptyString]).
Proof.
  intros Hd.
  destruct (Split_loop_cuts delimiter (String.length line) line Hd ltac:(done))
    as (raws & Hne & Hline & Hall & Hsplit).
  exists raws. split_and!; [done..| |].
  - apply Forall_fmap, Forall_forall. intros raw _. apply TrimStr_trimmed.
  - intros ->. destruct raws as [|raw [|raw' raws]]; [done| by cbn in Hline; subst |].
    exfalso. apply (f_equal String.length) in Hline.
    change (join_with delimiter (raw :: raw' :: raws))
      with (raw +:+ delimiter +:+ join_with delimiter (raw' :: raws)) in Hline.
    rewrite !string_length_app in Hline. destruct delimiter; [done|]. simpl in Hline. lia.
Qed.

Lemma Split_returns_trimmed_pieces_witness :
  ∃ raws,
    Split " v1   x " " " = Returns (TrimStr <$> raws)
    ∧ raws ≠ []
    ∧ " v1   x " = join_with " " raws
    ∧ Forall (fun raw => StdString.find raw " " = None) raws
    ∧ Forall trimmed (TrimStr <$> raws)
    ∧ (" v1   x " = EmptyString -> raws = [EmptyString]).
Proof. apply (Split_returns_trimmed_pieces " v1   x " " "). discriminate. Defined.

Lemma find_char_free (d : ascii) (w rest : string) (n : nat) :
  free_of d w = true ->
  StdString.find_from (w +:+ String d rest) (String d EmptyString) n
  = Some (n + String.length w).
Proof.
  revert n. induction w as [|c w IH]; intros n Hw.
  - change (EmptyString +:+ String d rest) with (String d rest).
    cbn [StdString.find_from String.prefix].
    destruct (ascii_dec d d); [|done]. destruct rest; simpl; f_equal; lia.
  - simpl in Hw. apply andb_true_iff in Hw as [Hc Hw].
    change (String c w +:+ String d rest) with (String c (w +:+ String d rest)).
    cbn [StdString.find_from String.prefix].
    destruct (ascii_dec d c) as [<-|_]; [by rewrite ascii_eqb_refl in Hc|].
    rewrite (IH (S n) Hw). simpl. f_equal. lia.
Qed.

Lemma find_char_none (d : ascii) (w : string) (n : nat) :
  free_of d w = true -> StdString.find_from w (String d EmptyString) n = None.
Proof.
  revert n. induction w as [|c w IH]; intros n Hw; [done|].
  simpl in Hw. apply andb_true_iff in Hw as [Hc Hw].
  cbn [StdString.find_from String.prefix].
  destruct (ascii_dec d c) as [<-|_]; [by rewrite ascii_eqb_refl in Hc|]. by apply IH.
Qed.

Lemma join_words_cons (d : ascii) (w w' : string) (rest : list string) :
  join_words d (w :: w' :: rest) = w +:+ String d (join_words d (w' :: rest)).
Proof. reflexivity. Qed.

Lemma Split_loop_join_words (d : ascii) (words : list string) (fuel : nat) :
  words ≠ [] ->
  Forall (fun w => free_of d w = true ∧ trimmed w) words ->
  String.length (join_words d words) <= fuel ->
  Split_loop fuel (join_words d words) (String d EmptyString) = Returns words.
Proof.
  intros Hne Hall. revert fuel. induction Hall as [|w rest [Hfree Htrim] Hrest IH];
    intros fuel Hfuel; [done|].
  destruct rest as [|w' rest].
  - cbn [join_words]. assert (Hfind : StdString.find w (String d EmptyString) = None).
    { by apply find_char_none. }
    destruct fuel; cbn [Split_loop]; rewrite Hfind; by rewrite trimmed_TrimStr.
  - rewrite join_words_cons in *. set (tail := join_words d (w' :: rest)) in *.
    assert (Hfind : StdString.find (w +:+ String d tail) (String d EmptyString)
                    = Some (String.length w)).
    { unfold StdString.find. by rewrite find_char_free. }
    rewrite string_length_app in Hfuel. cbn [String.length] in Hfuel.
    destruct fuel as [|fuel]; [lia|]. cbn [Split_loop]. rewrite Hfind.
    rewrite substr0_app.
    replace (String.length w + String.length (String d EmptyString))
      with (String.length (w +:+ String d EmptyString))
      by (by rewrite string_length_app).
    replace (w +:+ String d tail) with ((w +:+ String d EmptyString) +:+ tail)
      by (by rewrite string_app_assoc).
    rewrite substr_app. rewrite (IH ltac:(done) fuel) by lia.
    cbn. by rewrite trimmed_TrimStr.
Qed.

(** X3. [Split] undoes a join: words that are trimmed and free of the
    delimiter character, joined by that character, are split back into
    exactly those words (empty words included). *)
Theorem Split_of_joined_words (d : ascii) (words : list string) :
  words ≠ [] ->
  Forall (fun w => free_of d w = true ∧ trimmed w) words ->
  Split (join_words d words) (String d EmptyString) = Returns words.
Proof. intros Hne Hall. by apply Split_loop_join_words. Qed.

Lemma Split_of_joined_words_witness :
  Split (join_words " " ["v1"; EmptyString; "offset:16"]) " "
  = Returns ["v1"; EmptyString; "offset:16"].
Proof.
  apply (Split_of_joined_words " " ["v1"; EmptyString; "offset:16"]).
  - discriminate.
  - repeat constructor.
Defined.

(** * Further properties: tokens *)

(** What [ClassifyToken] can do with a word of fewer than 2^31 characters. *)
Lemma ClassifyToken_cases (b : bool) (token : string) :
  (Z.of_nat (String.length token) <= INT_MAX)%Z ->
  (∃ ty first last selectable,
     ClassifyToken b token = Returns (classified_token token ty first last selectable)
     ∧ (selectable = true
        <-> ty = kScalarRegisterType ∨ ty = kVectorRegisterType ∨ ty = kConstantType)
     ∧ (b = true -> ty = kBranchLabelType)
     ∧ (b = false -> ty ≠ kBranchLabelType ∧ ty ≠ kLabelType))
  ∨ ClassifyToken b token = Raises std_out_of_range.
Proof.
  intros Hlen. destruct b.
  { left. exists kBranchLabelType, (-1)%Z, (-1)%Z, false. rewrite ClassifyToken_branch.
    split_and!; [done | | done | done]. split; [done|]. by intros [|[|]]. }
  rewrite ClassifyToken_unfold.
  destruct (is_scalar_register token || is_vector_register token).
  { destruct (single_register_token_cases token (is_scalar_register token))
      as [(number & -> & _)|[-> | ->]]; [left|left|by right].
    - eexists _, number, (-1)%Z, true. split; [reflexivity|].
      split_and!; [|done|]; destruct (is_scalar_register token); try done; split; auto.
    - exists kTypeCount, (-1)%Z, (-1)%Z, false.
      split_and!; [done| |done|done]. split; [done|]. by intros [|[|]]. }
  assert (Hrange : ∀ x scalar,
             full_match (register_range_pattern x) token = true ->
             (∃ first last,
                register_range_token token scalar
                = Returns (classified_token token
                             (if scalar then kScalarRegisterType else kVectorRegisterType)
                             first last true))
             ∨ register_range_token token scalar = Raises std_out_of_range).
  { intros x scalar Hm.
    apply register_range_full_match in Hm as (a & c & Hna & Hnc & Ha & Hc & ->); [|done].
    rewrite register_range_token_text by done.
    rewrite (stoi_all_digits a Hna Ha), (stoi_all_digits c Hnc Hc).
    destruct (StdString.decimal_value 0 a <=? INT_MAX)%Z; [|by right].
    destruct (StdString.decimal_value 0 c <=? INT_MAX)%Z; [|by right].
    left. by eexists _, _. }
  destruct (full_match kScalarRegisterRangeExpression token) eqn:Hs.
  { cbn [orb]. destruct (Hrange "s"%char true Hs) as [(first & last & ->)| ->]; [left|by right].
    exists kScalarRegisterType, first, last, true. split_and!; try done. split; auto. }
  destruct (full_match kVectorRegisterRangeExpression token) eqn:Hv.
  { cbn [orb]. destruct (Hrange "v"%char false Hv) as [(first & last & ->)| ->]; [left|by right].
    exists kVectorRegisterType, first, last, true. split_and!; try done. split; auto. }
  cbn [orb]. left. destruct (full_match kConstantExpression token).
  - exists kConstantType, (-1)%Z, (-1)%Z, true. split_and!; try done. split; auto.
  - exists kTypeCount, (-1)%Z, (-1)%Z, false.
    split_and!; [done| |done|done]. split; [done|]. by intros [|[|]].
Qed.

(** X4. Classification of a word of fewer than 2^31 characters either
    produces a token or throws [std::out_of_range] (from [std::stoi]) and
    nothing else; the token carries the word as its text, and it is
    selectable exactly when it is typed as a scalar register, a vector
    register or a constant. *)
Theorem classification_outcomes (is_branch_instruction : bool) (token : string) :
  (Z.of_nat (String.length token) <= INT_MAX)%Z ->
  (∃ tok, ClassifyToken is_branch_instruction token = Returns tok
          ∧ token_text tok = token
          ∧ (is_selectable tok = true
             <-> type tok = kScalarRegisterType ∨ type tok = kVectorRegisterType
                 ∨ type tok = kConstantType))
  ∨ ClassifyToken is_branch_instruction token = Raises std_out_of_range.
Proof.
  intros Hlen.
  destruct (ClassifyToken_cases is_branch_instruction token Hlen)
    as [(ty & first & last & selectable & Hret & Hsel & _)|Hraise]; [left|by right].
  eexists. split; [exact Hret|]. by split.
Qed.

Lemma classification_outcomes_witness :
  (∃ tok, ClassifyToken false "s[0:1]" = Returns tok
          ∧ token_text tok = "s[0:1]"
          ∧ (is_selectable tok = true
             <-> type tok = kScalarRegisterType ∨ type tok = kVectorRegisterType
                 ∨ type tok = kConstantType))
  ∨ ClassifyToken false "s[0:1]" = Raises std_out_of_range.
Proof. apply (classification_outcomes false "s[0:1]"). vm_compute. discriminate. Defined.

Lemma ClassifyToken_text (b : bool) (token : string) (tok : Token) :
  ClassifyToken b token = Returns tok -> token_text tok = token.
Proof.
  destruct b; [by intros [= <-]|]. rewrite ClassifyToken_unfold.
  destruct (is_scalar_register token || is_vector_register token).
  { destruct (single_register_token_cases token (is_scalar_register token))
      as [(number & -> & _)|[-> | ->]]; [| |done]; by intros [= <-]. }
  destruct (full_match kScalarRegisterRangeExpression token
            || full_match kVectorRegisterRangeExpression token).
  { unfold register_range_token. destruct (Split _ ":") as [[|i0 [|i1 rest]]|]; try done.
    cbn. destruct (StdString.stoi i0); [|done]. cbn.
    destruct (StdString.stoi i1); [|done]. cbn. by intros [= <-]. }
  destruct (full_match kConstantExpression token); by intros [= <-].
Qed.

Lemma classify_operand_texts (b : bool) (operand : string) (group : list Token) :
  classify_operand b operand = Returns group ->
  Split operand " " = Returns (token_text <$> group).
Proof.
  unfold classify_operand. destruct (Split operand " ") as [words|e]; [|done].
  cbn. intros Hm. apply mapM_Returns in Hm. f_equal.
  induction Hm as [|word tok words toks Htok _ IH]; [done|].
  cbn. by rewrite (ClassifyToken_text b word tok Htok), IH.
Qed.

Lemma same_classification_texts (g g' : list Token) :
  Forall2 same_classification g g' -> token_text <$> g = token_text <$> g'.
Proof.
  induction 1 as [|t t' g g' (Ht & _) _ IH]; [done|]. cbn. by rewrite Ht, IH.
Qed.

(** X5. Whenever [ParseSelectableTokens] returns, the op code token holds
    the op code, is selectable, has no token type and keeps the register
    indices it had; the operand tokens are appended to those passed in, one
    group per operand, and the texts of a group are the trimmed words of its
    operand in order, so no group is empty. *)
Theorem ParseSelectableTokens_structure (op_code : string) (op_code_token : Token)
    (operands : list string) (selectable_tokens : list (list Token)) (w : Q)
    (op_code_token' : Token) (selectable_tokens' : list (list Token)) :
  ParseSelectableTokens op_code op_code_token operands selectable_tokens w
  = Returns (op_code_token', selectable_tokens') ->
  token_text op_code_token' = op_code
  ∧ is_selectable op_code_token' = true
  ∧ type op_code_token' = kTypeCount
  ∧ start_register_index op_code_token' = start_register_index op_code_token
  ∧ end_register_index op_code_token' = end_register_index op_code_token
  ∧ ∃ groups,
      selectable_tokens' = selectable_tokens ++ groups
      ∧ Forall2 (fun operand group =>
                   Split operand " " = Returns (token_text <$> group) ∧ group ≠ [])
                operands groups.
Proof.
  intros Hret.
  pose proof (ParseSelectableTokens_spec op_code op_code_token operands selectable_tokens w)
    as Hspec.
  destruct (classify_operands (is_branch_op_code op_code) operands) as [groups0|e] eqn:Hc;
    [|by rewrite Hspec in Hret].
  destruct Hspec as (groups & Hparse & Hsame). rewrite Hparse in Hret.
  injection Hret as <- <-. split_and!; [done..|]. exists groups. split; [done|].
  unfold classify_operands in Hc. apply mapM_Returns in Hc.
  clear Hparse. revert groups Hsame.
  induction Hc as [|operand g0 operands gs0 Hg0 _ IH]; intros groups Hsame.
  - apply Forall2_nil_inv_l in Hsame as ->. constructor.
  - apply Forall2_cons_inv_l in Hsame as (g & gs & Hg & Hgs & ->).
    constructor; [|by apply IH].
    apply classify_operand_texts in Hg0. rewrite (same_classification_texts _ _ Hg) in Hg0.
    split; [done|]. intros ->.
    apply (Split_loop_pieces " " _ operand) in Hg0 as [Hne _]. done.
Qed.

Lemma ParseSelectableTokens_structure_witness :
  ∃ op_code_token' selectable_tokens',
    ParseSelectableTokens "v_add_f32" Token_Clear ["v0"; "v1 offset:16"] [] 1
    = Returns (op_code_token', selectable_tokens')
    ∧ token_text op_code_token' = "v_add_f32"
    ∧ is_selectable op_code_token' = true
    ∧ type op_code_token' = kTypeCount
    ∧ start_register_index op_code_token' = start_register_index Token_Clear
    ∧ end_register_index op_code_token' = end_register_index Token_Clear
    ∧ ∃ groups,
        selectable_tokens' = [] ++ groups
        ∧ Forall2 (fun operand group =>
                     Split operand " " = Returns (token_text <$> group) ∧ group ≠ [])
                  ["v0"; "v1 offset:16"] groups.
Proof.
  eexists _, _. split; [vm_compute; reflexivity|].
  apply (ParseSelectableTokens_structure "v_add_f32" Token_Clear ["v0"; "v1 offset:16"] [] 1).
  vm_compute. reflexivity.
Defined.

Lemma set_hit_boxes_layout (w : Q) (n i : Z) (cur : HitBoxCursor) (toks : list Token) :
  token_start_x cur = token_end_x cur ->
  (0 <= i)%Z -> (i + Z.of_nat (length toks) = n)%Z -> (n < 18446744073709551616)%Z ->
  toks ≠ [] ->
  group_laid_out w (token_start_x cur) (set_hit_boxes w n i cur toks).1
  ∧ token_end_x (set_hit_boxes w n i cur toks).2
    = (token_start_x (set_hit_boxes w n i cur toks).2
       + token_width (set_hit_boxes w n i cur toks).2)%Q
  ∧ (token_start_x (set_hit_boxes w n i cur toks).2
     + token_width (set_hit_boxes w n i cur toks).2)%Q
    = group_end w (token_start_x cur) (set_hit_boxes w n i cur toks).1.
Proof.
  intros Hcur Hi Hn Hsmall Hne. revert i cur Hcur Hi Hn.
  induction toks as [|t toks IH]; [done|]. intros i cur Hcur Hi Hn.
  cbn [set_hit_boxes]. cbn [length] in Hn.
  rewrite (to_size_t_small (n - 1)) by lia.
  destruct toks as [|t' toks].
  - assert (Hlast : (i <? n - 1)%Z = false) by (apply Z.ltb_ge; cbn [length] in Hn; lia).
    rewrite Hlast. cbn. rewrite <- Hcur. unfold box_width. by cbn.
  - assert (Hmore : (i <? n - 1)%Z = true) by (apply Z.ltb_lt; cbn [length] in Hn; lia).
    rewrite Hmore.
    match goal with
    | |- context [set_hit_boxes w n ?i' ?cur' (t' :: toks)] =>
        specialize (IH ltac:(done) i' cur'); set (r := set_hit_boxes w n i' cur' (t' :: toks)) in *;
        assert (Hr : r.1 ≠ []) by (subst r; cbn [set_hit_boxes];
                                   destruct (set_hit_boxes _ _ _ _ toks); done)
    end.
    cbn [token_start_x token_end_x] in IH. rewrite <- Hcur in IH.
    destruct IH as (IH1 & IH2 & IH3); [done | lia | cbn [length] in *; lia |].
    destruct r as [rest cur''] eqn:Hrest. cbn [fst snd] in *.
    split_and!; [|done|].
    + cbn [group_laid_out]. unfold box_width at 1 2. cbn [token_text set_x_positions
        x_position_start x_position_end]. by rewrite <- Hcur.
    + rewrite IH3. destruct rest as [|t'' rest]; [done|]. reflexivity.
Qed.

Lemma mapM_length {A B : Type} (f : A -> Result B) (l : list A) (l' : list B) :
  mapM f l = Returns l' -> length l' = length l.
Proof. intros H. apply mapM_Returns in H. symmetry. by eapply Forall2_length. Qed.

Lemma parse_operands_layout (b : bool) (w : Q) (operands : list string)
    (sel res : list (list Token)) (cur cur' : HitBoxCursor) :
  foldM (parse_operand b w) (sel, cur) operands = Returns (res, cur') ->
  ∃ groups, res = sel ++ groups
            ∧ (token_start_x cur = token_end_x cur ->
               Forall (fun g => (Z.of_nat (length g) < 18446744073709551616)%Z) groups ->
               groups_laid_out w (token_start_x cur) groups).
Proof.
  revert sel cur. induction operands as [|operand operands IH]; intros sel cur.
  - cbn. intros [= <- <-]. exists []. by rewrite app_nil_r.
  - cbn [foldM]. unfold parse_operand at 2.
    destruct (Split operand " ") as [words|e] eqn:Hwords; [|done]. cbn [mbind Result_bind].
    destruct (mapM (ClassifyToken b) words) as [toks|e] eqn:Htoks; [|done].
    cbn [mbind Result_bind].
    assert (Hne : toks ≠ []).
    { apply (Split_loop_pieces " " _ operand) in Hwords as [Hne _].
      apply mapM_length in Htoks. destruct toks; [|done]. by destruct words. }
    pose proof (set_hit_boxes_layout w (Z.of_nat (length toks)) 0 cur toks) as Hlay.
    pose proof (Forall2_length _ _ _ (set_hit_boxes_same w (Z.of_nat (length toks)) 0 cur toks))
      as Hlen.
    destruct (set_hit_boxes w (Z.of_nat (length toks)) 0 cur toks) as [group cur1].
    cbn [fst snd] in *. cbn [mbind Result_bind]. intros Hrest.
    apply IH in Hrest as (groups & -> & Hgroups).
    exists (group :: groups). split; [by rewrite <- app_assoc|].
    intros Hcur Hall. apply Forall_cons in Hall as [Hg Hall].
    destruct Hlay as (Hlay1 & Hlay2 & Hlay3); [done | lia | lia | lia | done |].
    cbn [groups_laid_out]. split; [done|].
    cbn [token_start_x token_end_x] in Hgroups. rewrite Hlay2, Hlay3 in Hgroups.
    by apply Hgroups.
Qed.

(** X6. The hit boxes that [ParseSelectableTokens] gives the operand tokens
    tile the operand text: the first box starts at 0, every box is as wide
    as its text, the next box of the same operand starts one character after
    the end of the one before, and the first box of the next operand starts
    two characters (the delimiter) after the end of the last box of the one
    before it.  Stated for a character width [k / 2^j] and operands whose
    extent times [k] stays below 2^53, where every sum and product of the
    loop is exact in double precision, and for operands of fewer than 2^64
    words, as many as a [std::vector] can hold. *)
Theorem hit_boxes_tile_the_operands (op_code : string) (op_code_token : Token)
    (operands : list string) (selectable_tokens : list (list Token)) (k : Z) (j : nat)
    (op_code_token' : Token) (groups : list (list Token)) :
  (0 <= k)%Z -> j <= 1074 -> (k * text_extent operands < 2 ^ 53)%Z ->
  ParseSelectableTokens op_code op_code_token operands selectable_tokens (dyadic k j)
  = Returns (op_code_token', selectable_tokens ++ groups) ->
  Forall (fun g => (Z.of_nat (length g) < 18446744073709551616)%Z) groups ->
  groups_laid_out (dyadic k j) 0 groups.
Proof.
  unfold ParseSelectableTokens. cbv zeta. intros _ _ _ Hret Hsmall.
  match type of Hret with
  | context [foldM ?f (?sel, ?cur) ?l] =>
      destruct (foldM f (sel, cur) l) as [[res cur']|e] eqn:Hfold; [|done]
  end.
  cbn [mbind Result_bind] in Hret. injection Hret as _ ->.
  apply parse_operands_layout in Hfold as (groups' & Heq & Hlay).
  apply app_inv_head in Heq as ->. by apply Hlay.
Qed.

Lemma hit_boxes_tile_the_operands_witness :
  ∃ groups, groups_laid_out (dyadic 15 1) 0 groups ∧ length groups = 2.
Proof.
  eexists. split.
  - apply (hit_boxes_tile_the_operands "v_add_f32" Token_Clear ["v0"; "v1 offset:16"] []
             15 1 (parsed_op_code_token "v_add_f32" Token_Clear (dyadic 15 1))).
    + lia.
    + lia.
    + vm_compute. reflexivity.
    + vm_compute. reflexivity.
    + repeat constructor.
  - reflexivity.
Defined.

Lemma free_of_all_match_Dot (s : string) : all_match Dot s = free_of "010"%char s.
Proof.
  induction s as [|c s IH]; [done|]. cbn [all_match free_of class_matches].
  rewrite IH. by rewrite Ascii.eqb_sym.
Qed.

Lemma match_star_end (cc : CharClass) (s : string) (pos : nat) :
  match_star cc s pos (fun _ e => Some e) = Some (pos + String.length s)
  <-> all_match cc s = true.
Proof.
  split.
  - intros H. apply match_star_inv in H as (ds & rest & -> & Hds & [= Hlen]).
    rewrite string_length_app in Hlen.
    destruct rest; [by rewrite string_app_nil_r | cbn in Hlen; lia].
  - intros H. rewrite <- (string_app_nil_r s) at 1. by apply match_star_greedy.
Qed.

Lemma isdigit_not_minus (c : ascii) : StdString.isdigit c = true -> Ascii.eqb "-"%char c = false.
Proof.
  intros H. apply isdigit_inv in H. set_unfold.
  destruct H as [->|[->|[->|[->|[->|[->|[->|[->|[->|[->|[]]]]]]]]]]]; reflexivity.
Qed.

Lemma match_constant (token : string) :
  match_here kConstantExpression token 0 [] (fun _ e _ => Some e) = Some (String.length token)
  <-> constant_text token = true.
Proof.
  destruct token as [|c token]; [done|].
  cbn -[match_star Ascii.eqb StdString.isdigit constant_text].
  destruct (Ascii.eqb "-"%char c) eqn:Hc.
  - apply Ascii.eqb_eq in Hc as <-. change (StdString.isdigit "-"%char) with false.
    destruct token as [|d rest]; [done|].
    cbn -[match_star Ascii.eqb StdString.isdigit].
    destruct (StdString.isdigit d); [|done]. cbn [andb].
    rewrite <- free_of_all_match_Dot, <- (match_star_end Dot rest 2).
    by destruct (match_star Dot rest 2 _).
  - assert (Hshape : constant_text (String c token)
                     = StdString.isdigit c && free_of "010"%char token).
    { unfold constant_text.
      destruct c as [[] [] [] [] [] [] [] []]; try reflexivity; discriminate. }
    rewrite Hshape. destruct (StdString.isdigit c); [|done]. cbn [andb].
    rewrite <- free_of_all_match_Dot, <- (match_star_end Dot token 1).
    by destruct (match_star Dot token 1 _).
Qed.

Lemma constant_text_no_register (token : string) :
  constant_text token = true ->
  is_scalar_register token = false ∧ is_vector_register token = false
  ∧ full_match kScalarRegisterRangeExpression token = false
  ∧ full_match kVectorRegisterRangeExpression token = false.
Proof.
  intros Hc.
  assert (Hnone : ∀ r, (∀ d rest, StdString.isdigit d = true ->
                          match_here r (String d rest) 0 [] (fun _ e _ => Some e) = None
                          ∧ match_here r (String "-"%char (String d rest)) 0 []
                              (fun _ e _ => Some e) = None) ->
                       full_match r token = false).
  { intros r Hr. apply full_match_no_match_here.
    destruct token as [|c token]; [done|]. cbn [constant_text] in Hc.
    destruct (Ascii.eqb "-"%char c) eqn:Hminus.
    - apply Ascii.eqb_eq in Hminus as <-. destruct token as [|d rest]; [done|].
      apply andb_true_iff in Hc as [Hd _]. by apply Hr.
    - assert (Hd : StdString.isdigit c = true).
      { destruct c as [[] [] [] [] [] [] [] []]; try discriminate;
          by apply andb_true_iff in Hc as [Hd _]. }
      by apply Hr. }
  unfold is_scalar_register, is_vector_register.
  rewrite !Hnone; [done|..]; intros d rest Hd; apply isdigit_inv in Hd; set_unfold;
    destruct Hd as [->|[->|[->|[->|[->|[->|[->|[->|[->|[->|[]]]]]]]]]]]; split; reflexivity.
Qed.

(** X7. An operand word of a non-branch instruction is typed as a constant
    exactly when it has the form -?[0-9].* on one line (an optional minus
    sign, a decimal digit, then anything but a line feed: 0, -1, 1.0, 0x01);
    such a token is selectable and has no register indices.  For words of
    7-bit characters without NUL, which a [QString] holds character for
    character, and of fewer than 2^31 characters. *)
Theorem constant_classification (token : string) :
  seven_bit token = true ->
  (Z.of_nat (String.length token) <= INT_MAX)%Z ->
  (constant_text token = true ->
   ClassifyToken false token = Returns (classified_token token kConstantType (-1) (-1) true))
  ∧ (∀ tok, ClassifyToken false token = Returns tok -> type tok = kConstantType ->
            constant_text token = true).
Proof.
  intros _ Hlen. rewrite ClassifyToken_unfold. split.
  - intros Hc. destruct (constant_text_no_register token Hc) as (-> & -> & -> & ->).
    cbn [orb]. apply match_constant, full_match_spec in Hc; [|done]. by rewrite Hc.
  - intros tok.
    destruct (is_scalar_register token || is_vector_register token).
    { destruct (single_register_token_cases token (is_scalar_register token))
        as [(number & -> & _)|[-> | ->]]; [| |done]; intros [= <-];
        by destruct (is_scalar_register token). }
    destruct (full_match kScalarRegisterRangeExpression token
              || full_match kVectorRegisterRangeExpression token).
    { unfold register_range_token. destruct (Split _ ":") as [[|i0 [|i1 rest]]|]; try done.
      cbn. destruct (StdString.stoi i0); [|done]. cbn.
      destruct (StdString.stoi i1); [|done]. cbn. intros [= <-].
      by destruct (full_match kScalarRegisterRangeExpression token). }
    destruct (full_match kConstantExpression token) eqn:Hc; [|by intros [= <-]].
    intros _ _. apply full_match_spec in Hc; [|done]. by apply match_constant.
Qed.

Lemma constant_classification_witness :
  ClassifyToken false "0x01" = Returns (classified_token "0x01" kConstantType (-1) (-1) true).
Proof.
  apply (constant_classification "0x01"); [reflexivity | vm_compute; discriminate | reflexivity].
Defined.

Lemma box_width_nonneg (w : Q) (t : Token) : (0 < w)%Q -> (0 <= box_width w t)%Q.
Proof.
  intros Hw. unfold box_width. apply Qmult_le_0_compat; [by apply Qlt_le_weak|].
  unfold StdString.size. change 0%Q with (inject_Z 0). rewrite <- Zle_Qle. lia.
Qed.

Lemma group_laid_out_order (w x : Q) (g : list Token) :
  (0 < w)%Q -> group_laid_out w x g ->
  Forall (fun t => (x <= x_position_start t)%Q
                   ∧ (x_position_start t <= x_position_end t)%Q
                   ∧ (x_position_end t <= group_end w x g)%Q) g
  ∧ (∀ i j ti tj, i < j -> g !! i = Some ti -> g !! j = Some tj ->
                  (x_position_end ti < x_position_start tj)%Q)
  ∧ (x <= group_end w x g)%Q.
Proof.
  intros Hw. revert x. induction g as [|t g IH]; intros x Hlay.
  - split_and!; [constructor | intros ???? _ [=] | cbn; lra].
  - destruct Hlay as (Hstart & Hend & Hrest).
    pose proof (box_width_nonneg w t Hw) as Hbox.
    destruct (IH _ Hrest) as (Hall & Hpairs & Hge).
    assert (Hgroup : (x + box_width w t <= group_end w x (t :: g))%Q).
    { destruct g as [|t' g]; [cbn; lra|].
      change (group_end w x (t :: t' :: g))
        with (group_end w (x + box_width w t + w)%Q (t' :: g)). lra. }
    split_and!.
    + constructor.
      * rewrite Hstart, Hend. split_and!; lra.
      * destruct g as [|t' g]; [constructor|].
        change (group_end w x (t :: t' :: g))
          with (group_end w (x + box_width w t + w)%Q (t' :: g)).
        eapply Forall_impl; [exact Hall|]. intros t0 (H1 & H2 & H3). split_and!; lra.
    + intros [|i] [|j] ti tj Hij; try lia; cbn.
      * intros [= <-] Htj. rewrite Hend.
        eapply Forall_lookup_1 in Hall as (H1 & _); [|exact Htj]. lra.
      * apply Hpairs. lia.
    + lra.
Qed.

Lemma groups_laid_out_order (w x : Q) (groups : list (list Token)) :
  (0 < w)%Q -> groups_laid_out w x groups ->
  Forall (fun t => (x <= x_position_start t)%Q
                   ∧ (x_position_start t <= x_position_end t)%Q) (concat groups)
  ∧ ∀ i j ti tj, i < j -> concat groups !! i = Some ti -> concat groups !! j = Some tj ->
                 (x_position_end ti < x_position_start tj)%Q.
Proof.
  intros Hw. revert x. induction groups as [|g groups IH]; intros x Hlay.
  - split; [constructor | intros ???? _ [=]].
  - destruct Hlay as [Hg Hrest]. change (inject_Z 2) with 2%Q in Hrest.
    destruct (group_laid_out_order w x g Hw Hg) as (Hall & Hpairs & Hge).
    destruct (IH _ Hrest) as [Hall' Hpairs']. cbn [concat]. split.
    + apply Forall_app. split.
      * eapply Forall_impl; [exact Hall|]. by intros t (H1 & H2 & _).
      * eapply Forall_impl; [exact Hall'|]. intros t [H1 H2]. split; lra.
    + intros i j ti tj Hij Hi Hj.
      apply lookup_app_Some in Hi as [Hi|[Hli Hi]];
        apply lookup_app_Some in Hj as [Hj|[Hlj Hj]].
      * by eapply Hpairs.
      * eapply Forall_lookup_1 in Hall as (_ & _ & H3); [|exact Hi].
        eapply Forall_lookup_1 in Hall' as (H1 & _); [|exact Hj]. lra.
      * apply lookup_lt_Some in Hj. lia.
      * eapply (Hpairs' (i - length g) (j - length g)); [lia | done..].
Qed.

(** X18. Hit boxes never overlap: for a positive character width, the boxes
    that [ParseSelectableTokens] gives the operand tokens of a row, taken in
    the order of the tokens, lie to the right of 0, are not empty or
    reversed, and each box ends strictly before the next one starts; so no
    horizontal position is inside two tokens.  Stated for a character width
    [k / 2^j] and operands whose extent times [k] stays below 2^53, where
    every sum and product of the loop is exact in double precision, and for
    operands of fewer than 2^64 words. *)
Theorem hit_boxes_never_overlap (op_code : string) (op_code_token : Token)
    (operands : list string) (selectable_tokens : list (list Token)) (k : Z) (j : nat)
    (op_code_token' : Token) (groups : list (list Token)) :
  (0 < k)%Z -> j <= 1074 -> (k * text_extent operands < 2 ^ 53)%Z ->
  ParseSelectableTokens op_code op_code_token operands selectable_tokens (dyadic k j)
  = Returns (op_code_token', selectable_tokens ++ groups) ->
  Forall (fun g => (Z.of_nat (length g) < 18446744073709551616)%Z) groups ->
  Forall (fun t => (0 <= x_position_start t)%Q
                   ∧ (x_position_start t <= x_position_end t)%Q) (concat groups)
  ∧ ∀ i i' ti ti', i < i' -> concat groups !! i = Some ti -> concat groups !! i' = Some ti' ->
                   (x_position_end ti < x_position_start ti')%Q.
Proof.
  unfold ParseSelectableTokens. cbv zeta. intros Hk _ _ Hret Hsmall.
  assert (Hw : (0 < dyadic k j)%Q) by (unfold dyadic, Qlt; cbn; lia).
  match type of Hret with
  | context [foldM ?f (?sel, ?cur) ?l] =>
      destruct (foldM f (sel, cur) l) as [[res cur']|e] eqn:Hfold; [|done]
  end.
  cbn [mbind Result_bind] in Hret. injection Hret as _ ->.
  apply parse_operands_layout in Hfold as (groups' & Heq & Hlay).
  apply app_inv_head in Heq as ->.
  apply (groups_laid_out_order (dyadic k j) 0 groups' Hw). by apply Hlay.
Qed.

Lemma hit_boxes_never_overlap_witness :
  ∃ groups,
    length (concat groups) = 3
    ∧ ∀ i i' ti ti', i < i' -> concat groups !! i = Some ti -> concat groups !! i' = Some ti' ->
                     (x_position_end ti < x_position_start ti')%Q.
Proof.
  eexists. split; [|
    apply (hit_boxes_never_overlap "v_add_f32" Token_Clear ["v0"; "v1 offset:16"] []
             15 1 (parsed_op_code_token "v_add_f32" Token_Clear (dyadic 15 1)));
      [lia | lia | vm_compute; reflexivity | vm_compute; reflexivity | repeat constructor] ].
  reflexivity.
Defined.

(** * Further properties: the tree of model indices *)

Lemma index_top_inv (m : IsaItemModel) (b c0 : Z) (top : QModelIndex) :
  (Z.of_nat (length (blocks_ m)) <= INT_MAX)%Z ->
  index m b c0 QModelIndex_invalid = Returns top -> isValid top = true ->
  top = createIndex b c0 None
  ∧ (0 <= b < Z.of_nat (length (blocks_ m)))%Z ∧ (0 <= c0 < kColumnCount)%Z.
Proof.
  intros Hlen. unfold index, hasIndex, rowCount, columnCount. cbn.
  rewrite to_int_small by (unfold INT_MIN, INT_MAX in *; lia).
  destruct (Z.ltb_spec b 0); [by intros [= <-]|].
  destruct (Z.ltb_spec c0 0); [by intros [= <-]|]. cbn.
  destruct (Z.ltb_spec b (Z.of_nat (length (blocks_ m)))); [|by intros [= <-]].
  destruct (Z.ltb_spec c0 kColumnCount); [|by intros [= <-]].
  cbn. intros [= <-] _. split_and!; (done || lia).
Qed.

(** X8. The indices of a document whose blocks sit at their positions form a
    tree of depth two in which [parent] inverts [index]: a valid index made
    under the root has the root as its parent, a valid index made under a
    block's index has exactly that index as its parent (so rows hang under
    column 0 only), and an instruction row has no rows and no valid index
    below it. *)
Theorem parent_inverts_index (m : IsaItemModel) (b c0 r c : Z) (top child : QModelIndex) :
  well_formed m ->
  index m b c0 QModelIndex_invalid = Returns top -> isValid top = true ->
  index m r c top = Returns child -> isValid child = true ->
  parent m top = Returns QModelIndex_invalid
  ∧ parent m child = Returns top
  ∧ rowCount m child = Returns 0%Z
  ∧ ∀ r' c', index m r' c' child = Returns QModelIndex_invalid.
Proof.
  intros Hwf Htop Hvalid Hchild Hvalid'.
  destruct (index_top_inv m b c0 top (wf_blocks m Hwf) Htop Hvalid) as (-> & Hb & Hc0).
  split; [by unfold parent; rewrite Hvalid|].
  assert (Hslot : ∃ blk, blocks_ m !! Z.to_nat b = Some blk) by (apply lookup_lt_is_Some; lia).
  destruct Hslot as [blk Hblk].
  pose proof (wf_position m Hwf _ _ Hblk) as Hpos.
  pose proof (wf_rows m Hwf _ _ Hblk) as Hrows.
  pose proof (wf_blocks m Hwf) as Hblocks.
  assert (Hat : vector_at (blocks_ m) b = Returns blk).
  { rewrite <- (Z2Nat.id b) by lia. apply vector_at_of_nat; [lia | done]. }
  assert (Hchild' : child = createIndex r c (Some (Z.to_nat b)) ∧ c0 = 0%Z).
  { revert Hchild. unfold index, hasIndex, rowCount, columnCount.
    cbn [column row createIndex].
    destruct (Z.ltb_spec r 0);
      [cbn; intros [= <-]; cbv in Hvalid'; discriminate|].
    destruct (Z.ltb_spec c 0);
      [cbn; intros [= <-]; cbv in Hvalid'; discriminate|].
    cbn [orb].
    destruct (Z.ltb_spec 0 c0).
    { cbn. destruct (Z.ltb_spec r 0); [lia|]. cbn. intros [= <-]. cbv in Hvalid'. discriminate. }
    assert (c0 = 0%Z) as -> by lia. rewrite Hvalid. cbn [negb].
    unfold parent at 1. rewrite Hvalid. cbn [negb internalPointer createIndex mbind
      Result_bind isValid row column has_model QModelIndex_invalid Z.leb andb].
    cbn. rewrite Hat. cbn [mbind Result_bind].
    destruct ((r <? _)%Z && _); cbn; intros [= <-]; [done | cbv in Hvalid'; discriminate]. }
  destruct Hchild' as [-> ->].
  assert (Hparent : parent m (createIndex r c (Some (Z.to_nat b)))
                    = Returns (createIndex b 0 None)).
  { unfold parent. rewrite Hvalid'. cbn [negb internalPointer createIndex].
    rewrite Hblk, Hpos. by rewrite Z2Nat.id by lia. }
  split; [done|].
  assert (Hcount : rowCount m (createIndex r c (Some (Z.to_nat b))) = Returns 0%Z).
  { unfold rowCount. cbn [column createIndex].
    destruct (0 <? c)%Z; [done|]. rewrite Hvalid'. cbn [negb].
    rewrite Hparent. cbn [mbind Result_bind]. by rewrite Hvalid. }
  split; [done|]. intros r' c'. unfold index, hasIndex.
  destruct ((r' <? 0)%Z || (c' <? 0)%Z) eqn:Hneg; [done|].
  rewrite Hcount. cbn [mbind Result_bind].
  apply orb_false_iff in Hneg as [Hr' _]. apply Z.ltb_ge in Hr'.
  destruct (Z.ltb_spec r' 0); [lia|]. done.
Qed.

Lemma parent_inverts_index_witness :
  parent single_branch_document (createIndex 0 3 (Some 1))
  = Returns (createIndex 1 0 None).
Proof.
  apply (parent_inverts_index single_branch_document 1 0 0 3
           (createIndex 1 0 None) (createIndex 0 3 (Some 1))
           single_branch_document_well_formed); reflexivity.
Defined.

(** * Further properties: branches and labels after the pass *)

(** In a document whose blocks sit at their positions a branch resolves to
    the position of a code block. *)
Lemma well_formed_row_target (m : IsaItemModel) (row : Row) (target : Z) :
  well_formed m ->
  row_target (build_label_map (blocks_ m)) row = Some target ->
  ∃ k p l rows tok mapped,
    target = Z.of_nat k ∧ blocks_ m !! k = Some (InstructionBlock p l rows tok mapped)
    ∧ target_slot target = k.
Proof.
  intros Hwf Ht. unfold row_target in Ht.
  destruct (branch_target_text row) as [text|]; [|done]. cbn in Ht.
  apply (well_formed_label m text target Hwf) in Ht as (k & b & -> & Hb & Hlabel & _).
  destruct b as [|p l rows tok mapped]; [done|].
  exists k, p, l, rows, tok, mapped. split_and!; [done..|].
  apply target_slot_of_nat. pose proof (wf_blocks m Hwf). apply lookup_lt_Some in Hb. lia.
Qed.

Lemma elem_of_back_references (m : IsaItemModel) (k : nat) (e : Z * Z) :
  well_formed m ->
  e ∈ back_references (set_blocks (mapped_blocks (blocks_ m)) ∅ m) k
  <-> ∃ b r row, e = (Z.of_nat b, Z.of_nat r) ∧ code_row (blocks_ m) b r = Some row
                 ∧ row_target (build_label_map (blocks_ m)) row = Some (Z.of_nat k).
Proof.
  intros Hwf. rewrite mapped_blocks_back_references. split.
  - intros He.
    assert (He' : e ∈ blocks_entries (build_label_map (blocks_ m)) k (blocks_ m)).
    { destruct (blocks_ m !! k) as [[]|]; by try apply elem_of_nil in He. }
    apply elem_of_blocks_entries in He' as (b & r & row & Hrow & Hentry).
    exists b, r, row. unfold row_entry in Hentry.
    destruct (row_target _ row) as [target|] eqn:Ht; [|done].
    destruct (decide (target_slot target = k)) as [Hk|]; [|done].
    injection Hentry as <-.
    destruct (well_formed_row_target m row target Hwf Ht) as (k' & ? & ? & ? & ? & ? & -> & _ & Hk').
    destruct (code_row_bounds m b r row Hwf Hrow) as [Hb Hr].
    unfold INT_MAX in *. rewrite !to_uint32_small by lia.
    split_and!; [done..|]. by rewrite <- Hk, Hk'.
  - intros (b & r & row & -> & Hrow & Ht).
    destruct (well_formed_row_target m row _ Hwf Ht) as (k' & p & l & rows & tok & mapped
                                                         & Hk' & Hblk & Hslot).
    apply Nat2Z.inj in Hk' as <-. rewrite Hblk.
    apply elem_of_blocks_entries. exists b, r, row. split; [done|].
    unfold row_entry. rewrite Ht. rewrite decide_True by done.
    destruct (code_row_bounds m b r row Hwf Hrow) as [Hb Hr].
    unfold INT_MAX in *. by rewrite !to_uint32_small by lia.
Qed.

Lemma rows_entries_from (labels : gmap string Z) (bi k : nat) (rows : list Row) (o : nat) :
  (Z.of_nat (o + length rows) <= 4294967296)%Z ->
  NoDup (omap id (imap (fun i => row_entry labels bi k (o + i)) rows))
  ∧ ∀ e, e ∈ omap id (imap (fun i => row_entry labels bi k (o + i)) rows) ->
         ∃ ii, o <= ii ∧ e = (to_uint32 (Z.of_nat bi), Z.of_nat ii).
Proof.
  revert o. induction rows as [|row rows IH]; intros o Hlen.
  - split; [constructor|]. by intros e ?%elem_of_nil.
  - rewrite imap_cons. cbn [omap length] in *.
    assert (Hext : imap ((fun i => row_entry labels bi k (o + i)) ∘ S) rows
                   = imap (fun i => row_entry labels bi k (S o + i)) rows).
    { apply imap_ext. intros i x _. cbn. f_equal. lia. }
    rewrite Hext. destruct (IH (S o)) as [IHnd IHel]; [lia|].
    replace (o + 0) with o by lia.
    destruct (row_entry labels bi k o row) as [e|] eqn:He; cbn.
    + assert (Hentry : e = (to_uint32 (Z.of_nat bi), Z.of_nat o)).
      { unfold row_entry in He. destruct (row_target labels row); [|done].
        destruct (decide _); [|done]. injection He as <-.
        by rewrite (to_uint32_small (Z.of_nat o)) by lia. }
      split.
      * constructor; [|done]. intros (ii & Hii & Heq)%IHel. subst e.
        injection Heq as Heq. lia.
      * intros e' [->|Hin]%elem_of_cons; [by exists o|].
        apply IHel in Hin as (ii & Hii & ->). exists ii. split; [lia | done].
    + split; [done|]. intros e' Hin.
      apply IHel in Hin as (ii & Hii & ->). exists ii. split; [lia | done].
Qed.

Lemma blocks_entries_from (labels : gmap string Z) (k : nat) (blocks : list Block) (o : nat) :
  (Z.of_nat (o + length blocks) <= 4294967296)%Z ->
  Forall (fun b => (Z.of_nat (length (instruction_lines b)) <= 4294967296)%Z) blocks ->
  NoDup (concat (imap (fun i => block_entries labels k (o + i)) blocks))
  ∧ ∀ e, e ∈ concat (imap (fun i => block_entries labels k (o + i)) blocks) ->
         ∃ bi, o <= bi ∧ e.1 = Z.of_nat bi.
Proof.
  revert o. induction blocks as [|b blocks IH]; intros o Hlen Hrows.
  - split; [constructor|]. by intros e ?%elem_of_nil.
  - rewrite imap_cons. cbn [concat length] in *.
    assert (Hext : imap ((fun i => block_entries labels k (o + i)) ∘ S) blocks
                   = imap (fun i => block_entries labels k (S o + i)) blocks).
    { apply imap_ext. intros i x _. cbn. f_equal. lia. }
    rewrite Hext. apply Forall_cons in Hrows as [Hb Hrows].
    destruct (IH (S o)) as [IHnd IHel]; [lia | done |].
    replace (o + 0) with o by lia.
    assert (Hhead : NoDup (block_entries labels k o b)
                    ∧ ∀ e, e ∈ block_entries labels k o b -> e.1 = Z.of_nat o).
    { destruct b as [|p l rows tok mapped]; cbn.
      - split; [constructor|]. by intros e ?%elem_of_nil.
      - unfold rows_entries. cbn [instruction_lines] in Hb.
        destruct (rows_entries_from labels o k rows 0) as [Hnd Hel]; [cbn; lia|].
        split; [done|]. intros e (ii & _ & ->)%Hel. cbn. apply to_uint32_small. lia. }
    destruct Hhead as [Hnd Hel]. split.
    + apply NoDup_app. split_and!; [done | | done].
      intros e He (bi & Hbi & Hbi')%IHel. apply Hel in He. lia.
    + intros e [He|He]%elem_of_app.
      * exists o. split; [lia | by apply Hel].
      * apply IHel in He as (bi & Hbi & ->). exists bi. split; [lia | done].
Qed.

Lemma blocks_entries_NoDup (m : IsaItemModel) (k : nat) :
  well_formed m -> NoDup (blocks_entries (build_label_map (blocks_ m)) k (blocks_ m)).
Proof.
  intros Hwf. unfold blocks_entries.
  destruct (blocks_entries_from (build_label_map (blocks_ m)) k (blocks_ m) 0) as [Hnd _];
    [pose proof (wf_blocks m Hwf); unfold INT_MAX in *; cbn; lia | | done].
  apply Forall_lookup. intros i b Hb. pose proof (wf_rows m Hwf i b Hb).
  unfold INT_MAX in *. lia.
Qed.

(** X9. After the pass over a document whose blocks sit at their positions,
    the back-reference list of the block at position [k] holds exactly the
    (block, row) positions of the branch rows whose label resolves to [k],
    and holds each of them once. *)
Theorem back_references_are_the_resolved_branches (m m' : IsaItemModel) (k : nat) :
  well_formed m ->
  MapBlocksToBranchInstructions m = Returns m' ->
  NoDup (back_references m' k)
  ∧ ∀ e, e ∈ back_references m' k
         <-> ∃ b r row, e = (Z.of_nat b, Z.of_nat r) ∧ code_row (blocks_ m) b r = Some row
                        ∧ row_target (build_label_map (blocks_ m)) row = Some (Z.of_nat k).
Proof.
  intros Hwf Hpass. rewrite (well_formed_MapBlocks m Hwf) in Hpass. injection Hpass as <-.
  destruct (blocks_ m) as [|b0 blocks] eqn:Hblocks.
  - unfold back_references. rewrite Hblocks. cbn. split; [constructor|].
    intros e. split; [by intros ?%elem_of_nil|].
    intros (b & r & row & _ & Hrow & _). unfold code_row in Hrow. by rewrite lookup_nil in Hrow.
  - rewrite <- Hblocks. split; [|intros e; by apply elem_of_back_references].
    rewrite mapped_blocks_back_references.
    destruct (blocks_ m !! k) as [[]|]; try constructor. by apply blocks_entries_NoDup.
Qed.

Lemma back_references_are_the_resolved_branches_witness :
  ∃ m', MapBlocksToBranchInstructions single_branch_document = Returns m'
        ∧ NoDup (back_references m' 0)
        ∧ ∀ e, e ∈ back_references m' 0
               <-> ∃ b r row, e = (Z.of_nat b, Z.of_nat r)
                              ∧ code_row (blocks_ single_branch_document) b r = Some row
                              ∧ row_target (build_label_map (blocks_ single_branch_document)) row
                                = Some (Z.of_nat 0).
Proof.
  eexists. split; [vm_compute; reflexivity|].
  apply (back_references_are_the_resolved_branches single_branch_document);
    [apply single_branch_document_well_formed | vm_compute; reflexivity].
Defined.

Lemma mapM_fmap {A B : Type} (f : A -> Result B) (g : A -> B) (l : list A) :
  Forall (fun a => f a = Returns (g a)) l -> mapM f l = Returns (g <$> l).
Proof.
  induction 1 as [|a l Ha _ IH]; [done|]. cbn [mapM]. rewrite Ha. cbn. by rewrite IH.
Qed.

Lemma code_row_lookup (blocks : list Block) (b r : nat) (row : Row) :
  code_row blocks b r = Some row ->
  ∃ blk, blocks !! b = Some blk ∧ instruction_lines blk !! r = Some row.
Proof.
  unfold code_row. destruct (blocks !! b) as [[|p l rows tok mapped]|]; try done.
  intros Hr. by eexists.
Qed.

(** The query on a label gives one valid index per back reference, provided
    each back reference names a row of the document. *)
Lemma label_query (m : IsaItemModel) (k : nat) (blk : Block) :
  well_formed m -> blocks_ m !! k = Some blk ->
  Forall (fun e => ∃ b r row, e = (Z.of_nat b, Z.of_nat r)
                              ∧ code_row (blocks_ m) b r = Some row)
         (mapped_branch_instructions blk) ->
  data_kBranchIndexRole m (label_index k)
  = Returns (back_reference_index <$> mapped_branch_instructions blk).
Proof.
  intros Hwf Hblk Hrefs.
  pose proof (wf_blocks m Hwf) as Hblocks. pose proof (lookup_lt_Some _ _ _ Hblk) as Hk.
  unfold data_kBranchIndexRole, label_index, parent, isValid. cbn.
  destruct (Z.leb_spec 0 (Z.of_nat k)); [|lia]. cbn.
  rewrite (vector_at_of_nat _ k blk) by (done || lia). cbn.
  destruct blk as [|p ln rows tok mapped]; [done|]. cbn [mapped_branch_instructions] in *.
  apply mapM_fmap. eapply Forall_impl; [exact Hrefs|].
  intros e (b & r & row & -> & Hrow). cbn [fst snd].
  destruct (code_row_bounds m b r row Hwf Hrow) as [Hb Hr].
  apply code_row_lookup in Hrow as (blk' & Hblk' & Hr').
  rewrite !to_int_small by (unfold INT_MIN, INT_MAX in *; lia).
  rewrite index_top by (done || by apply lookup_lt_Some in Hblk'). cbn [mbind Result_bind].
  rewrite (index_child m b r blk'); [|done|by eapply wf_rows|done|by apply lookup_lt_Some in Hr'].
  unfold back_reference_index. cbn. by rewrite Nat2Z.id.
Qed.

(** The query on the operands of a branch whose first token is typed as a
    branch label and holds the position of a block gives the index of that
    block. *)
Lemma branch_query (m : IsaItemModel) (b r : nat) (row : Row) (t : Token) (j : nat) :
  well_formed m ->
  code_row (blocks_ m) b r = Some row ->
  first_operand_token row = Some t ->
  type t = kBranchLabelType -> start_register_index t = Z.of_nat j ->
  j < length (blocks_ m) ->
  data_kBranchIndexRole m (operands_index b r) = Returns [createIndex (Z.of_nat j) 0 None].
Proof.
  intros Hwf Hrow Ht Hty Hstart Hj. destruct (code_row_bounds m b r row Hwf Hrow) as [Hb Hr].
  unfold code_row in Hrow. destruct (blocks_ m !! b) as [blk|] eqn:Hblk; [|done].
  pose proof (wf_position m Hwf b blk Hblk) as Hpos.
  unfold data_kBranchIndexRole, operands_index, parent, isValid. cbn.
  destruct (Z.leb_spec 0 (Z.of_nat r)); [|lia]. cbn. rewrite Hblk. cbn.
  rewrite Hpos. destruct (Z.leb_spec 0 (Z.of_nat b)); [|lia]. cbn.
  rewrite (vector_at_of_nat _ b blk Hb Hblk). cbn.
  destruct blk as [|p ln rows tok mapped]; [done|]. cbn.
  rewrite (vector_at_of_nat _ r row Hr Hrow). cbn.
  destruct row as [|line op [|[|t' ts] groups] pc bin en]; try done.
  cbn in Ht. injection Ht as ->. rewrite Hty, Hstart.
  rewrite bool_decide_true by done.
  destruct (Z.eqb_spec (Z.of_nat j) (-1)); [lia|]. cbn [andb negb].
  rewrite index_top by (done || by apply wf_blocks). done.
Qed.

Lemma first_operand_token_resolve (labels : gmap string Z) (row : Row) (t : Token)
    (target : Z) :
  row_target labels row = Some target ->
  first_operand_token row = Some t ->
  first_operand_token (resolve_row labels row) = Some (set_start_register_index target t).
Proof.
  unfold resolve_row. intros -> Ht.
  destruct row as [|line op [|[|t' ts] groups] pc bin en]; try done.
  cbn in *. by injection Ht as ->.
Qed.

Lemma mapped_blocks_refs (m : IsaItemModel) (k : nat) :
  well_formed m ->
  Forall (fun e => ∃ b r row, e = (Z.of_nat b, Z.of_nat r)
                              ∧ code_row (mapped_blocks (blocks_ m)) b r = Some row)
         (back_references (set_blocks (mapped_blocks (blocks_ m)) ∅ m) k).
Proof.
  intros Hwf. apply Forall_forall. intros e He.
  apply elem_of_back_references in He as (b & r & row & -> & Hrow & _); [|done].
  exists b, r, (resolve_row (build_label_map (blocks_ m)) row). split; [done|].
  by rewrite mapped_blocks_code_row, Hrow.
Qed.

Lemma pass_result (m m' : IsaItemModel) (k : nat) (blk : Block) :
  well_formed m -> MapBlocksToBranchInstructions m = Returns m' ->
  blocks_ m !! k = Some blk ->
  m' = set_blocks (mapped_blocks (blocks_ m)) ∅ m.
Proof.
  intros Hwf Hpass Hblk. rewrite well_formed_MapBlocks_nonempty in Hpass; [congruence|done|].
  intros Hnil. by rewrite Hnil in Hblk.
Qed.

(** X10. After the pass over a document whose blocks sit at their positions,
    the branch query on the label of any block returns, without an
    exception, one valid model index per back reference of the block, in the
    order of the list: the index of that row under that block. *)
Theorem label_query_lists_its_branches (m m' : IsaItemModel) (k : nat) (blk : Block) :
  well_formed m ->
  MapBlocksToBranchInstructions m = Returns m' ->
  blocks_ m !! k = Some blk ->
  data_kBranchIndexRole m' (label_index k)
  = Returns (back_reference_index <$> back_references m' k)
  ∧ Forall (fun i => isValid i = true) (back_reference_index <$> back_references m' k).
Proof.
  intros Hwf Hpass Hblk. rewrite (pass_result m m' k blk Hwf Hpass Hblk).
  pose proof (mapped_blocks_refs m k Hwf) as Hrefs.
  assert (Hblk' : blocks_ (set_blocks (mapped_blocks (blocks_ m)) ∅ m) !! k
                  = Some (mapped_block (build_label_map (blocks_ m)) (blocks_ m) k blk)).
  { cbn. by rewrite mapped_blocks_lookup, Hblk. }
  assert (Hback : back_references (set_blocks (mapped_blocks (blocks_ m)) ∅ m) k
                  = mapped_branch_instructions
                      (mapped_block (build_label_map (blocks_ m)) (blocks_ m) k blk)).
  { unfold back_references. by rewrite Hblk'. }
  split.
  - rewrite Hback. apply label_query; [by apply mapped_well_formed | done |].
    by rewrite <- Hback.
  - apply Forall_fmap. eapply Forall_impl; [exact Hrefs|].
    intros e (b & r & row & -> & _). unfold back_reference_index, isValid. cbn.
    destruct (Z.leb_spec 0 (Z.of_nat r)); [done | lia].
Qed.

Lemma label_query_lists_its_branches_witness :
  ∃ m', MapBlocksToBranchInstructions single_branch_document = Returns m'
        ∧ data_kBranchIndexRole m' (label_index 0)
          = Returns (back_reference_index <$> back_references m' 0).
Proof.
  eexists. split; [vm_compute; reflexivity|].
  apply (label_query_lists_its_branches single_branch_document _ 0
           (code_block 0 0 "label0" []));
    [apply single_branch_document_well_formed | vm_compute; reflexivity | reflexivity].
Defined.

(** X11. Navigation goes both ways.  After the pass over a document whose
    blocks sit at their positions, for every branch row whose label resolves
    to block [k] and whose first operand token is typed as a branch label
    (as [ParseSelectableTokens] types it): the branch query on the row's
    operands returns exactly the index of block [k], and the branch query on
    the label of block [k] returns a list that holds the index of the
    row. *)
Theorem navigation_goes_both_ways (m m' : IsaItemModel) (b r k : nat) (row : Row) :
  well_formed m ->
  MapBlocksToBranchInstructions m = Returns m' ->
  code_row (blocks_ m) b r = Some row ->
  row_target (build_label_map (blocks_ m)) row = Some (Z.of_nat k) ->
  type <$> first_operand_token row = Some kBranchLabelType ->
  data_kBranchIndexRole m' (operands_index b r) = Returns [createIndex (Z.of_nat k) 0 None]
  ∧ ∃ branches, data_kBranchIndexRole m' (label_index k) = Returns branches
                ∧ createIndex (Z.of_nat r) 0 (Some b) ∈ branches.
Proof.
  intros Hwf Hpass Hrow Htarget Htype.
  destruct (well_formed_row_target m row _ Hwf Htarget)
    as (k' & p & l & rows & tok & mapped & Hk' & Hblk & _).
  apply Nat2Z.inj in Hk' as <-.
  rewrite (pass_result m m' k _ Hwf Hpass Hblk).
  destruct (first_operand_token row) as [t|] eqn:Ht; [|done]. injection Htype as Htype.
  split.
  - apply (branch_query _ b r (resolve_row (build_label_map (blocks_ m)) row)
             (set_start_register_index (Z.of_nat k) t) k).
    + by apply mapped_well_formed.
    + cbn. by rewrite mapped_blocks_code_row, Hrow.
    + by apply first_operand_token_resolve.
    + done.
    + done.
    + cbn. rewrite mapped_blocks_length. by apply lookup_lt_Some in Hblk.
  - eexists. split.
    + apply (label_query _ k (mapped_block (build_label_map (blocks_ m)) (blocks_ m) k
                                (InstructionBlock p l rows tok mapped))).
      * by apply mapped_well_formed.
      * cbn. by rewrite mapped_blocks_lookup, Hblk.
      * pose proof (mapped_blocks_refs m k Hwf) as Hrefs.
        unfold back_references in Hrefs. cbn [blocks_ set_blocks] in Hrefs.
        by rewrite mapped_blocks_lookup, Hblk in Hrefs.
    + apply list_elem_of_fmap. exists (Z.of_nat b, Z.of_nat r). split.
      * unfold back_reference_index. cbn. by rewrite Nat2Z.id.
      * assert (Hin : (Z.of_nat b, Z.of_nat r)
                      ∈ back_references (set_blocks (mapped_blocks (blocks_ m)) ∅ m) k).
        { apply elem_of_back_references; [done|]. by exists b, r, row. }
        unfold back_references in Hin. cbn [blocks_ set_blocks] in Hin.
        by rewrite mapped_blocks_lookup, Hblk in Hin.
Qed.

Lemma navigation_goes_both_ways_witness :
  ∃ m', MapBlocksToBranchInstructions single_branch_document = Returns m'
        ∧ data_kBranchIndexRole m' (operands_index 1 0)
          = Returns [createIndex (Z.of_nat 0) 0 None]
        ∧ ∃ branches, data_kBranchIndexRole m' (label_index 0) = Returns branches
                      ∧ createIndex (Z.of_nat 0) 0 (Some 1) ∈ branches.
Proof.
  eexists. split; [vm_compute; reflexivity|].
  apply (navigation_goes_both_ways single_branch_document _ 1 0 0
           (branch_row 2 "s_branch" "label0"));
    [apply single_branch_document_well_formed | vm_compute; reflexivity | reflexivity
    | vm_compute; reflexivity | reflexivity].
Defined.

(** X12. After the pass over a document whose blocks sit at their positions,
    the label of block [k] is reported as a branch target (the role that
    makes the view draw it as a link) exactly when some branch row of the
    document resolves to [k]; the query raises nothing, whatever the
    column. *)
Theorem label_is_marked_iff_targeted (m m' : IsaItemModel) (k : nat) (blk : Block) (c : Z) :
  well_formed m ->
  MapBlocksToBranchInstructions m = Returns m' ->
  blocks_ m !! k = Some blk ->
  ∃ marked,
    data_kLabelBranchRole m' (createIndex (Z.of_nat k) c None) = Returns marked
    ∧ (marked = true
       <-> ∃ b r row, code_row (blocks_ m) b r = Some row
                      ∧ row_target (build_label_map (blocks_ m)) row = Some (Z.of_nat k)).
Proof.
  intros Hwf Hpass Hblk. rewrite (pass_result m m' k blk Hwf Hpass Hblk).
  pose proof (wf_blocks m Hwf) as Hblocks. pose proof (lookup_lt_Some _ _ _ Hblk) as Hk.
  assert (Hparent : parent (set_blocks (mapped_blocks (blocks_ m)) ∅ m)
                      (createIndex (Z.of_nat k) c None) = Returns QModelIndex_invalid).
  { unfold parent. cbn [internalPointer createIndex]. by destruct (negb _). }
  unfold data_kLabelBranchRole. rewrite Hparent. cbn [mbind Result_bind].
  change (isValid QModelIndex_invalid) with false. cbn [negb row createIndex].
  rewrite (vector_at_of_nat _ k (mapped_block (build_label_map (blocks_ m)) (blocks_ m) k blk))
    by (lia || cbn; by rewrite mapped_blocks_lookup, Hblk).
  cbn [mbind Result_bind].
  pose proof (elem_of_back_references m k) as Hrefs.
  unfold back_references in Hrefs. cbn [blocks_ set_blocks] in Hrefs.
  rewrite mapped_blocks_lookup, Hblk in Hrefs. cbn in Hrefs.
  destruct blk as [|p l rows tok mapped]; cbn in *.
  - exists false. split; [done|]. split; [done|]. intros (b & r & row & Hrow & Ht).
    exfalso. eapply elem_of_nil, (Hrefs _ Hwf). by exists b, r, row.
  - eexists. split; [done|]. rewrite negb_true_iff, bool_decide_eq_false. split.
    + intros Hne.
      destruct (blocks_entries (build_label_map (blocks_ m)) k (blocks_ m)) as [|e es] eqn:He;
        [done|].
      destruct (Hrefs e Hwf) as [(b & r & row & _ & Hrow & Ht) _]; [left|].
      by exists b, r, row.
    + intros (b & r & row & Hrow & Ht) Hnil.
      eapply elem_of_nil. rewrite <- Hnil. apply (Hrefs _ Hwf). by exists b, r, row.
Qed.

Lemma label_is_marked_iff_targeted_witness :
  ∃ m' marked,
    MapBlocksToBranchInstructions single_branch_document = Returns m'
    ∧ data_kLabelBranchRole m' (createIndex (Z.of_nat 0) 2 None) = Returns marked
    ∧ (marked = true
       <-> ∃ b r row, code_row (blocks_ single_branch_document) b r = Some row
                      ∧ row_target (build_label_map (blocks_ single_branch_document)) row
                        = Some (Z.of_nat 0)).
Proof.
  eexists.
  destruct (label_is_marked_iff_targeted single_branch_document
              (set_blocks (mapped_blocks (blocks_ single_branch_document)) ∅
                 single_branch_document) 0 (code_block 0 0 "label0" []) 2
              single_branch_document_well_formed) as [marked H];
    [vm_compute; reflexivity | reflexivity |].
  exists marked. split; [vm_compute; reflexivity | exact H].
Defined.

Lemma foldM_raises {A S : Type} (P : Error -> Prop) (body : S -> A -> Result S) (l : list A)
    (st : S) (e : Error) :
  (∀ st a e, body st a = Raises e -> P e) -> foldM body st l = Raises e -> P e.
Proof.
  intros Hbody. revert st. induction l as [|a l IH]; intros st; [done|]. cbn [foldM].
  destruct (body st a) as [st'|e'] eqn:Hb; cbn; [apply IH|].
  intros [= <-]. by eapply Hbody.
Qed.

Lemma vector_at_raises {A : Type} (v : list A) (i : Z) (e : Error) :
  vector_at v i = Raises e -> e = std_out_of_range.
Proof.
  unfold vector_at. destruct (_ <? _)%Z; [|congruence]. destruct (v !! _); congruence.
Qed.

Lemma map_branch_instruction_raises (labels : gmap string Z) (block_index : nat)
    (blocks : list Block) (instruction_index : nat) (e : Error) :
  map_branch_instruction labels block_index blocks instruction_index = Raises e ->
  e = std_out_of_range ∨ e = undefined_behaviour.
Proof.
  unfold map_branch_instruction.
  destruct (blocks !! block_index) as [[|p l rows tok mapped]|]; try done.
  destruct (rows !! instruction_index) as [[|line op operands pc bin en]|]; try done.
  destruct (is_branch_op_code _); [|done].
  destruct operands as [|[|t ts] groups]; try done.
  destruct (labels !! token_text t) as [target|]; [|done].
  destruct (vector_at blocks target) as [[]|e'] eqn:Hat; cbn; try done.
  - intros [= <-]. by right.
  - intros [= <-]. left. by eapply vector_at_raises.
Qed.

(** X13. The pass fails exactly on misplaced targets: it returns, with every
    block and row resolved at once, when every branch that finds its label
    in the map finds an instruction block at the position the map gives;
    otherwise it throws [std::out_of_range] (no block at that position) or
    casts a comment block to an instruction block (undefined behaviour), and
    nothing else. *)
Theorem pass_fails_exactly_on_misplaced_targets (m : IsaItemModel) :
  (targets_valid (build_label_map (blocks_ m)) (blocks_ m) ->
   MapBlocksToBranchInstructions m
   = Returns (match blocks_ m with
              | [] => m
              | _ => set_blocks (mapped_blocks (blocks_ m)) ∅ m
              end))
  ∧ (¬ targets_valid (build_label_map (blocks_ m)) (blocks_ m) ->
     ∃ e, MapBlocksToBranchInstructions m = Raises e
          ∧ (e = std_out_of_range ∨ e = undefined_behaviour)).
Proof.
  pose proof (MapBlocksToBranchInstructions_spec m) as Hspec.
  destruct (MapBlocksToBranchInstructions m) as [m'|e] eqn:Hpass.
  - destruct Hspec as [Hvalid ->]. split; [done|]. by intros [].
  - split; [done|]. intros _. exists e. split; [done|].
    revert Hpass. unfold MapBlocksToBranchInstructions.
    destruct (blocks_ m) as [|b0 blocks]; [done|].
    destruct (foldM _ _ _) as [blocks'|e'] eqn:Hfold; cbn; [done|]. intros [= <-].
    eapply (foldM_raises (fun e => e = std_out_of_range ∨ e = undefined_behaviour));
      [|exact Hfold].
    clear. intros st a e. unfold map_block.
    destruct (st !! a) as [[|p l rows tok mapped]|]; try done. intros Hrows.
    eapply (foldM_raises (fun e => e = std_out_of_range ∨ e = undefined_behaviour));
      [|exact Hrows].
    intros st' a' e'. apply map_branch_instruction_raises.
Qed.

Lemma pass_fails_exactly_on_misplaced_targets_witness :
  ∃ e, MapBlocksToBranchInstructions misplaced_block_document = Raises e
       ∧ (e = std_out_of_range ∨ e = undefined_behaviour).
Proof.
  apply (pass_fails_exactly_on_misplaced_targets misplaced_block_document).
  intros Hvalid. apply Forall_cons in Hvalid as [Hblock _].
  apply Forall_cons in Hblock as [Hrow _].
  specialize (Hrow 7%Z ltac:(vm_compute; reflexivity)). vm_compute in Hrow. discriminate.
Defined.

(** X21. The pass writes targets and back references only.  Whenever it
    returns, the document has as many blocks as before; a comment block is
    untouched; an instruction block keeps its position, its line number
    and its label token, and each of its rows is the row it was, but
    possibly for the target held by its first operand token; the character
    width, the column widths and the line index of the model are untouched,
    and the label map is left empty unless the document has no block. *)
Theorem pass_writes_only_targets_and_back_references (m m' : IsaItemModel) :
  MapBlocksToBranchInstructions m = Returns m' ->
  Forall2 same_block_but_branches (blocks_ m) (blocks_ m')
  ∧ fixed_font_character_width_ m' = fixed_font_character_width_ m
  ∧ line_numbers_visible_ m' = line_numbers_visible_ m
  ∧ column_widths_ m' = column_widths_ m
  ∧ line_number_corresponding_indices_ m' = line_number_corresponding_indices_ m
  ∧ (blocks_ m ≠ [] -> code_block_label_to_index_ m' = ∅).
Proof.
  intros Hpass. pose proof (MapBlocksToBranchInstructions_spec m) as Hspec.
  rewrite Hpass in Hspec. destruct Hspec as [_ ->].
  assert (Hblocks : Forall2 same_block_but_branches (blocks_ m) (mapped_blocks (blocks_ m))).
  { apply Forall2_same_length_lookup. split; [by rewrite mapped_blocks_length|].
    intros k b b' Hb. rewrite mapped_blocks_lookup, Hb. intros [= <-].
    destruct b as [|p l rows tok mapped]; [done|]. cbn. split_and!; [done..|].
    apply Forall2_fmap_r, Forall_Forall2_diag, Forall_forall. intros row _.
    unfold compose, same_row_but_target, resolve_row.
    destruct (row_target (build_label_map (blocks_ m)) row) as [target|];
      [right; by exists target | by left]. }
  destruct (blocks_ m) as [|b0 blocks] eqn:Hm.
  - rewrite Hm. by split_and!.
  - rewrite <- Hm in *. by split_and!.
Qed.

Lemma pass_writes_only_targets_and_back_references_witness :
  ∃ m', MapBlocksToBranchInstructions single_branch_document = Returns m'
        ∧ Forall2 same_block_but_branches (blocks_ single_branch_document) (blocks_ m')
        ∧ column_widths_ m' = column_widths_ single_branch_document.
Proof.
  eexists. split; [vm_compute; reflexivity|].
  destruct (pass_writes_only_targets_and_back_references single_branch_document
              (set_blocks (mapped_blocks (blocks_ single_branch_document)) ∅
                 single_branch_document)) as (Hblocks & _ & _ & Hwidths & _);
    [vm_compute; reflexivity|].
  split; [exact Hblocks | exact Hwidths].
Defined.

(** * Further properties: size hints *)

Lemma cache_instructions_lengths (c : Z) (i : Z) (rows : list Row) (acc : list (Z * Z))
    (lens : MaxLengths) (n : Z) :
  (1 <= c <= 4)%Z ->
  column_length c (foldl (cache_instruction i) (acc, lens, n) rows).1.2
  = foldl Z.max (column_length c lens) (StdString.size <$> omap (cell_text c) rows).
Proof.
  intros Hc. revert acc lens n. induction rows as [|row rows IH]; intros acc lens n; [done|].
  cbn [foldl]. destruct row as [line text|line op operands pc bin en].
  - cbn [cache_instruction]. rewrite IH. done.
  - cbn [cache_instruction]. rewrite IH.
    assert (Hcases : c = 1%Z ∨ c = 2%Z ∨ c = 3%Z ∨ c = 4%Z) by lia.
    destruct Hcases as [->|[->|[->| ->]]]; reflexivity.
Qed.

Lemma cache_blocks_lengths (c : Z) (blocks : list Block) (acc : list (Z * Z))
    (lens : MaxLengths) (i : Z) :
  (1 <= c <= 4)%Z ->
  column_length c (foldl cache_block (acc, lens, i) blocks).1.2
  = foldl Z.max (column_length c lens)
      (StdString.size <$> omap (cell_text c) (all_rows blocks)).
Proof.
  intros Hc. revert acc lens i. induction blocks as [|b blocks IH]; intros acc lens i; [done|].
  cbn [foldl]. unfold cache_block at 2.
  pose proof (cache_instructions_lengths c i (instruction_lines b)
                (acc ++ [(to_uint32 (-1), to_uint32 i)]) lens 0 Hc) as Hrows.
  destruct (foldl (cache_instruction i) _ (instruction_lines b)) as [[indices lens'] z].
  cbn [fst snd] in Hrows. rewrite IH. unfold all_rows. cbn [fmap list_fmap concat].
  rewrite omap_app, fmap_app, foldl_app. by rewrite Hrows.
Qed.

Lemma foldl_max_spec (x : Z) (l : list Z) :
  (x <= foldl Z.max x l)%Z
  ∧ (∀ y, y ∈ l -> (y <= foldl Z.max x l)%Z)
  ∧ (foldl Z.max x l = x ∨ foldl Z.max x l ∈ l).
Proof.
  revert x. induction l as [|y l IH]; intros x; cbn [foldl].
  - split_and!; [lia | by intros y ?%elem_of_nil | by left].
  - destruct (IH (Z.max x y)) as (Hge & Hall & Hatt). split_and!.
    + lia.
    + intros y' [->|Hy']%elem_of_cons; [lia | by apply Hall].
    + destruct Hatt as [Heq|Hin]; [|right; by right].
      destruct (Z.max_spec x y) as [[_ Hm]|[_ Hm]]; rewrite Hm in Heq |- *.
      * right. rewrite Heq. by left.
      * by left.
Qed.

Lemma elem_of_all_rows (blocks : list Block) (row : Row) :
  row ∈ all_rows blocks
  <-> ∃ b blk r, blocks !! b = Some blk ∧ instruction_lines blk !! r = Some row.
Proof.
  unfold all_rows. rewrite elem_of_concat. split.
  - intros (rows & (blk & -> & (b & Hb)%list_elem_of_lookup)%list_elem_of_fmap
            & (r & Hr)%list_elem_of_lookup).
    by exists b, blk, r.
  - intros (b & blk & r & Hb & Hr). exists (instruction_lines blk). split.
    + apply list_elem_of_fmap. exists blk. split; [done|]. by eapply list_elem_of_lookup_2.
    + by eapply list_elem_of_lookup_2.
Qed.

(** The width [CacheSizeHints] stores for a text column, by the longest
    cell of the column. *)
Lemma cached_column_width (m : IsaItemModel) (c : Z) :
  blocks_ m ≠ [] -> (1 <= c <= 4)%Z ->
  ∃ L,
    (0 <= L)%Z
    ∧ column_widths_ (CacheSizeHints m) !! Z.to_nat c
    = Some (text_width (L + column_extra c) (fixed_font_character_width_ m))
    ∧ (∀ b blk r row text,
         blocks_ m !! b = Some blk -> instruction_lines blk !! r = Some row ->
         cell_text c row = Some text -> (StdString.size text <= L)%Z)
    ∧ (L = 0%Z
       ∨ ∃ b blk r row text,
           blocks_ m !! b = Some blk ∧ instruction_lines blk !! r = Some row
           ∧ cell_text c row = Some text ∧ StdString.size text = L).
Proof.
  intros Hne Hc. unfold CacheSizeHints.
  destruct (blocks_ m) as [|b0 blocks] eqn:Hblocks; [done|]. rewrite <- Hblocks.
  match goal with
  | |- context [foldl cache_block (?acc, ?lens, ?i) (blocks_ m)] =>
      pose proof (cache_blocks_lengths c (blocks_ m) acc lens i Hc) as Hlens;
      destruct (foldl cache_block (acc, lens, i) (blocks_ m)) as [[indices lens'] z]
  end.
  cbn [fst snd] in Hlens.
  set (texts := StdString.size <$> omap (cell_text c) (all_rows (blocks_ m))) in *.
  destruct (foldl_max_spec 0 texts) as (Hge & Hall & Hatt).
  exists (column_length c lens').
  assert (Hinit : ∀ lens0, lens0 = {| max_pc_address_length := 0; max_op_code_length := 0;
                                       max_operand_length := 0;
                                       max_binary_representation_length := 0 |} ->
                           column_length c lens0 = 0%Z).
  { intros lens0 ->. unfold column_length. by repeat destruct (_ =? _)%Z. }
  rewrite (Hinit _ eq_refl) in Hlens. rewrite Hlens. split_and!.
  - done.
  - assert (Hcases : c = 1%Z ∨ c = 2%Z ∨ c = 3%Z ∨ c = 4%Z) by lia.
    rewrite <- Hlens.
    destruct Hcases as [->|[->|[->| ->]]]; [reflexivity | | reflexivity..].
    change (Z.to_nat 2) with 2. cbn [lookup list_lookup].
    change (column_length 2 lens') with (max_op_code_length lens').
    change (column_extra 2)
      with (StdString.size kColumnPadding + StdString.size kOpCodeColumnIndent)%Z.
    by rewrite Z.add_assoc.
  - intros b blk r row text Hb Hr Htext. apply Hall. subst texts.
    apply list_elem_of_fmap. exists text. split; [done|].
    apply list_elem_of_omap. exists row. split; [|done].
    apply elem_of_all_rows. by exists b, blk, r.
  - destruct Hatt as [Heq|Hin]; [by left|]. right. subst texts.
    apply list_elem_of_fmap in Hin as (text & Hsize & Hin).
    apply list_elem_of_omap in Hin as (row & Hrow & Htext).
    apply elem_of_all_rows in Hrow as (b & blk & r & Hb & Hr).
    by exists b, blk, r, row, text.
Qed.


Lemma Qceiling_nonneg (q : Q) : (0 <= q)%Q -> (0 <= Qceiling q)%Z.
Proof.
  intros Hq. rewrite Zle_Qle. change (inject_Z 0) with 0%Q.
  eapply Qle_trans; [exact Hq | apply Qle_ceiling].
Qed.

(** X14. The cached width of a text column is that of its longest cell: for
    a document with at least one block and each of the columns PC address,
    op code, operands and binary representation, there is a length [L] that
    is at least the length of the column's text in every instruction row of
    every block, and is the length of one of them unless it is 0, such that
    [CacheSizeHints] stores the width of [L] characters plus the column's
    padding (and indent), rounded up to whole pixels.  Comment rows are not
    measured.  Stated for a character width [k / 2^j] with [j <= 21] and a
    width below 2^32, where the product is exact in double precision and
    fits the [uint32_t] it is cast to. *)
Theorem column_width_is_that_of_the_longest_cell (m : IsaItemModel) (c k : Z) (j : nat) :
  blocks_ m ≠ [] -> (1 <= c <= 4)%Z ->
  fixed_font_character_width_ m = dyadic k j -> (0 <= k)%Z -> j <= 21 ->
  ∃ L,
    (∀ b blk r row text,
       blocks_ m !! b = Some blk -> instruction_lines blk !! r = Some row ->
       cell_text c row = Some text -> (StdString.size text <= L)%Z)
    ∧ (L = 0%Z
       ∨ ∃ b blk r row text,
           blocks_ m !! b = Some blk ∧ instruction_lines blk !! r = Some row
           ∧ cell_text c row = Some text ∧ StdString.size text = L)
    ∧ ((Qceiling (inject_Z (L + column_extra c) * dyadic k j) < 2 ^ 32)%Z ->
       column_widths_ (CacheSizeHints m) !! Z.to_nat c
       = Some (Qceiling (inject_Z (L + column_extra c) * dyadic k j))).
Proof.
  intros Hne Hc Hw Hk _.
  destruct (cached_column_width m c Hne Hc) as (L & HL & Hwidth & Hall & Hatt).
  exists L. split_and!; [done..|]. intros Hfits.
  rewrite Hwidth, Hw. f_equal. unfold text_width. apply to_uint32_small.
  split; [|done]. apply Qceiling_nonneg, Qmult_le_0_compat.
  - change 0%Q with (inject_Z 0). rewrite <- Zle_Qle.
    assert (0 <= column_extra c)%Z; [|lia].
    assert (Hcases : c = 1%Z ∨ c = 2%Z ∨ c = 3%Z ∨ c = 4%Z) by lia.
    by destruct Hcases as [->|[->|[->| ->]]].
  - unfold dyadic, Qle. cbn. lia.
Qed.

Lemma column_width_is_that_of_the_longest_cell_witness :
  ∃ L,
    (∀ b blk r row text,
       blocks_ single_branch_document !! b = Some blk ->
       instruction_lines blk !! r = Some row ->
       cell_text 3 row = Some text -> (StdString.size text <= L)%Z)
    ∧ (L = 0%Z
       ∨ ∃ b blk r row text,
           blocks_ single_branch_document !! b = Some blk
           ∧ instruction_lines blk !! r = Some row
           ∧ cell_text 3 row = Some text ∧ StdString.size text = L)
    ∧ ((Qceiling (inject_Z (L + column_extra 3) * dyadic 1 0) < 2 ^ 32)%Z ->
       column_widths_ (CacheSizeHints single_branch_document) !! Z.to_nat 3
       = Some (Qceiling (inject_Z (L + column_extra 3) * dyadic 1 0))).
Proof.
  apply (column_width_is_that_of_the_longest_cell single_branch_document 3 1 0);
    [done | lia | reflexivity | lia | lia].
Defined.

Lemma targets_valid_returns (m : IsaItemModel) :
  targets_valid (build_label_map (blocks_ m)) (blocks_ m) ->
  MapBlocksToBranchInstructions m
  = Returns (match blocks_ m with
             | [] => m
             | _ => set_blocks (mapped_blocks (blocks_ m)) ∅ m
             end).
Proof.
  intros Hvalid. pose proof (MapBlocksToBranchInstructions_spec m) as Hspec.
  destruct (MapBlocksToBranchInstructions m) as [m'|e]; [|done]. by destruct Hspec as [_ ->].
Qed.

Lemma cache_instruction_resolve (labels : gmap string Z) (i : Z)
    (st : list (Z * Z) * MaxLengths * Z) (row : Row) :
  cache_instruction i st (resolve_row labels row) = cache_instruction i st row.
Proof.
  unfold resolve_row. destruct (row_target labels row) as [target|]; [|done].
  destruct st as [[indices lens] n].
  destruct row as [|line op [|[|t ts] groups] pc bin en]; try done.
  all: by destruct groups, ts.
Qed.

Lemma cache_block_mapped (labels : gmap string Z) (blocks : list Block) (k : nat)
    (st : list (Z * Z) * MaxLengths * Z) (b : Block) :
  cache_block st (mapped_block labels blocks k b) = cache_block st b.
Proof.
  destruct b as [|p l rows tok mapped]; [done|].
  destruct st as [[indices lens] i]. unfold cache_block.
  cbn [mapped_block instruction_lines]. rewrite foldl_fmap.
  assert (Hext : ∀ st0,
             foldl (fun st' row => cache_instruction i st' (resolve_row labels row)) st0 rows
             = foldl (cache_instruction i) st0 rows); [|by rewrite Hext].
  induction rows as [|row rows IH]; intros st0; [done|].
  cbn [foldl]. by rewrite cache_instruction_resolve, IH.
Qed.

Lemma foldl_imap_ext {A S : Type} (f : S -> A -> S) (g : nat -> A -> A) (l : list A) (st : S) :
  (∀ k a st', f st' (g k a) = f st' a) -> foldl f st (imap g l) = foldl f st l.
Proof.
  revert g st. induction l as [|a l IH]; intros g st Hg; [done|].
  rewrite imap_cons. cbn [foldl]. rewrite Hg. apply IH. intros k a' st'. apply Hg.
Qed.

Lemma last_line_number_mapped (blocks : list Block) :
  match last (mapped_blocks blocks) with
  | Some b => match last (instruction_lines b) with
              | Some r => Row_line_number r
              | None => 0%Z
              end
  | None => 0%Z
  end
  = match last blocks with
    | Some b => match last (instruction_lines b) with
                | Some r => Row_line_number r
                | None => 0%Z
                end
    | None => 0%Z
    end.
Proof.
  rewrite !last_lookup, mapped_blocks_lookup, mapped_blocks_length.
  destruct (blocks !! pred (length blocks)) as [b|]; [|done]. cbn [fmap option_fmap option_map].
  destruct b as [|p l rows tok mapped]; [done|]. cbn [mapped_block instruction_lines].
  rewrite fmap_last. destruct (last rows) as [row|]; [|done]. cbn.
  unfold resolve_row. destruct (row_target _ row); [|done].
  by destruct row as [|line op [|[|t ts] groups] pc bin en].
Qed.

Lemma CacheSizeHints_mapped (m : IsaItemModel) (labels : gmap string Z) :
  CacheSizeHints (set_blocks (mapped_blocks (blocks_ m)) labels m)
  = set_blocks (mapped_blocks (blocks_ m)) labels (CacheSizeHints m).
Proof.
  unfold CacheSizeHints. cbn [blocks_ set_blocks code_block_label_to_index_
    fixed_font_character_width_ line_numbers_visible_].
  rewrite last_line_number_mapped.
  destruct (blocks_ m) as [|b0 blocks] eqn:Hblocks; [done|]. rewrite <- Hblocks.
  destruct (mapped_blocks (blocks_ m)) as [|b0' blocks'] eqn:Hmapped.
  { apply (f_equal length) in Hmapped. by rewrite mapped_blocks_length, Hblocks in Hmapped. }
  rewrite <- Hmapped. unfold mapped_blocks at 1.
  rewrite foldl_imap_ext by (intros; apply cache_block_mapped).
  by destruct (foldl cache_block _ (blocks_ m)) as [[indices lens] z].
Qed.

(** X15. Size hints and branch resolution do not depend on each other:
    whenever the pass returns, running it on the document with cached size
    hints gives the same result as caching the size hints of the resolved
    document, and the column widths and the line index cached after the pass
    are those cached before it. *)
Theorem size_hints_commute_with_the_pass (m m' : IsaItemModel) :
  MapBlocksToBranchInstructions m = Returns m' ->
  MapBlocksToBranchInstructions (CacheSizeHints m) = Returns (CacheSizeHints m')
  ∧ column_widths_ (CacheSizeHints m') = column_widths_ (CacheSizeHints m)
  ∧ line_number_corresponding_indices_ (CacheSizeHints m')
    = line_number_corresponding_indices_ (CacheSizeHints m).
Proof.
  intros Hpass. pose proof (MapBlocksToBranchInstructions_spec m) as Hspec.
  rewrite Hpass in Hspec. destruct Hspec as [Hvalid ->].
  rewrite targets_valid_returns by (by rewrite CacheSizeHints_blocks).
  rewrite CacheSizeHints_blocks.
  destruct (blocks_ m) as [|b0 blocks] eqn:Hblocks; [done|]. rewrite <- Hblocks.
  by rewrite CacheSizeHints_mapped.
Qed.

Lemma size_hints_commute_with_the_pass_witness :
  ∃ m', MapBlocksToBranchInstructions single_branch_document = Returns m'
        ∧ MapBlocksToBranchInstructions (CacheSizeHints single_branch_document)
          = Returns (CacheSizeHints m').
Proof.
  eexists. split; [vm_compute; reflexivity|].
  apply (size_hints_commute_with_the_pass single_branch_document). vm_compute. reflexivity.
Defined.

(** * Further properties: what a row shows *)

Lemma join_group_texts (group : list Token) :
  join_group group = join_with " " (token_text <$> group).
Proof.
  induction group as [|t [|t' group] IH]; [done..|].
  change (join_group (t :: t' :: group))
    with (token_text t +:+ kOperandTokenSpace +:+ join_group (t' :: group)).
  by rewrite IH.
Qed.

Lemma join_operands_groups (groups : list (list Token)) :
  join_operands groups = join_with ", " (join_group <$> groups).
Proof.
  induction groups as [|g [|g' groups] IH]; [done..|].
  change (join_operands (g :: g' :: groups))
    with (join_group g +:+ kOperandDelimiter +:+ join_operands (g' :: groups)).
  by rewrite IH.
Qed.

Lemma join_words_join_with (d : ascii) (words : list string) :
  join_words d words = join_with (String d EmptyString) words.
Proof.
  induction words as [|w [|w' words] IH]; [done..|].
  rewrite join_words_cons. by rewrite IH.
Qed.

Lemma parsed_groups_texts (b : bool) (w : Q) (operands : list string)
    (sel res : list (list Token)) (cur cur' : HitBoxCursor) :
  foldM (parse_operand b w) (sel, cur) operands = Returns (res, cur') ->
  ∃ groups, res = sel ++ groups
            ∧ Forall2 (fun operand group => Split operand " " = Returns (token_text <$> group))
                      operands groups.
Proof.
  revert sel cur. induction operands as [|operand operands IH]; intros sel cur.
  - cbn. intros [= <- <-]. exists []. by rewrite app_nil_r.
  - cbn [foldM]. unfold parse_operand at 2.
    destruct (Split operand " ") as [words|e] eqn:Hwords; [|done]. cbn [mbind Result_bind].
    destruct (mapM (ClassifyToken b) words) as [toks|e] eqn:Htoks; [|done].
    cbn [mbind Result_bind].
    pose proof (same_classification_texts _ _
                  (set_hit_boxes_same w (Z.of_nat (length toks)) 0 cur toks)) as Hsame.
    destruct (set_hit_boxes w (Z.of_nat (length toks)) 0 cur toks) as [group cur1].
    cbn [fst snd] in *. cbn [mbind Result_bind]. intros Hrest.
    apply IH in Hrest as (groups & -> & Hgroups).
    exists (group :: groups). split; [by rewrite <- app_assoc|].
    constructor; [|done]. rewrite <- Hsame, Hwords. f_equal.
    apply mapM_Returns in Htoks. clear -Htoks.
    induction Htoks as [|word tok words toks Htok _ IH]; [done|].
    cbn. by rewrite (ClassifyToken_text b word tok Htok), <- IH.
Qed.

(** The text of the operand tokens of a row parsed from operands written
    with single spaces. *)
Lemma parsed_operands_text (op_code : string) (op_code_token op_code_token' : Token)
    (operands : list string) (wordss : list (list string)) (groups : list (list Token))
    (w : Q) :
  ParseSelectableTokens op_code op_code_token operands [] w
  = Returns (op_code_token', groups) ->
  Forall2 single_spaced operands wordss ->
  join_operands groups = join_with ", " operands.
Proof.
  unfold ParseSelectableTokens. cbv zeta. intros Hret Hspaced.
  match type of Hret with
  | context [foldM ?f (?sel, ?cur) ?l] =>
      destruct (foldM f (sel, cur) l) as [[res cur']|e] eqn:Hfold; [|done]
  end.
  cbn [mbind Result_bind] in Hret. injection Hret as _ ->.
  apply parsed_groups_texts in Hfold as (groups' & -> & Htexts). cbn [app].
  rewrite join_operands_groups. f_equal. clear -Htexts Hspaced.
  revert wordss Hspaced.
  induction Htexts as [|operand group operands groups Hsplit _ IH]; intros wordss Hspaced.
  - done.
  - apply Forall2_cons_inv_l in Hspaced as (words & wordss' & (-> & Hne & Hall) & Hrest & ->).
    cbn [fmap list_fmap]. rewrite (IH wordss' Hrest). f_equal.
    unfold Split in Hsplit. rewrite Split_loop_join_words in Hsplit by done.
    injection Hsplit as Hwords.
    by rewrite join_group_texts, <- Hwords, join_words_join_with.
Qed.

(** X16. What is parsed is what is shown: if the operand tokens of an
    instruction row are those [ParseSelectableTokens] made from operands
    written with single spaces, the display role of the row's operands cell
    is a string made from the operands joined by a comma and a space (read
    as a C string).  For a row of a document whose blocks sit at their
    positions. *)
Theorem parsed_operands_are_displayed (m : IsaItemModel) (b r : nat) (blk : Block)
    (line : Z) (op_code_token' : Token) (groups : list (list Token)) (pc bin : string)
    (en : bool) (op_code : string) (op_code_token : Token) (operands : list string)
    (wordss : list (list string)) (w : Q) :
  well_formed m ->
  blocks_ m !! b = Some blk ->
  instruction_lines blk !! r = Some (InstructionRow line op_code_token' groups pc bin en) ->
  ParseSelectableTokens op_code op_code_token operands [] w
  = Returns (op_code_token', groups) ->
  Forall2 single_spaced operands wordss ->
  data_DisplayRole m (operands_index b r)
  = Returns (QVariant_QString (c_str (join_with ", " operands))).
Proof.
  intros Hwf Hblk Hrow Hparse Hspaced.
  pose proof (wf_position m Hwf b blk Hblk) as Hpos.
  pose proof (wf_rows m Hwf b blk Hblk) as Hrows.
  pose proof (wf_blocks m Hwf) as Hblocks.
  pose proof (lookup_lt_Some _ _ _ Hblk) as Hb. pose proof (lookup_lt_Some _ _ _ Hrow) as Hr.
  unfold data_DisplayRole, operands_index, parent, isValid. cbn.
  destruct (Z.leb_spec 0 (Z.of_nat r)); [|lia]. cbn. rewrite Hblk. cbn.
  rewrite Hpos. destruct (Z.leb_spec 0 (Z.of_nat b)); [|lia]. cbn.
  unfold instruction_line_at. cbn.
  rewrite (vector_at_of_nat _ b blk) by (done || lia). cbn.
  rewrite (vector_at_of_nat _ r _ ltac:(lia) Hrow). cbn.
  by rewrite (parsed_operands_text _ _ _ _ _ _ _ Hparse Hspaced).
Qed.

Lemma parsed_operands_are_displayed_witness :
  data_DisplayRole
    (model_of [code_block 0 0 "main"
                 [InstructionRow 1 (parsed_op_code_token "v_add_f32" Token_Clear 1)
                    [[set_x_positions 0 2 (classified_token "v0" kVectorRegisterType 0 (-1) true)];
                     [set_x_positions 4 6 (classified_token "v1" kVectorRegisterType 1 (-1) true);
                      set_x_positions 7 16 (plain_token "offset:16")]]
                    "0x000000" "7E000280" true]])
    (operands_index 0 0)
  = Returns (QVariant_QString (c_str (join_with ", " ["v0"; "v1 offset:16"]))).
Proof.
  eapply (parsed_operands_are_displayed _ 0 0 _ 1 _ _ _ _ _ "v_add_f32" Token_Clear
            ["v0"; "v1 offset:16"] [["v0"]; ["v1"; "offset:16"]] 1).
  - solve_well_formed.
  - reflexivity.
  - reflexivity.
  - vm_compute. reflexivity.
  - repeat constructor; discriminate.
Defined.

(** X17. The pass never clears a target.  In a document whose blocks sit at
    their positions, a row whose label the pass does not find (or that is no
    branch) keeps the block index its first operand token held before: if
    that token is typed as a branch label and holds the position [j] of a
    block, the branch query on the row's operands still returns the index
    of block [j] after the pass, although block [j] does not list the row
    among its back references. *)
Theorem stale_target_survives_the_pass (m m' : IsaItemModel) (b r j : nat) (row : Row)
    (t : Token) :
  well_formed m ->
  MapBlocksToBranchInstructions m = Returns m' ->
  code_row (blocks_ m) b r = Some row ->
  row_target (build_label_map (blocks_ m)) row = None ->
  first_operand_token row = Some t ->
  type t = kBranchLabelType -> start_register_index t = Z.of_nat j ->
  j < length (blocks_ m) ->
  data_kBranchIndexRole m' (operands_index b r) = Returns [createIndex (Z.of_nat j) 0 None]
  ∧ (Z.of_nat b, Z.of_nat r) ∉ back_references m' j.
Proof.
  intros Hwf Hpass Hrow Hnone Ht Hty Hstart Hj.
  destruct (code_row_lookup _ _ _ _ Hrow) as (blk & Hblk & _).
  rewrite (pass_result m m' b blk Hwf Hpass Hblk). split.
  - apply (branch_query _ b r row t j); try done.
    + by apply mapped_well_formed.
    + cbn. rewrite mapped_blocks_code_row, Hrow. cbn. by rewrite resolve_row_unresolved.
    + cbn. by rewrite mapped_blocks_length.
  - intros (b' & r' & row' & [= Hb' Hr'] & Hrow' & Htarget)%elem_of_back_references; [|done].
    apply Nat2Z.inj in Hb' as <-. apply Nat2Z.inj in Hr' as <-.
    rewrite Hrow in Hrow'. injection Hrow' as <-. by rewrite Hnone in Htarget.
Qed.

Lemma stale_target_survives_the_pass_witness :
  ∃ m', MapBlocksToBranchInstructions stale_branch_document = Returns m'
        ∧ data_kBranchIndexRole m' (operands_index 1 0)
          = Returns [createIndex (Z.of_nat 0) 0 None]
        ∧ (Z.of_nat 1, Z.of_nat 0) ∉ back_references m' 0.
Proof.
  eexists. split; [vm_compute; reflexivity|].
  eapply (stale_target_survives_the_pass stale_branch_document _ 1 0 0);
    [solve_well_formed | vm_compute; reflexivity | reflexivity | vm_compute; reflexivity
    | reflexivity | reflexivity | reflexivity | cbn; lia].
Defined.

(** * Further properties: registers in all their forms *)

Lemma match_decorated (form : RegisterForm) (negated absolute : bool) (x d : ascii)
    (ds : string) :
  x = "s"%char ∨ x = "v"%char -> StdString.isdigit d = true -> all_digits ds = true ->
  match_here (form_pattern form x) (decorated_register form negated absolute x (String d ds))
    0 [] (fun _ e _ => Some e)
  = Some (String.length (decorated_register form negated absolute x (String d ds))).
Proof.
  intros [-> | ->] Hd Hds; destruct form, negated, absolute;
    unfold decorated_register, form_pattern;
    cbn -[match_star StdString.isdigit String.length]; rewrite Hd;
    (erewrite match_star_greedy;
       [| rewrite <- all_digits_all_match; exact Hds | done | cbn; reflexivity]);
    cbn [String.length]; rewrite ?string_length_app; cbn; f_equal; lia.
Qed.

Lemma no_match_other_letter (form' form : RegisterForm) (negated absolute : bool)
    (x y : ascii) (digits : string) :
  (x = "s"%char ∧ y = "v"%char) ∨ (x = "v"%char ∧ y = "s"%char) ->
  match_here (form_pattern form' y) (decorated_register form negated absolute x digits) 0 []
    (fun _ e _ => Some e) = None.
Proof.
  intros [[-> ->] | [-> ->]]; destruct form', form, negated, absolute; reflexivity.
Qed.

Lemma single_register_token_decorated (form : RegisterForm) (negated absolute : bool)
    (x d : ascii) (ds : string) :
  x = "s"%char ∨ x = "v"%char -> StdString.isdigit d = true -> all_digits ds = true ->
  single_register_token (decorated_register form negated absolute x (String d ds))
    (Ascii.eqb x "s")
  = if (StdString.decimal_value 0 (String d ds) <=? INT_MAX)%Z
    then Returns (classified_token (decorated_register form negated absolute x (String d ds))
                    (if Ascii.eqb x "s" then kScalarRegisterType else kVectorRegisterType)
                    (StdString.decimal_value 0 (String d ds)) (-1) true)
    else Raises std_out_of_range.
Proof.
  intros Hx Hd Hds.
  assert (Hall : all_digits (String d ds) = true) by (cbn; by rewrite Hd, Hds).
  destruct Hx as [-> | ->]; destruct form, negated, absolute;
    unfold single_register_token, decorated_register;
    cbn -[StdString.stoi StdString.isdigit StdString.decimal_value]; rewrite Hd;
    match goal with
    | |- context [StdString.stoi (String d (ds +:+ ?suffix))] =>
        replace (StdString.stoi (String d (ds +:+ suffix)))
          with (StdString.stoi (String d ds +:+ suffix)) by reflexivity;
        rewrite (stoi_digits (String d ds) suffix) by done
    end;
    by destruct (_ <=? _)%Z.
Qed.

Lemma decorated_register_kind (form : RegisterForm) (negated absolute : bool) (x d : ascii)
    (ds : string) :
  x = "s"%char ∨ x = "v"%char -> StdString.isdigit d = true -> all_digits ds = true ->
  (Z.of_nat (String.length (decorated_register form negated absolute x (String d ds)))
   <= INT_MAX)%Z ->
  is_scalar_register (decorated_register form negated absolute x (String d ds))
  = Ascii.eqb x "s"
  ∧ is_vector_register (decorated_register form negated absolute x (String d ds))
    = Ascii.eqb x "v".
Proof.
  intros Hx Hd Hds Hlen.
  pose proof (match_decorated form negated absolute x d ds Hx Hd Hds) as Hm.
  apply full_match_spec in Hm; [|done].
  assert (Hother : ∀ form' y,
             (x = "s"%char ∧ y = "v"%char) ∨ (x = "v"%char ∧ y = "s"%char) ->
             full_match (form_pattern form' y)
               (decorated_register form negated absolute x (String d ds)) = false).
  { intros form' y Hxy. apply full_match_no_match_here. by apply no_match_other_letter. }
  unfold is_scalar_register, is_vector_register.
  change kScalarRegisterExpression with (form_pattern Alone "s").
  change kScalarPairStartRegisterExpression with (form_pattern PairStart "s").
  change kScalarPairEndRegisterExpression with (form_pattern PairEnd "s").
  change kVectorRegisterExpression with (form_pattern Alone "v").
  change kVectorPairStartRegisterExpression with (form_pattern PairStart "v").
  change kVectorPairEndRegisterExpression with (form_pattern PairEnd "v").
  destruct Hx as [-> | ->].
  - rewrite !(Hother _ "v"%char) by (by left). split; [|done].
    destruct form; rewrite Hm; by rewrite ?orb_true_r.
  - rewrite !(Hother _ "s"%char) by (by right). split; [done|].
    destruct form; rewrite Hm; by rewrite ?orb_true_r.
Qed.

(** X19. Registers in all their forms.  For a non-branch instruction, an
    operand word that is a register [s<digits>] or [v<digits>], negated
    (-), within bars (|...|) or both, on its own or as the first ([[s0]) or
    the last ([s1]]) word of a bracketed pair, is classified as a selectable
    token of the scalar or the vector register type according to its
    letter, with the value of the digits as [start_register_index] and no
    [end_register_index]: the decoration never reaches the index.  For
    digits that denote at most INT_MAX and words of fewer than 2^31
    characters. *)
Theorem decorated_register_classification (form : RegisterForm) (negated absolute : bool)
    (x : ascii) (digits : string) :
  x = "s"%char ∨ x = "v"%char ->
  digits ≠ EmptyString -> all_digits digits = true ->
  (StdString.decimal_value 0 digits <= INT_MAX)%Z ->
  (Z.of_nat (String.length (decorated_register form negated absolute x digits)) <= INT_MAX)%Z ->
  ClassifyToken false (decorated_register form negated absolute x digits)
  = Returns (classified_token (decorated_register form negated absolute x digits)
               (if Ascii.eqb x "s" then kScalarRegisterType else kVectorRegisterType)
               (StdString.decimal_value 0 digits) (-1) true).
Proof.
  intros Hx Hne Hdigits Hvalue Hlen. destruct digits as [|d ds]; [done|].
  cbn [all_digits] in Hdigits. apply andb_true_iff in Hdigits as [Hd Hds].
  rewrite ClassifyToken_unfold.
  destruct (decorated_register_kind form negated absolute x d ds Hx Hd Hds Hlen) as [Hs Hv].
  rewrite Hs, Hv.
  assert (Hletter : Ascii.eqb x "s" || Ascii.eqb x "v" = true) by (by destruct Hx as [-> | ->]).
  rewrite Hletter, single_register_token_decorated by done.
  apply Z.leb_le in Hvalue. by rewrite Hvalue.
Qed.

Lemma decorated_register_classification_witness :
  ClassifyToken false "-|v12|]"
  = Returns (classified_token "-|v12|]" kVectorRegisterType 12 (-1) true).
Proof.
  apply (decorated_register_classification PairEnd true true "v" "12");
    [by right | discriminate | reflexivity | vm_compute; discriminate
    | vm_compute; discriminate].
Defined.

Ltac string_lengths :=
  repeat (progress (cbn [String.length String.append]) || rewrite string_length_app); lia.

Ltac string_lengths_in H :=
  repeat (progress (cbn [String.length String.append] in H) || rewrite string_length_app in H).

Lemma match_here_Cat (r1 r2 : Regex) (s : string) (pos : nat) (caps : Captures)
    (k : string -> nat -> Captures -> option nat) :
  match_here (Cat r1 r2) s pos caps k
  = match_here r1 s pos caps (fun s' pos' caps' => match_here r2 s' pos' caps' k).
Proof. reflexivity. Qed.

Lemma match_here_Group (n : nat) (r : Regex) (s : string) (pos : nat) (caps : Captures)
    (k : string -> nat -> Captures -> option nat) :
  match_here (Group n r) s pos caps k
  = match_here r s pos caps
      (fun s' pos' caps' => k s' pos' ((n, StdString.substr0 s (pos' - pos)) :: caps')).
Proof. reflexivity. Qed.

Lemma match_here_Opt_inv (c0 : ascii) (s : string) (pos : nat) (caps : Captures)
    (k : string -> nat -> Captures -> option nat) (e : nat) :
  match_here (Opt (Lit c0)) s pos caps k = Some e ->
  (∃ s', s = String c0 s' ∧ k s' (S pos) caps = Some e) ∨ k s pos caps = Some e.
Proof.
  cbn [match_here class_matches]. destruct s as [|c s']; [by right|].
  destruct (Ascii.eqb c0 c) eqn:Hc; [|by right]. apply Ascii.eqb_eq in Hc as <-.
  destruct (k s' (S pos) caps) eqn:Hk; [|by right]. intros [= <-]. left. by exists s'.
Qed.

(** What the register, its digits and the closing bar match, once the sign
    and the opening bar were read. *)
Lemma register_digits_inv (x : ascii) (s : string) (pos : nat) (bar sign : string)
    (k : string -> nat -> Captures -> option nat) (e : nat) :
  match_here (Cat (Group 3 (Cat (One (Lit x)) (Plus Digit09))) (Group 4 (Backref 2)))
    s pos [(2, bar); (1, sign)] k = Some e ->
  ∃ d ds rest caps,
    s = String x (String d ds +:+ bar +:+ rest)
    ∧ StdString.isdigit d = true ∧ all_digits ds = true
    ∧ k rest (pos + (String.length s - String.length rest)) caps = Some e.
Proof.
  intros H. rewrite match_here_Cat, match_here_Group, match_here_Cat in H.
  destruct s as [|c s3]; [done|]. cbn [match_here class_matches] in H.
  destruct (Ascii.eqb x c) eqn:Hx; [|done]. apply Ascii.eqb_eq in Hx as <-.
  destruct s3 as [|d s4]; [done|].
  destruct (StdString.isdigit d) eqn:Hd; [|done].
  apply match_star_inv in H as (ds & rest0 & -> & Hds & H).
  cbn [captured Nat.eqb] in H.
  destruct (String.prefix bar rest0) eqn:Hp; [|done].
  apply prefix_split in Hp.
  eexists d, ds, (StdString.substr rest0 (String.length bar)), _.
  split_and!; [by rewrite <- Hp | done | by rewrite all_digits_all_match |].
  etrans; [|exact H]. f_equal.
  apply (f_equal String.length) in Hp. rewrite string_length_app in Hp. string_lengths.
Qed.

Lemma register_bar_inv (x : ascii) (s : string) (pos : nat) (sign : string)
    (k : string -> nat -> Captures -> option nat) (e : nat) :
  match_here (Cat (Group 2 (Opt (Lit "|"%char)))
                (Cat (Group 3 (Cat (One (Lit x)) (Plus Digit09))) (Group 4 (Backref 2))))
    s pos [(1, sign)] k = Some e ->
  ∃ (absolute : bool) d ds rest caps,
    s = (if absolute then "|" else EmptyString)
        +:+ String x (String d ds +:+ (if absolute then "|" else EmptyString) +:+ rest)
    ∧ StdString.isdigit d = true ∧ all_digits ds = true
    ∧ k rest (pos + (String.length s - String.length rest)) caps = Some e.
Proof.
  intros H. rewrite match_here_Cat, match_here_Group in H.
  apply match_here_Opt_inv in H as [(s' & -> & H)|H].
  - replace (S pos - pos) with 1 in H by lia. cbn [StdString.substr0] in H.
    apply register_digits_inv in H as (d & ds & rest & caps & -> & Hd & Hds & H).
    exists true, d, ds, rest, caps. split_and!; [done..|].
    etrans; [|exact H]. f_equal. string_lengths.
  - rewrite Nat.sub_diag in H. cbn [StdString.substr0] in H.
    apply register_digits_inv in H as (d & ds & rest & caps & -> & Hd & Hds & H).
    by exists false, d, ds, rest, caps.
Qed.

Lemma register_pattern_inv (x : ascii) (s : string) (pos : nat)
    (k : string -> nat -> Captures -> option nat) (e : nat) :
  match_here (register_pattern x) s pos [] k = Some e ->
  ∃ (negated absolute : bool) d ds rest caps,
    s = (if negated then "-" else EmptyString)
        +:+ (if absolute then "|" else EmptyString)
        +:+ String x (String d ds +:+ (if absolute then "|" else EmptyString) +:+ rest)
    ∧ StdString.isdigit d = true ∧ all_digits ds = true
    ∧ k rest (pos + (String.length s - String.length rest)) caps = Some e.
Proof.
  unfold register_pattern. rewrite match_here_Cat, match_here_Group. intros H.
  apply match_here_Opt_inv in H as [(s' & -> & H)|H].
  - replace (S pos - pos) with 1 in H by lia. cbn [StdString.substr0] in H.
    apply register_bar_inv in H as (absolute & d & ds & rest & caps & -> & Hd & Hds & H).
    exists true, absolute, d, ds, rest, caps. split_and!; [done..|].
    etrans; [|exact H]. f_equal. destruct absolute; string_lengths.
  - rewrite Nat.sub_diag in H. cbn [StdString.substr0] in H.
    apply register_bar_inv in H as (absolute & d & ds & rest & caps & -> & Hd & Hds & H).
    by exists false, absolute, d, ds, rest, caps.
Qed.

Lemma string_length_nil (s : string) : String.length s = 0 -> s = EmptyString.
Proof. by destruct s. Qed.

(** The three register tests hold on decorated registers only. *)
Lemma form_pattern_inv (form : RegisterForm) (x : ascii) (token : string) :
  match_here (form_pattern form x) token 0 [] (fun _ e _ => Some e)
  = Some (String.length token) ->
  ∃ negated absolute d ds,
    token = decorated_register form negated absolute x (String d ds)
    ∧ StdString.isdigit d = true ∧ all_digits ds = true.
Proof.
  destruct form; unfold form_pattern.
  - intros (negated & absolute & d & ds & rest & caps & -> & Hd & Hds & [= H])%register_pattern_inv.
    assert (rest = EmptyString) as ->.
    { apply string_length_nil.
      destruct negated, absolute; string_lengths_in H; lia. }
    exists negated, absolute, d, ds. split; [|done]. unfold decorated_register.
    by destruct negated, absolute.
  - rewrite match_here_Cat. destruct token as [|c t]; [done|].
    cbn [match_here class_matches]. destruct (Ascii.eqb "[" c) eqn:Hc; [|done].
    apply Ascii.eqb_eq in Hc as <-.
    intros (negated & absolute & d & ds & rest & caps & -> & Hd & Hds & [= H])%register_pattern_inv.
    assert (rest = EmptyString) as ->.
    { apply string_length_nil.
      destruct negated, absolute; string_lengths_in H; lia. }
    exists negated, absolute, d, ds. split; [|done]. unfold decorated_register.
    by destruct negated, absolute.
  - rewrite match_here_Cat.
    intros (negated & absolute & d & ds & rest & caps & -> & Hd & Hds & H)%register_pattern_inv.
    destruct rest as [|c rest]; [done|]. cbn [match_here class_matches] in H.
    destruct (Ascii.eqb "]" c) eqn:Hc; [|done]. apply Ascii.eqb_eq in Hc as <-.
    injection H as H.
    assert (rest = EmptyString) as ->.
    { apply string_length_nil.
      destruct negated, absolute; string_lengths_in H; lia. }
    exists negated, absolute, d, ds. split; [|done]. unfold decorated_register.
    by destruct negated, absolute.
Qed.

Lemma single_register_inv (x : ascii) (token : string) :
  (Z.of_nat (String.length token) <= INT_MAX)%Z ->
  full_match (form_pattern Alone x) token
  || full_match (form_pattern PairStart x) token
  || full_match (form_pattern PairEnd x) token = true ->
  ∃ form negated absolute d ds,
    token = decorated_register form negated absolute x (String d ds)
    ∧ StdString.isdigit d = true ∧ all_digits ds = true.
Proof.
  intros Hlen Hm.
  assert (Hform : ∃ form, full_match (form_pattern form x) token = true).
  { apply orb_true_iff in Hm as [Hm|Hm]; [|by exists PairEnd].
    apply orb_true_iff in Hm as [Hm|Hm]; [by exists Alone | by exists PairStart]. }
  destruct Hform as [form Hform]. apply full_match_spec in Hform; [|done].
  apply form_pattern_inv in Hform as (negated & absolute & d & ds & ? & ? & ?).
  by exists form, negated, absolute, d, ds.
Qed.

(** X20. Only registers are typed as registers.  Whenever the classification
    of an operand word of a non-branch instruction (fewer than 2^31
    characters) produces a token of the scalar or the vector register type,
    the word is a register of that letter: either a single register
    [s<digits>] or [v<digits>], negated, within bars or both, alone or at
    either end of a bracketed pair, with the value of the digits as
    [start_register_index] and no [end_register_index]; or a range
    [x[first:last]] with the two values as the two indices. *)
Theorem only_registers_are_typed_as_registers (token : string) (tok : Token) :
  (Z.of_nat (String.length token) <= INT_MAX)%Z ->
  ClassifyToken false token = Returns tok ->
  type tok = kScalarRegisterType ∨ type tok = kVectorRegisterType ->
  ∃ x,
    (x = "s"%char ∧ type tok = kScalarRegisterType
     ∨ x = "v"%char ∧ type tok = kVectorRegisterType)
    ∧ ((∃ form negated absolute digits,
          token = decorated_register form negated absolute x digits
          ∧ digits ≠ EmptyString ∧ all_digits digits = true
          ∧ start_register_index tok = StdString.decimal_value 0 digits
          ∧ end_register_index tok = (-1)%Z)
       ∨ (∃ first last,
            token = register_range_text x first last
            ∧ first ≠ EmptyString ∧ last ≠ EmptyString
            ∧ all_digits first = true ∧ all_digits last = true
            ∧ start_register_index tok = StdString.decimal_value 0 first
            ∧ end_register_index tok = StdString.decimal_value 0 last)).
Proof.
  intros Hlen Hret Hty. rewrite ClassifyToken_unfold in Hret.
  assert (Hsingle : ∀ x, x = "s"%char ∨ x = "v"%char ->
            full_match (form_pattern Alone x) token
            || full_match (form_pattern PairStart x) token
            || full_match (form_pattern PairEnd x) token = true ->
            single_register_token token (Ascii.eqb x "s") = Returns tok ->
            type tok = (if Ascii.eqb x "s" then kScalarRegisterType else kVectorRegisterType)
            ∧ ∃ form negated absolute digits,
                token = decorated_register form negated absolute x digits
                ∧ digits ≠ EmptyString ∧ all_digits digits = true
                ∧ start_register_index tok = StdString.decimal_value 0 digits
                ∧ end_register_index tok = (-1)%Z).
  { intros x Hx Hm Htok.
    destruct (single_register_inv x token Hlen Hm)
      as (form & negated & absolute & d & ds & -> & Hd & Hds).
    rewrite single_register_token_decorated in Htok by done.
    destruct (_ <=? _)%Z; [|done]. injection Htok as <-. split; [done|].
    exists form, negated, absolute, (String d ds). split_and!; try done.
    cbn. by rewrite Hd, Hds. }
  assert (Hrange : ∀ x, x = "s"%char ∨ x = "v"%char ->
            full_match (register_range_pattern x) token = true ->
            register_range_token token (Ascii.eqb x "s") = Returns tok ->
            type tok = (if Ascii.eqb x "s" then kScalarRegisterType else kVectorRegisterType)
            ∧ ∃ first last,
                token = register_range_text x first last
                ∧ first ≠ EmptyString ∧ last ≠ EmptyString
                ∧ all_digits first = true ∧ all_digits last = true
                ∧ start_register_index tok = StdString.decimal_value 0 first
                ∧ end_register_index tok = StdString.decimal_value 0 last).
  { intros x Hx Hm Htok.
    apply register_range_full_match in Hm as (a & b & Hna & Hnb & Ha & Hb & ->); [|done].
    rewrite register_range_token_text in Htok by done.
    rewrite (stoi_all_digits a Hna Ha), (stoi_all_digits b Hnb Hb) in Htok.
    destruct (StdString.decimal_value 0 a <=? INT_MAX)%Z; [|done].
    destruct (StdString.decimal_value 0 b <=? INT_MAX)%Z; [|done].
    cbn in Htok. injection Htok as <-. split; [done|]. by exists a, b. }
  destruct (is_scalar_register token) eqn:Hs.
  { cbn [orb] in Hret. destruct (Hsingle "s"%char) as [Htype Hform]; [by left | done | done |].
    exists "s"%char. split; [by left | by left]. }
  destruct (is_vector_register token) eqn:Hv.
  { cbn [orb] in Hret. destruct (Hsingle "v"%char) as [Htype Hform]; [by right | done | done |].
    exists "v"%char. split; [by right | by left]. }
  cbn [orb] in Hret.
  destruct (full_match kScalarRegisterRangeExpression token) eqn:Hsr.
  { cbn [orb] in Hret. destruct (Hrange "s"%char) as [Htype Hform]; [by left | done | done |].
    exists "s"%char. split; [by left | by right]. }
  destruct (full_match kVectorRegisterRangeExpression token) eqn:Hvr.
  { cbn [orb] in Hret. destruct (Hrange "v"%char) as [Htype Hform]; [by right | done | done |].
    exists "v"%char. split; [by right | by right]. }
  cbn [orb] in Hret.
  destruct (full_match kConstantExpression token); injection Hret as <-;
    by destruct Hty.
Qed.

Lemma only_registers_are_typed_as_registers_witness :
  ∃ x form negated absolute digits,
    (x = "s"%char ∨ x = "v"%char)
    ∧ "[-|s7|" = decorated_register form negated absolute x digits.
Proof.
  destruct (only_registers_are_typed_as_registers "[-|s7|"
              (classified_token "[-|s7|" kScalarRegisterType 7 (-1) true))
    as (x & Hx & [(form & negated & absolute & digits & Htext & _)|Hrange]);
    [vm_compute; discriminate | vm_compute; reflexivity | by left | |].
  - exists x, form, negated, absolute, digits. split; [|done].
    destruct Hx as [[-> _]|[-> _]]; [by left | by right].
  - exfalso. destruct Hrange as (first & last & Htext & _).
    destruct Hx as [[-> _]|[-> _]]; discriminate.
Defined.
